(** * jsonebula: path engine, entity extraction, edge derivation, identity merge

    A shallow embedding of the core of the repository:
    - [src/path/parser.js]      ([parsePath], [evaluatePath], [getPathDepth], ...)
    - [src/path/extractor.js]   ([extractWithContext], [extractSimple],
      [previewExtraction])
    - [src/extraction/engine.js] ([extractFromCall], [calculateInterEdges])
    - the application entry point ([getNestedValue], [resolvePkValue],
      [deepMergeWithTracking], [computeNodeMappings], [escapeHtml])
    - [src/graph/raw.js] ([jsonToGraph]) and [src/graph/store.js]
      ([createNodeId], [parseNodeId])
    - [src/calls/store.js] and [src/mapping/store.js] (the two stores).

    JavaScript is dynamically typed and its objects inherit from
    [Object.prototype]; the embedding keeps that visible: property reads and
    the [in] operator fall back on the prototype, operations that can raise
    return an [outcome], and the one place where the code can write through to
    the shared prototype object is an explicit outcome of its own. *)

From Stdlib Require Import List String Ascii ZArith Bool Arith Lia DecimalString DecimalNat.
Import ListNotations.
Local Open Scope string_scope.
Local Open Scope list_scope.
Local Open Scope nat_scope.

(** String concatenation, kept apart from list append. *)
Infix "+++" := String.append (at level 60, right associativity).

(* ================================================================== *)
(** * JavaScript values and primitive operations *)
(* ================================================================== *)

Module Js.

(** Values that the core can meet.  A parsed JSON document is built from
    [VNull], [VBool], [VNum], [VStr], [VArr] and [VObj].  Numbers are the
    integers they denote (documents with integer-valued numbers).  An array
    carries the identity [id] of its allocation: [JSON.parse] allocates one
    array object per array literal and [===] on arrays compares allocations.
    The own properties of a plain object are listed in enumeration order.
    [VFun] and [VObjectPrototype] are not JSON: they are the built-in
    functions and the [Object.prototype] object that a property read can
    reach through the prototype chain. *)
Unset Elimination Schemes.
Inductive value : Type :=
| VUndefined
| VNull
| VBool (b : bool)
| VNum (n : Z)
| VStr (s : string)
| VArr (id : nat) (items : list value)
| VObj (props : list (string * value))
| VFun (name : string)
| VObjectPrototype.
Set Elimination Schemes.

(** Induction principle that reaches inside arrays and objects. *)
Section ValueInd.
Variable P : value -> Prop.
Hypothesis Hundef : P VUndefined.
Hypothesis Hnull : P VNull.
Hypothesis Hbool : forall b, P (VBool b).
Hypothesis Hnum : forall n, P (VNum n).
Hypothesis Hstr : forall s, P (VStr s).
Hypothesis Harr : forall id items, Forall P items -> P (VArr id items).
Hypothesis Hobj : forall props, Forall (fun kv => P (snd kv)) props -> P (VObj props).
Hypothesis Hfun : forall name, P (VFun name).
Hypothesis Hproto : P VObjectPrototype.

Fixpoint value_ind (v : value) : P v :=
  match v with
  | VUndefined => Hundef
  | VNull => Hnull
  | VBool b => Hbool b
  | VNum n => Hnum n
  | VStr s => Hstr s
  | VArr id items =>
      Harr id items
        ((fix go (l : list value) : Forall P l :=
            match l with
            | [] => Forall_nil P
            | x :: r => Forall_cons x (value_ind x) (go r)
            end) items)
  | VObj props =>
      Hobj props
        ((fix go (l : list (string * value)) : Forall (fun kv => P (snd kv)) l :=
            match l with
            | [] => Forall_nil _
            | kv :: r => Forall_cons kv (value_ind (snd kv)) (go r)
            end) props)
  | VFun name => Hfun name
  | VObjectPrototype => Hproto
  end.
End ValueInd.

(** What a JavaScript operation can do besides returning. *)
Inductive syntax_error : Type :=
| UnclosedBracket            (* "Invalid path: unclosed bracket in ..." *)
| InvalidAccessor (inside : string)  (* "Invalid array accessor: [...] in ..." *)
| InvalidSyntax (at_ : string).      (* "Invalid path syntax at ... in ..." *)

Inductive error : Type :=
| PathError (e : syntax_error)   (* the [Error] thrown by [parsePath] *)
| TypeError.                     (* raised by the language itself *)

(** The run leaves the fragment in which [Object.prototype] and the
    prototypes of the objects of the run are constant, and the embedding
    follows it no further:
    - [WritesObjectPrototype key]: it assigns the property [key] of the
      shared [Object.prototype];
    - [EntersObjectPrototype]: the merge has taken [Object.prototype] as its
      target and the first key of the source is [__proto__] again;
    - [ReplacesPrototype]: an assignment to [__proto__] runs the setter with
      an object or [null] and replaces the prototype of an object of the
      run. *)
Inductive escape : Type :=
| WritesObjectPrototype (key : string)
| EntersObjectPrototype
| ReplacesPrototype.

Inductive outcome (A : Type) : Type :=
| Ok (a : A)
| Throw (e : error)
| Escape (x : escape).
Arguments Ok {A} a.
Arguments Throw {A} e.
Arguments Escape {A} x.

Definition bind {A B} (m : outcome A) (f : A -> outcome B) : outcome B :=
  match m with
  | Ok a => f a
  | Throw e => Throw e
  | Escape x => Escape x
  end.

(** The part of the host that the embedding does not enumerate: properties
    of receivers other than plain objects (array and string members, wrapper
    prototypes, function objects) and the source text of a built-in
    function. *)
Class Host : Type := {
  host_get : value -> string -> value;
  host_has : value -> string -> bool;
  host_function_text : string -> string
}.

(** Own property names of a pristine [Object.prototype] besides the
    [__proto__] accessor; all of them hold functions. *)
Definition object_prototype_members : list string :=
  [ "constructor"; "hasOwnProperty"; "isPrototypeOf"; "propertyIsEnumerable";
    "toLocaleString"; "toString"; "valueOf";
    "__defineGetter__"; "__defineSetter__"; "__lookupGetter__"; "__lookupSetter__" ].

Definition is_member (name : string) : bool :=
  existsb (String.eqb name) object_prototype_members.

(** A name that a plain object answers to without owning it. *)
Definition inherited_name (name : string) : bool :=
  String.eqb name "__proto__" || is_member name.

Fixpoint own_property {A} (props : list (string * A)) (name : string) : option A :=
  match props with
  | [] => None
  | (k, v) :: rest => if String.eqb k name then Some v else own_property rest name
  end.

(** [!!v] *)
Definition truthy (v : value) : bool :=
  match v with
  | VUndefined | VNull => false
  | VBool b => b
  | VNum n => negb (Z.eqb n 0)
  | VStr s => negb (String.eqb s "")
  | VArr _ _ | VObj _ | VFun _ | VObjectPrototype => true
  end.

(** [typeof v === 'object'] *)
Definition typeof_object (v : value) : bool :=
  match v with
  | VNull | VArr _ _ | VObj _ | VObjectPrototype => true
  | _ => false
  end.

(** [Array.isArray(v)] *)
Definition isArray (v : value) : bool :=
  match v with VArr _ _ => true | _ => false end.

(** [v === undefined || v === null] *)
Definition nullish (v : value) : bool :=
  match v with VUndefined | VNull => true | _ => false end.

(** [name in v]: a [TypeError] on a primitive, otherwise the own properties
    and then the prototype chain. *)
Definition js_in `{Host} (name : string) (v : value) : outcome bool :=
  match v with
  | VObj props =>
      Ok (match own_property props name with
          | Some _ => true
          | None => inherited_name name
          end)
  | VObjectPrototype => Ok (inherited_name name)
  | VArr _ _ | VFun _ => Ok (host_has v name)
  | VUndefined | VNull | VBool _ | VNum _ | VStr _ => Throw TypeError
  end.

(** What a plain object answers for a name it does not own. *)
Definition inherited (name : string) : value :=
  if String.eqb name "__proto__" then VObjectPrototype
  else if is_member name then VFun name
  else VUndefined.

(** [v[name]]: a [TypeError] on [undefined] and [null]. *)
Definition js_get `{Host} (v : value) (name : string) : outcome value :=
  match v with
  | VUndefined | VNull => Throw TypeError
  | VObj props =>
      Ok (match own_property props name with
          | Some x => x
          | None => inherited name
          end)
  | VObjectPrototype =>
      Ok (if String.eqb name "__proto__" then VNull
          else if is_member name then VFun name
          else VUndefined)
  | _ => Ok (host_get v name)
  end.

Definition string_of_Z (n : Z) : string := NilZero.string_of_int (Z.to_int n).
Definition string_of_nat (n : nat) : string := NilZero.string_of_uint (Nat.to_uint n).

(** [String(v)], also the conversion made by a template literal and by
    [Array.prototype.join].  A plain object that owns a [toString] key holds
    JSON data there, which is not callable, and [valueOf] then returns the
    object itself: the conversion raises. *)
Fixpoint to_string `{Host} (v : value) : outcome string :=
  match v with
  | VUndefined => Ok "undefined"
  | VNull => Ok "null"
  | VBool true => Ok "true"
  | VBool false => Ok "false"
  | VNum n => Ok (string_of_Z n)
  | VStr s => Ok s
  | VArr _ items =>
      (fix join (l : list value) : outcome string :=
         match l with
         | [] => Ok ""
         | x :: rest =>
             bind (match x with
                   | VUndefined | VNull => Ok ""
                   | _ => to_string x
                   end)
               (fun s =>
                  match rest with
                  | [] => Ok s
                  | _ => bind (join rest) (fun r => Ok (s +++ "," +++ r))
                  end)
         end) items
  | VObj props =>
      match own_property props "toString" with
      | Some _ => Throw TypeError
      | None => Ok "[object Object]"
      end
  | VFun name => Ok (host_function_text name)
  | VObjectPrototype => Ok "[object Object]"
  end.

(** [a === b] where at least one side is a leaf of a JSON document (a
    primitive, [null] or an array).  Plain objects carry no identity here
    and the code never compares two of them. *)
Definition strict_eq (a b : value) : bool :=
  match a, b with
  | VUndefined, VUndefined => true
  | VNull, VNull => true
  | VBool x, VBool y => Bool.eqb x y
  | VNum x, VNum y => Z.eqb x y
  | VStr x, VStr y => String.eqb x y
  | VArr i _, VArr j _ => Nat.eqb i j
  | VFun x, VFun y => String.eqb x y
  | VObjectPrototype, VObjectPrototype => true
  | _, _ => false
  end.

End Js.

Export Js.

Notation "x <- m ;; k" := (bind m (fun x => k))
  (at level 61, m at next level, right associativity).

(* ================================================================== *)
(** * String operations of the host language *)
(* ================================================================== *)

Module Str.

Definition code (c : ascii) : nat := nat_of_ascii c.

(** [\d] *)
Definition is_digit (c : ascii) : bool := (48 <=? code c) && (code c <=? 57).

(** [[a-zA-Z_]] *)
Definition is_ident_start (c : ascii) : bool :=
  ((97 <=? code c) && (code c <=? 122))
  || ((65 <=? code c) && (code c <=? 90))
  || (code c =? 95).

(** [[a-zA-Z0-9_-]] *)
Definition is_ident_char (c : ascii) : bool :=
  is_ident_start c || is_digit c || (code c =? 45).

(** White space and line terminators among the code units below 256. *)
Definition is_space (c : ascii) : bool :=
  ((9 <=? code c) && (code c <=? 13)) || (code c =? 32) || (code c =? 160).

Fixpoint drop (n : nat) (s : string) : string :=
  match n, s with
  | O, _ => s
  | S n', String _ r => drop n' r
  | S _, EmptyString => EmptyString
  end.

Fixpoint take (n : nat) (s : string) : string :=
  match n, s with
  | O, _ => EmptyString
  | S n', String c r => String c (take n' r)
  | S _, EmptyString => EmptyString
  end.

(** [s.slice(from, to)] for [0 <= from <= to]. *)
Definition slice (from to : nat) (s : string) : string := take (to - from) (drop from s).

Fixpoint take_while (p : ascii -> bool) (s : string) : string :=
  match s with
  | String c r => if p c then String c (take_while p r) else EmptyString
  | EmptyString => EmptyString
  end.

Fixpoint drop_while (p : ascii -> bool) (s : string) : string :=
  match s with
  | String c r => if p c then drop_while p r else s
  | EmptyString => EmptyString
  end.

Fixpoint trim_end (s : string) : string :=
  match s with
  | EmptyString => EmptyString
  | String c r =>
      match trim_end r with
      | EmptyString => if is_space c then EmptyString else String c EmptyString
      | r' => String c r'
      end
  end.

(** [s.trim()] *)
Definition trim (s : string) : string := trim_end (drop_while is_space s).

(** [s.startsWith(p)] *)
Definition startsWith (s p : string) : bool := String.prefix p s.

(** [s.indexOf(c)], [None] for [-1]. *)
Fixpoint indexOf (c : ascii) (s : string) : option nat :=
  match s with
  | EmptyString => None
  | String d r => if Ascii.eqb d c then Some 0 else option_map S (indexOf c r)
  end.

(** [s.lastIndexOf(c)], [None] for [-1]. *)
Fixpoint lastIndexOf (c : ascii) (s : string) : option nat :=
  match s with
  | EmptyString => None
  | String d r =>
      match lastIndexOf c r with
      | Some i => Some (S i)
      | None => if Ascii.eqb d c then Some 0 else None
      end
  end.

(** [s.includes(c)] for a one-character needle. *)
Definition includes (s : string) (c : ascii) : bool :=
  match indexOf c s with Some _ => true | None => false end.

Fixpoint all_chars (p : ascii -> bool) (s : string) : bool :=
  match s with
  | EmptyString => true
  | String c r => p c && all_chars p r
  end.

(** [/^\d+$/.test(s)] *)
Definition all_digits (s : string) : bool :=
  negb (String.eqb s "") && all_chars is_digit s.

(** [parseInt(s, 10)] on a digit string. *)
Definition parseInt (s : string) : nat :=
  (fix go (acc : nat) (s : string) : nat :=
     match s with
     | EmptyString => acc
     | String c r => go (10 * acc + (code c - 48)) r
     end) 0 s.

(** [s.split(c)] for a one-character separator: never empty. *)
Fixpoint split (c : ascii) (s : string) : list string :=
  match s with
  | EmptyString => [EmptyString]
  | String d r =>
      if Ascii.eqb d c then EmptyString :: split c r
      else match split c r with
           | [] => [String d EmptyString]
           | p :: ps => String d p :: ps
           end
  end.

(** [parts.join(sep)] on strings. *)
Fixpoint join (sep : string) (parts : list string) : string :=
  match parts with
  | [] => EmptyString
  | [p] => p
  | p :: rest => p +++ sep +++ join sep rest
  end.

End Str.

(* ================================================================== *)
(** * Path engine ([src/path/parser.js]) *)
(* ================================================================== *)

Module Path.

(** [TokenType] with the payload of a token. *)
Inductive token : Type :=
| Root
| Field (name : string)
| AllItems
| Index (n : nat).

(** A segment of a concrete path: a field name or an array index. *)
Inductive seg : Type :=
| SKey (name : string)
| SIdx (n : nat).

(** [{ value, path }] *)
Record pmatch : Type := { m_value : value; m_path : list seg }.

(** The trailing-dot rule after a numeric or field segment. *)
Definition consume_dot (remaining : string) : string :=
  if Str.startsWith remaining "." && (1 <? String.length remaining) then Str.drop 1 remaining
  else if String.eqb remaining "." then ""
  else remaining.

(** The [while (remaining.length > 0)] loop of [parsePath].  Every round
    consumes at least one character, so [fuel] at least the length of
    [remaining] is never used up ([parse_segments_fuel]). *)
Fixpoint parse_segments (fuel : nat) (remaining : string) (tokens : list token)
  : outcome (list token) :=
  match remaining, fuel with
  | EmptyString, _ => Ok tokens
  | _, O => Ok tokens
  | String c rest, S fuel' =>
      if Ascii.eqb c "["%char then
        match Str.indexOf "]"%char remaining with
        | None => Throw (PathError UnclosedBracket)
        | Some closeIdx =>
            let inside := Str.slice 1 closeIdx remaining in
            tok <- (if String.eqb inside "*" then Ok AllItems
                    else if Str.all_digits inside then Ok (Index (Str.parseInt inside))
                    else Throw (PathError (InvalidAccessor inside))) ;;
            let remaining1 := Str.drop (closeIdx + 1) remaining in
            let remaining2 :=
              if Str.startsWith remaining1 "." then Str.drop 1 remaining1 else remaining1 in
            parse_segments fuel' remaining2 (tokens ++ [tok])
        end
      else if Str.is_digit c then
        let digits := Str.take_while Str.is_digit remaining in
        let remaining1 := Str.drop (String.length digits) remaining in
        parse_segments fuel' (consume_dot remaining1) (tokens ++ [Index (Str.parseInt digits)])
      else if Str.is_ident_start c then
        let name := Str.take_while Str.is_ident_char remaining in
        let remaining1 := Str.drop (String.length name) remaining in
        parse_segments fuel' (consume_dot remaining1) (tokens ++ [Field name])
      else if Ascii.eqb c "."%char then
        parse_segments fuel' rest tokens
      else Throw (PathError (InvalidSyntax remaining))
  end.

(** [parsePath(pathStr)] for a string argument. *)
Definition parsePath (pathStr : string) : outcome (list token) :=
  if String.eqb pathStr "" then Ok [Root]
  else
    let trimmed := Str.trim pathStr in
    if String.eqb trimmed "$" || String.eqb trimmed "" then Ok [Root]
    else
      let '(tokens, remaining) :=
        if Str.startsWith trimmed "$" then
          let remaining := Str.drop 1 trimmed in
          ([Root], if Str.startsWith remaining "." then Str.drop 1 remaining else remaining)
        else ([], trimmed) in
      tokens <- parse_segments (String.length remaining) remaining tokens ;;
      Ok (match tokens with [] => [Root] | _ => tokens end).

(** A parameter that is [string|Array]. *)
Inductive pathOrAst : Type :=
| PStr (s : string)
| PAst (ast : list token).

(** [typeof pathOrAst === 'string' ? parsePath(pathOrAst) : pathOrAst] *)
Definition to_ast (p : pathOrAst) : outcome (list token) :=
  match p with
  | PStr s => parsePath s
  | PAst ast => Ok ast
  end.

Section Evaluate.
Context `{Host}.

Definition indexed (items : list value) : list (nat * value) :=
  combine (seq 0 (List.length items)) items.

(** The body of the [switch] for one [{ value, path }] of [results]. *)
Definition eval_token (tok : token) (m : pmatch) : outcome (list pmatch) :=
  let value := m_value m in
  let path := m_path m in
  match tok with
  | Root => Ok [ {| m_value := value; m_path := path |} ]
  | Field name =>
      if truthy value && typeof_object value && negb (isArray value) then
        present <- js_in name value ;;
        if present then
          v <- js_get value name ;;
          Ok [ {| m_value := v; m_path := path ++ [SKey name] |} ]
        else Ok []
      else Ok []
  | AllItems =>
      match value with
      | VArr _ items =>
          Ok (map (fun '(idx, item) => {| m_value := item; m_path := path ++ [SIdx idx] |})
                (indexed items))
      | _ => Ok []
      end
  | Index n =>
      match value with
      | VArr _ items =>
          if n <? List.length items then
            Ok [ {| m_value := nth n items VUndefined; m_path := path ++ [SIdx n] |} ]
          else Ok []
      | _ => Ok []
      end
  end.

(** The inner [for (const { value, path } of results)] loop. *)
Fixpoint eval_results (tok : token) (results : list pmatch) : outcome (list pmatch) :=
  match results with
  | [] => Ok []
  | m :: rest =>
      here <- eval_token tok m ;;
      there <- eval_results tok rest ;;
      Ok (here ++ there)
  end.

(** The outer [for (const token of ast)] loop. *)
Fixpoint eval_ast (ast : list token) (results : list pmatch) : outcome (list pmatch) :=
  match ast with
  | [] => Ok results
  | tok :: rest =>
      nextResults <- eval_results tok results ;;
      eval_ast rest nextResults
  end.

(** [evaluatePath(data, pathOrAst)] *)
Definition evaluatePath (data : value) (p : pathOrAst) : outcome (list pmatch) :=
  ast <- to_ast p ;;
  eval_ast ast [ {| m_value := data; m_path := [] |} ].

(** [evaluatePathValues(data, pathOrAst)] *)
Definition evaluatePathValues (data : value) (p : pathOrAst) : outcome (list value) :=
  ast <- to_ast p ;;
  results <- evaluatePath data (PAst ast) ;;
  Ok (map m_value results).

(** [evaluatePathSingle(data, pathOrAst)] *)
Definition evaluatePathSingle (data : value) (p : pathOrAst) : outcome value :=
  values <- evaluatePathValues data p ;;
  Ok (match values with v :: _ => v | [] => VUndefined end).

End Evaluate.

Definition token_depth (tok : token) : nat :=
  match tok with
  | Root => 0
  | Field _ | AllItems | Index _ => 1
  end.

(** [getPathDepth(pathOrAst)] *)
Definition getPathDepth (p : pathOrAst) : outcome nat :=
  ast <- to_ast p ;;
  Ok (fold_left (fun depth tok => depth + token_depth tok) ast 0).

(** [path.replace(/^\$\.?/, '')] *)
Definition strip_root (path : string) : string :=
  if Str.startsWith path "$" then
    let r := Str.drop 1 path in
    if Str.startsWith r "." then Str.drop 1 r else r
  else path.

(** [isParentPath(pathA, pathB)] *)
Definition isParentPath (pathA pathB : string) : bool :=
  let normA := if String.eqb pathA "$" then "" else strip_root pathA in
  let normB := if String.eqb pathB "$" then "" else strip_root pathB in
  if String.eqb normA "" && negb (String.eqb normB "") then true
  else if Str.startsWith normB normA then
    let remainder := Str.drop (String.length normA) normB in
    String.eqb remainder "" || Str.startsWith remainder "." || Str.startsWith remainder "["
  else false.

(** [getParentPath(path)], [None] for [null]. *)
Definition getParentPath (path : string) : option string :=
  if String.eqb path "" || String.eqb path "$" then None
  else
    let normalized := strip_root path in
    if String.eqb normalized "" then None
    else
      match Str.lastIndexOf "."%char normalized, Str.lastIndexOf "["%char normalized with
      | None, None => Some "$"
      | lastDot, lastBracket =>
          let pos o := match o with Some i => Z.of_nat i | None => (-1)%Z end in
          let cutPoint := Z.to_nat (Z.max (pos lastDot) (pos lastBracket)) in
          let parent := Str.slice 0 cutPoint normalized in
          Some (if String.eqb parent "" then "$" else parent)
      end.

End Path.

(* ================================================================== *)
(** * Primary keys (application entry point) *)
(* ================================================================== *)

Module Keys.
Section WithHost.
Context `{Host}.

(** The [for (const part of parts)] loop of [getNestedValue]. *)
Fixpoint walk (parts : list string) (current : value) : outcome value :=
  match parts with
  | [] => Ok current
  | part :: rest =>
      if nullish current then Ok VUndefined
      else next <- js_get current part ;; walk rest next
  end.

(** [getNestedValue(obj, path)] *)
Definition getNestedValue (obj : value) (path : string) : outcome value :=
  if negb (truthy obj) || String.eqb path "" then Ok VUndefined
  else walk (Str.split "." path) obj.

(** [parts.map(f)] where [f] may raise. *)
Fixpoint map_outcome {A B} (f : A -> outcome B) (l : list A) : outcome (list B) :=
  match l with
  | [] => Ok []
  | a :: rest =>
      b <- f a ;;
      bs <- map_outcome f rest ;;
      Ok (b :: bs)
  end.

(** [values.join(sep)]: [undefined] and [null] print as the empty string,
    every other element through [String]. *)
Fixpoint js_join (sep : string) (values : list value) : outcome string :=
  match values with
  | [] => Ok ""
  | v :: rest =>
      s <- (if nullish v then Ok "" else to_string v) ;;
      match rest with
      | [] => Ok s
      | _ => r <- js_join sep rest ;; Ok (s +++ sep +++ r)
      end
  end.

(** [resolvePkValue(obj, pkField)] *)
Definition resolvePkValue (obj : value) (pkField : string) : outcome value :=
  if negb (truthy obj) || String.eqb pkField "" then Ok VUndefined
  else if negb (Str.includes pkField "+") then getNestedValue obj pkField
  else
    let parts := Str.split "+" pkField in
    values <- map_outcome (fun p => getNestedValue obj (Str.trim p)) parts ;;
    if existsb nullish values then Ok VUndefined
    else s <- js_join "|" values ;; Ok (VStr s).

End WithHost.
End Keys.

(* ================================================================== *)
(** * Configuration and documents *)
(* ================================================================== *)

Module Config.

(** [{ entity, path }]; the empty string stands for a missing field. *)
Record extraction : Type := { x_entity : string; x_path : string }.

(** An entity configuration; the empty string stands for a field that is
    missing or [null], which is what [||] tests. *)
Record entityConfig : Type := {
  c_id : string;
  c_label : string;
  c_pk : string;
  c_displayField : string;
  c_color : string
}.

(** [{ from, to, toFk, fromPk }] *)
Record relation : Type := {
  r_from : string;
  r_to : string;
  r_toFk : string;
  r_fromPk : string
}.

(** A call of the calls store: [parsedJson] is [null] when there is none,
    [extractions] may be missing. *)
Record call : Type := {
  call_id : string;
  call_name : string;
  call_parsedJson : value;
  call_extractions : option (list extraction)
}.

(** [a || b] on strings. *)
Definition or_else (a b : string) : string := if String.eqb a "" then b else a.

(** What a built-in function or [Object.prototype] answers when it is read
    as a configuration: every field is [undefined]. *)
Definition no_config (name : string) : entityConfig :=
  {| c_id := name; c_label := ""; c_pk := ""; c_displayField := ""; c_color := "" |}.

(** [entityConfigMap[name]] on the object built from the configurations:
    [None] when the result is falsy.  A name inherited from
    [Object.prototype] reads a truthy built-in. *)
Definition lookup_config (configs : list (string * entityConfig)) (name : string)
  : option entityConfig :=
  match own_property configs name with
  | Some c => Some c
  | None => if inherited_name name then Some (no_config name) else None
  end.

(** [map.set(key, v)] on an insertion-ordered [Map]: an existing key keeps
    its place. *)
Fixpoint map_set {A} (m : list (string * A)) (key : string) (v : A) : list (string * A) :=
  match m with
  | [] => [(key, v)]
  | (k, x) :: rest =>
      if String.eqb k key then (k, v) :: rest else (k, x) :: map_set rest key v
  end.

(** [map.get(key)] *)
Definition map_get {A} (m : list (string * A)) (key : string) : option A :=
  own_property m key.

End Config.

(* ================================================================== *)
(** * Extraction engine ([src/extraction/engine.js]) *)
(* ================================================================== *)

Module Engine.
Import Path Config.

Record entity : Type := {
  e_id : string;
  e_type : string;
  e_pk : value;
  e_data : value;
  e_label : string;
  e_color : string;
  e_callId : string;
  e_extractPath : string
}.

Record edge : Type := {
  g_id : string;
  g_source : string;
  g_target : string;
  g_edgeType : string
}.

(** The value stored in [extractedByPath]: [{ entityId, pathKey }]. *)
Record located : Type := { l_entityId : string; l_pathKey : string }.

Definition seg_string (s : seg) : string :=
  match s with
  | SKey name => name
  | SIdx n => string_of_nat n
  end.

(** [extractPath.join('.')] *)
Definition pathKey_of (extractPath : list seg) : string :=
  Str.join "." (map seg_string extractPath).

(** Stable insertion by depth: [x] came before every element of [l]. *)
Fixpoint insert_by_depth (x : nat * extraction) (l : list (nat * extraction))
  : list (nat * extraction) :=
  match l with
  | [] => [x]
  | y :: rest =>
      if fst x <=? fst y then x :: y :: rest else y :: insert_by_depth x rest
  end.

(** [.sort((a, b) => getPathDepth(a.path) - getPathDepth(b.path))]: a stable
    sort; the comparator, which parses both paths, runs only when there are
    two elements or more. *)
Definition sort_by_depth (xs : list extraction) : outcome (list extraction) :=
  match xs with
  | [] | [_] => Ok xs
  | _ =>
      keyed <- Keys.map_outcome
                 (fun x => d <- getPathDepth (PStr (x_path x)) ;; Ok (d, x)) xs ;;
      Ok (map snd (fold_right insert_by_depth [] keyed))
  end.

(** [extractedByPath.get(key)?.length]: the stored object has the fields
    [entityId] and [pathKey] and no [length], so the result is [undefined]
    ([None]) whether or not the key is present. *)
Definition located_length (e : option located) : option nat :=
  match e with
  | Some _ => None
  | None => None
  end.

(** [n > v] where [v] is a number or [undefined]. *)
Definition gt_or_undefined (n : nat) (v : option nat) : bool :=
  match v with
  | Some m => m <? n
  | None => false
  end.

(** [parentEntityId.split('|')[1]] *)
Definition second_part (id : string) : option string :=
  nth_error (Str.split "|" id) 1.

(** [!parentEntityId] *)
Definition no_parent (parentEntityId : option string) : bool :=
  match parentEntityId with
  | None => true
  | Some s => String.eqb s ""
  end.

(** The scan [for (const [existingPath, existingEntity] of extractedByPath)]
    that looks for the parent of the entity at [pathKey]. *)
Definition find_parent (extractedByPath : list (string * located)) (pathKey : string)
  : option string :=
  fold_left
    (fun parentEntityId '(existingPath, existingEntity) =>
       if Str.startsWith pathKey (existingPath +++ ".")
          || Str.startsWith pathKey (existingPath +++ "[")
       then
         if no_parent parentEntityId
            || gt_or_undefined (String.length existingPath)
                 (located_length
                    (match parentEntityId with
                     | Some id =>
                         match second_part id with
                         | Some key => map_get extractedByPath key
                         | None => None
                         end
                     | None => None
                     end))
         then Some (l_entityId existingEntity)
         else parentEntityId
       else parentEntityId)
    extractedByPath None.

(** The bookkeeping of one call of [extractFromCall]. *)
Record progress : Type := {
  extractedByPath : list (string * located);
  entities : list entity;
  intraEdges : list edge
}.

Section WithHost.
Context `{Host}.

(** The body of [for (const result of results)]. *)
Definition extract_result (callId entityType : string) (entityConfig : entityConfig)
    (st : progress) (result : pmatch) : outcome progress :=
  let data := m_value result in
  if negb (truthy data) || negb (typeof_object data) || isArray data then Ok st
  else
    let extractPath := m_path result in
    pkValue <- evaluatePathSingle data (PStr (or_else (c_pk entityConfig) "id")) ;;
    if nullish pkValue then Ok st
    else
      pkText <- to_string pkValue ;;
      let entityId := entityType +++ "-" +++ pkText in
      displayValue <- evaluatePathSingle data
                        (PStr (or_else (c_displayField entityConfig) "id")) ;;
      let pathKey := pathKey_of extractPath in
      let parentEntityId := find_parent (extractedByPath st) pathKey in
      let byPath := map_set (extractedByPath st) pathKey
                      {| l_entityId := entityId; l_pathKey := pathKey |} in
      label <- (match displayValue with
                | VUndefined => to_string pkValue
                | _ => to_string displayValue
                end) ;;
      let ent := {| e_id := entityId; e_type := entityType; e_pk := pkValue;
                    e_data := data; e_label := label;
                    e_color := or_else (c_color entityConfig) "#4F46E5";
                    e_callId := callId; e_extractPath := pathKey |} in
      Ok {| extractedByPath := byPath;
            entities := entities st ++ [ent];
            intraEdges :=
              if no_parent parentEntityId then intraEdges st
              else
                let parent := match parentEntityId with Some p => p | None => "" end in
                intraEdges st ++
                  [ {| g_id := "intra-" +++ parent +++ "-" +++ entityId;
                       g_source := parent; g_target := entityId;
                       g_edgeType := "intra" |} ] |}.

Fixpoint extract_results (callId entityType : string) (entityConfig : entityConfig)
    (st : progress) (results : list pmatch) : outcome progress :=
  match results with
  | [] => Ok st
  | result :: rest =>
      st' <- extract_result callId entityType entityConfig st result ;;
      extract_results callId entityType entityConfig st' rest
  end.

(** The body of [for (const extraction of sortedExtractions)]. *)
Definition extract_rule (callId : string) (json : value)
    (entityConfigMap : list (string * entityConfig))
    (st : progress) (x : extraction) : outcome progress :=
  match lookup_config entityConfigMap (x_entity x) with
  | None => Ok st
  | Some entityConfig =>
      results <- evaluatePath json (PStr (x_path x)) ;;
      extract_results callId (x_entity x) entityConfig st results
  end.

Fixpoint extract_rules (callId : string) (json : value)
    (entityConfigMap : list (string * entityConfig))
    (st : progress) (xs : list extraction) : outcome progress :=
  match xs with
  | [] => Ok st
  | x :: rest =>
      st' <- extract_rule callId json entityConfigMap st x ;;
      extract_rules callId json entityConfigMap st' rest
  end.

(** [extractFromCall(callId, json, extractions, entityConfigMap)] *)
Definition extractFromCall (callId : string) (json : value) (extractions : list extraction)
    (entityConfigMap : list (string * entityConfig))
  : outcome (list entity * list edge) :=
  sortedExtractions <-
    sort_by_depth
      (filter (fun ext => negb (String.eqb (x_entity ext) "")
                          && negb (String.eqb (x_path ext) "")) extractions) ;;
  st <- extract_rules callId json entityConfigMap
          {| extractedByPath := []; entities := []; intraEdges := [] |}
          sortedExtractions ;;
  Ok (entities st, intraEdges st).

(** The first loop of [calculateInterEdges]:
    [Map<entityType, Map<String(pk), entityId>>]. *)
Fixpoint build_index (ents : list entity) (entityIndex : list (string * list (string * string)))
  : outcome (list (string * list (string * string))) :=
  match ents with
  | [] => Ok entityIndex
  | ent :: rest =>
      let byPk := match map_get entityIndex (e_type ent) with
                  | Some m => m
                  | None => []
                  end in
      pkText <- to_string (e_pk ent) ;;
      build_index rest (map_set entityIndex (e_type ent) (map_set byPk pkText (e_id ent)))
  end.

(** The body of [for (const toEntity of toEntities)]; the state is the list
    of edges with the set of their ids. *)
Definition link_entity (fromEntities : list (string * string)) (toFk : string)
    (st : list edge * list string) (toEntity : entity) : outcome (list edge * list string) :=
  fkValue <- evaluatePathSingle (e_data toEntity) (PStr toFk) ;;
  if nullish fkValue then Ok st
  else
    fkText <- to_string fkValue ;;
    match map_get fromEntities fkText with
    | None => Ok st
    | Some fromEntityId =>
        if String.eqb fromEntityId "" then Ok st
        else
          let edgeId := "inter-" +++ fromEntityId +++ "-" +++ e_id toEntity in
          if existsb (String.eqb edgeId) (snd st) then Ok st
          else Ok (fst st ++ [ {| g_id := edgeId; g_source := fromEntityId;
                                  g_target := e_id toEntity; g_edgeType := "inter" |} ],
                   snd st ++ [edgeId])
    end.

Fixpoint link_entities (fromEntities : list (string * string)) (toFk : string)
    (st : list edge * list string) (toEntities : list entity)
  : outcome (list edge * list string) :=
  match toEntities with
  | [] => Ok st
  | toEntity :: rest =>
      st' <- link_entity fromEntities toFk st toEntity ;;
      link_entities fromEntities toFk st' rest
  end.

(** The body of [for (const relation of relations)]. *)
Definition link_relation (ents : list entity)
    (entityIndex : list (string * list (string * string)))
    (st : list edge * list string) (rel : relation) : outcome (list edge * list string) :=
  if String.eqb (r_toFk rel) "" then Ok st
  else
    let toEntities := filter (fun e => String.eqb (e_type e) (r_to rel)) ents in
    match map_get entityIndex (r_from rel), toEntities with
    | None, _ => Ok st
    | Some _, [] => Ok st
    | Some fromEntities, _ => link_entities fromEntities (r_toFk rel) st toEntities
    end.

Fixpoint link_relations (ents : list entity)
    (entityIndex : list (string * list (string * string)))
    (st : list edge * list string) (rels : list relation) : outcome (list edge * list string) :=
  match rels with
  | [] => Ok st
  | rel :: rest =>
      st' <- link_relation ents entityIndex st rel ;;
      link_relations ents entityIndex st' rest
  end.

(** [calculateInterEdges(entities, relations, entityConfigMap)]; the
    configuration map is read into a variable that is never used. *)
Definition calculateInterEdges (ents : list entity) (relations : list relation)
  : outcome (list edge) :=
  entityIndex <- build_index ents [] ;;
  st <- link_relations ents entityIndex ([], []) relations ;;
  Ok (fst st).

End WithHost.
End Engine.

(* ================================================================== *)
(** * Path extractor ([src/path/extractor.js]) *)
(* ================================================================== *)

Module Extractor.
Import Path Config.

(** One element of the result of [extractWithContext]; [parentEntity] is
    [None] and [parentPk] is [VNull] when no parent was found. *)
Record extracted : Type := {
  t_entity : string;
  t_data : value;
  t_pk : value;
  t_path : string;
  t_extractPath : list seg;
  t_parentEntity : option string;
  t_parentPk : value
}.

(** The value stored in [extractedByPath]: [{ entity, pk }]. *)
Record info : Type := { i_entity : string; i_pk : value }.

Definition seg_eqb (a b : seg) : bool :=
  match a, b with
  | SKey x, SKey y => String.eqb x y
  | SIdx x, SIdx y => Nat.eqb x y
  | _, _ => false
  end.

(** The [for] loop of [isExtractPathParent]. *)
Fixpoint agree (a b : list seg) : bool :=
  match a, b with
  | [], _ => true
  | x :: a', y :: b' => seg_eqb x y && agree a' b'
  | _ :: _, [] => false
  end.

(** [isExtractPathParent(extractPathA, extractPathB)] *)
Definition isExtractPathParent (extractPathA extractPathB : list seg) : bool :=
  if List.length extractPathB <=? List.length extractPathA then false
  else agree extractPathA extractPathB.

(** [!parentEntity] *)
Definition no_parent (parentEntity : option string) : bool :=
  match parentEntity with
  | None => true
  | Some s => String.eqb s ""
  end.

(** [extractedByPath.get(key)?.length]: [{ entity, pk }] has no [length]. *)
Definition info_length (e : option info) : option nat :=
  match e with
  | Some _ => None
  | None => None
  end.

Section WithHost.
Context `{Host}.

(** [extractObjects(data, path)] *)
Definition extractObjects (data : value) (path : string) : outcome (list pmatch) :=
  ast <- parsePath path ;;
  results <- evaluatePath data (PAst ast) ;;
  Ok (filter (fun r => truthy (m_value r) && typeof_object (m_value r)) results).

(** [getParentPathKey(entity, pk)] *)
Definition getParentPathKey (entity : string) (pk : value) : outcome string :=
  pkText <- to_string pk ;;
  Ok (entity +++ ":" +++ pkText).

(** The scan of [extractedByPath] for the closest extracted object. *)
Fixpoint scan_parent (whole rest : list (string * info)) (pathKey : string)
    (parent : option string * value) : outcome (option string * value) :=
  match rest with
  | [] => Ok parent
  | (existingPathKey, existingInfo) :: more =>
      parent' <-
        (if Str.startsWith pathKey existingPathKey
            && negb (String.eqb pathKey existingPathKey)
         then
           closer <-
             (if no_parent (fst parent) then Ok true
              else
                key <- getParentPathKey
                         (match fst parent with Some e => e | None => "" end) (snd parent) ;;
                Ok (Engine.gt_or_undefined (String.length existingPathKey)
                      (info_length (map_get whole key)))) ;;
           Ok (if closer then (Some (i_entity existingInfo), i_pk existingInfo) else parent)
         else Ok parent) ;;
      scan_parent whole more pathKey parent'
  end.

(** The fallback by path structure: the first extraction whose path is the
    parent path or a prefix of [path] and for which [results] holds an
    entity of that type above [extractPath]. *)
Fixpoint structural_parent (sortedExtractions : list extraction) (results : list extracted)
    (parentPath path : string) (extractPath : list seg) : option extracted :=
  match sortedExtractions with
  | [] => None
  | otherExtraction :: more =>
      if String.eqb (x_path otherExtraction) parentPath
         || isParentPath (x_path otherExtraction) path
      then
        match find (fun r => String.eqb (t_entity r) (x_entity otherExtraction)
                             && isExtractPathParent (t_extractPath r) extractPath) results with
        | Some parentResult => Some parentResult
        | None => structural_parent more results parentPath path extractPath
        end
      else structural_parent more results parentPath path extractPath
  end.

(** The body of [for (const { value, extractPath } of objects)]. *)
Definition extract_object (sortedExtractions : list extraction) (entity path pkField : string)
    (st : list (string * info) * list extracted) (obj : pmatch)
  : outcome (list (string * info) * list extracted) :=
  let value := m_value obj in
  let extractPath := m_path obj in
  pk <- evaluatePathSingle value (PStr pkField) ;;
  if nullish pk then Ok st
  else
    let pathKey := Engine.pathKey_of extractPath in
    scanned <- scan_parent (fst st) (fst st) pathKey (None, VNull) ;;
    let parent :=
      if no_parent (fst scanned) then
        match getParentPath path with
        | Some parentPath =>
            match structural_parent sortedExtractions (snd st) parentPath path extractPath with
            | Some parentResult => (Some (t_entity parentResult), t_pk parentResult)
            | None => scanned
            end
        | None => scanned
        end
      else scanned in
    Ok (map_set (fst st) pathKey {| i_entity := entity; i_pk := pk |},
        snd st ++ [ {| t_entity := entity; t_data := value; t_pk := pk; t_path := path;
                       t_extractPath := extractPath;
                       t_parentEntity := fst parent; t_parentPk := snd parent |} ]).

Fixpoint extract_objects (sortedExtractions : list extraction) (entity path pkField : string)
    (st : list (string * info) * list extracted) (objects : list pmatch)
  : outcome (list (string * info) * list extracted) :=
  match objects with
  | [] => Ok st
  | obj :: rest =>
      st' <- extract_object sortedExtractions entity path pkField st obj ;;
      extract_objects sortedExtractions entity path pkField st' rest
  end.

Fixpoint extract_each (sortedExtractions : list extraction)
    (data : value) (entityConfigs : list (string * entityConfig))
    (st : list (string * info) * list extracted) (todo : list extraction)
  : outcome (list (string * info) * list extracted) :=
  match todo with
  | [] => Ok st
  | extraction :: rest =>
      match lookup_config entityConfigs (x_entity extraction) with
      | None => extract_each sortedExtractions data entityConfigs st rest
      | Some entityConfig =>
          objects <- extractObjects data (x_path extraction) ;;
          st' <- extract_objects sortedExtractions (x_entity extraction) (x_path extraction)
                   (or_else (c_pk entityConfig) "id") st objects ;;
          extract_each sortedExtractions data entityConfigs st' rest
      end
  end.

(** [extractWithContext(data, extractions, entityConfigs)] *)
Definition extractWithContext (data : value) (extractions : list extraction)
    (entityConfigs : list (string * entityConfig)) : outcome (list extracted) :=
  match extractions with
  | [] => Ok []
  | _ =>
      sortedExtractions <- Engine.sort_by_depth extractions ;;
      st <- extract_each sortedExtractions data entityConfigs ([], []) sortedExtractions ;;
      Ok (snd st)
  end.

End WithHost.
End Extractor.

(* ================================================================== *)
(** * The parent that the specification asks for *)
(* ================================================================== *)

Module ParentSpec.
Import Path.

(** [a] is a strict prefix of [b], segment by segment. *)
Definition strict_prefix (a b : list seg) : bool :=
  (List.length a <? List.length b) && Extractor.agree a b.

(** Follows the words of the specification: among the entities extracted so
    far, given with their concrete paths, the one whose path is the longest
    strict prefix of the path of the child. *)
Definition longest_prefix_parent (extractedSoFar : list (list seg * string)) (child : list seg)
  : option string :=
  option_map snd
    (fold_left
       (fun best cand =>
          if strict_prefix (fst cand) child then
            match best with
            | Some b => if List.length (fst b) <? List.length (fst cand) then Some cand else best
            | None => Some cand
            end
          else best)
       extractedSoFar None).

End ParentSpec.

(* ================================================================== *)
(** * Identity merge (application entry point) *)
(* ================================================================== *)

Module Merge.
Import Path Config Keys.

(** The accumulator of a merge, [mergedData] and the objects below it: a
    leaf holds what the merge copied from a source (a primitive, [null] or
    an array, never a plain object), a node is an object that the merge
    created with [{}]. *)
Unset Elimination Schemes.
Inductive mval : Type :=
| MLeaf (v : value)
| MNode (props : list (string * mval)).
Set Elimination Schemes.

(** [{ callId, callName, sourceIndex }] *)
Record sourceInfo : Type := {
  s_callId : string;
  s_callName : string;
  s_sourceIndex : nat
}.

(** An element of [conflicts[path]]. *)
Record conflict : Type := {
  k_callId : string;
  k_callName : string;
  k_oldValue : mval;
  k_newValue : value;
  k_sourceIndex : nat
}.

(** An element of [propertySources[path]]. *)
Record contribution : Type := {
  p_callId : string;
  p_callName : string;
  p_value : value;
  p_sourceIndex : nat
}.

(** The two accumulators that [deepMergeWithTracking] mutates besides its
    target. *)
Record trackers : Type := {
  conflicts : list (string * list conflict);
  propertySources : list (string * list contribution)
}.

(** What [target[key]] reads on an object of the accumulator. *)
Inductive slot : Type :=
| Absent                  (* [undefined] *)
| Own (m : mval)
| Inherited (v : value).  (* a built-in function, or [Object.prototype] for [__proto__] *)

Definition read (target : list (string * mval)) (key : string) : slot :=
  match own_property target key with
  | Some m => Own m
  | None => if inherited_name key then Inherited (inherited key) else Absent
  end.

(** [if (!dict[fullPath]) dict[fullPath] = []; dict[fullPath].push(x)] on a
    plain object used as a dictionary.  Under a name inherited from
    [Object.prototype] the read is truthy and is not an array: calling its
    [push] raises. *)
Definition push {A} (dict : list (string * list A)) (fullPath : string) (x : A)
  : outcome (list (string * list A)) :=
  match own_property dict fullPath with
  | Some l => Ok (map_set dict fullPath (l ++ [x]))
  | None =>
      if inherited_name fullPath then Throw TypeError
      else Ok (map_set dict fullPath [x])
  end.

(** [target[key] !== undefined && target[key] !== value] *)
Definition differs (cur : slot) (value : value) : bool :=
  match cur with
  | Absent => false
  | Own (MLeaf v) => negb (strict_eq v VUndefined) && negb (strict_eq v value)
  | Own (MNode _) => true
  | Inherited v => negb (strict_eq v VUndefined) && negb (strict_eq v value)
  end.

Definition old_value (cur : slot) : mval :=
  match cur with
  | Absent => MLeaf VUndefined
  | Own m => m
  | Inherited v => MLeaf v
  end.

(** [path ? `${path}.${key}` : key] *)
Definition full_path (path key : string) : string :=
  if String.eqb path "" then key else path +++ "." +++ key.

(** The primitive-or-array branch for one [[key, value]] of the source. *)
Definition merge_leaf (info : sourceInfo) (value : value) (key path : string)
    (target : list (string * mval)) (tr : trackers)
  : outcome (list (string * mval) * trackers) :=
  let fullPath := full_path path key in
  let cur := read target key in
  conflicts1 <-
    (if differs cur value then
       push (conflicts tr) fullPath
         {| k_callId := s_callId info; k_callName := s_callName info;
            k_oldValue := old_value cur; k_newValue := value;
            k_sourceIndex := s_sourceIndex info |}
     else Ok (conflicts tr)) ;;
  propertySources1 <-
    push (propertySources tr) fullPath
      {| p_callId := s_callId info; p_callName := s_callName info;
         p_value := value; p_sourceIndex := s_sourceIndex info |} ;;
  let tr1 := {| conflicts := conflicts1; propertySources := propertySources1 |} in
  if String.eqb key "__proto__" then
    (* the assignment runs the [__proto__] setter, which ignores primitives *)
    match value with
    | VNull | VArr _ _ | VFun _ => Escape ReplacesPrototype
    | _ => Ok (target, tr1)
    end
  else Ok (map_set target key (MLeaf value), tr1).

(** The body of the loop of [deepMergeWithTracking] for one [[key, value]].
    In the nested branch [target[key]] is kept when it is an object that the
    merge created; read through [__proto__] it is [Object.prototype], and
    the recursion then runs on that shared object: with an empty source it
    does nothing, otherwise its first round assigns a property of
    [Object.prototype].  In every other case [target[key]] is replaced by a
    fresh [{}]. *)
Fixpoint merge_value (info : sourceInfo) (value : value) (key path : string)
    (target : list (string * mval)) (tr : trackers) {struct value}
  : outcome (list (string * mval) * trackers) :=
  match value with
  | VObj entries =>
      let fullPath := full_path path key in
      let into (child : list (string * mval)) :=
        res <- (fix each (es : list (string * Js.value)) (tgt : list (string * mval))
                    (tr : trackers) {struct es} : outcome (list (string * mval) * trackers) :=
                  match es with
                  | [] => Ok (tgt, tr)
                  | (k, v) :: rest =>
                      r <- merge_value info v k fullPath tgt tr ;;
                      each rest (fst r) (snd r)
                  end) entries child tr ;;
        Ok (map_set target key (MNode (fst res)), snd res) in
      match read target key with
      | Own (MNode child) => into child
      | Inherited VObjectPrototype =>
          match entries with
          | [] => Ok (target, tr)
          | (k, _) :: _ =>
              if String.eqb k "__proto__" then Escape EntersObjectPrototype
              else Escape (WritesObjectPrototype k)
          end
      | _ =>
          if String.eqb key "__proto__" then Escape ReplacesPrototype
          else into []
      end
  | VObjectPrototype =>
      (* an object without enumerable properties *)
      match read target key with
      | Own (MNode child) => Ok (target, tr)
      | Inherited VObjectPrototype => Ok (target, tr)
      | _ =>
          if String.eqb key "__proto__" then Escape ReplacesPrototype
          else Ok (map_set target key (MNode []), tr)
      end
  | _ => merge_leaf info value key path target tr
  end.

(** The loop [for (const [key, value] of Object.entries(source))]. *)
Fixpoint merge_entries (info : sourceInfo) (entries : list (string * value)) (path : string)
    (target : list (string * mval)) (tr : trackers)
  : outcome (list (string * mval) * trackers) :=
  match entries with
  | [] => Ok (target, tr)
  | (k, v) :: rest =>
      r <- merge_value info v k path target tr ;;
      merge_entries info rest path (fst r) (snd r)
  end.

(** [Object.entries(source)] *)
Definition entries_of (source : value) : outcome (list (string * value)) :=
  match source with
  | VObj entries => Ok entries
  | VArr _ items => Ok (map (fun '(i, item) => (string_of_nat i, item)) (indexed items))
  | VStr s =>
      Ok (map (fun '(i, c) => (string_of_nat i, VStr (String c "")))
            (combine (seq 0 (String.length s)) (list_ascii_of_string s)))
  | VUndefined | VNull => Throw TypeError
  | VBool _ | VNum _ | VFun _ | VObjectPrototype => Ok []
  end.

(** [deepMergeWithTracking(target, source, sourceInfo, conflicts,
    propertySources, path)] *)
Definition deepMergeWithTracking (target : list (string * mval)) (source : value)
    (info : sourceInfo) (tr : trackers) (path : string)
  : outcome (list (string * mval) * trackers) :=
  entries <- entries_of source ;;
  merge_entries info entries path target tr.

(** An element of a group of [entityGroups]. *)
Record groupItem : Type := {
  gi_nodeId : string;
  gi_data : value;
  gi_entityConfig : entityConfig;
  gi_entityType : string
}.

(** An element of [sources]. *)
Record source : Type := {
  src_callId : string;
  src_callName : string;
  src_nodeId : string;
  src_data : value
}.

(** A value of [mappings]: the mapping of a node that was not merged, or of
    the canonical node of a group. *)
Inductive mapping : Type :=
| Standalone (entityType entityLabel color : string) (data : value)
| Merged (entityType entityLabel color : string) (data : list (string * mval))
    (sources : list source)
    (propertySources : list (string * list contribution))
    (conflicts : list (string * list conflict))
    (sourceCount : nat) (hasConflicts : bool).

(** The state of the first pass of [computeNodeMappings]. *)
Record collected : Type := {
  mappings : list (string * mapping);
  entityGroups : list (string * list groupItem)
}.

Section WithHost.
Context `{Host}.

(** [getNestedValue(data, displayField) || data.id || entityType] *)
Definition display_value (data : value) (displayField entityType : string) : outcome value :=
  a <- getNestedValue data displayField ;;
  if truthy a then Ok a
  else
    b <- js_get data "id" ;;
    if truthy b then Ok b else Ok (VStr entityType).

(** [`${call.id}:${['$', ...pathParts].join('.')}`] *)
Definition nodeId_of (callId : string) (pathParts : list seg) : string :=
  callId +++ ":" +++ Str.join "." ("$" :: map Engine.seg_string pathParts).

(** The body of [for (const result of results)] in the first pass. *)
Definition collect_result (c : call) (x : extraction) (entityConfig : entityConfig)
    (st : collected) (result : pmatch) : outcome collected :=
  let value := m_value result in
  if negb (truthy value) || negb (typeof_object value) then Ok st
  else
    let nodeId := nodeId_of (call_id c) (m_path result) in
    let color := or_else (c_color entityConfig) "#4F46E5" in
    match value with
    | VArr _ items =>
        let label := or_else (c_label entityConfig) (x_entity x) in
        Ok {| mappings :=
                map_set (mappings st) nodeId
                  (Standalone (x_entity x)
                     (label +++ " (" +++ string_of_nat (List.length items) +++ ")")
                     color value);
              entityGroups := entityGroups st |}
    | _ =>
        let pkField := or_else (c_pk entityConfig) "id" in
        pkValue <- resolvePkValue value pkField ;;
        if negb (nullish pkValue) then
          pkText <- to_string pkValue ;;
          let groupKey := x_entity x +++ ":" +++ pkText in
          let group := match map_get (entityGroups st) groupKey with
                       | Some g => g
                       | None => []
                       end in
          Ok {| mappings := mappings st;
                entityGroups :=
                  map_set (entityGroups st) groupKey
                    (group ++ [ {| gi_nodeId := nodeId; gi_data := value;
                                   gi_entityConfig := entityConfig;
                                   gi_entityType := x_entity x |} ]) |}
        else
          let displayField := or_else (c_displayField entityConfig) "id" in
          displayValue <- display_value value displayField (x_entity x) ;;
          label <- to_string displayValue ;;
          Ok {| mappings := map_set (mappings st) nodeId
                              (Standalone (x_entity x) label color value);
                entityGroups := entityGroups st |}
    end.

Fixpoint collect_results (c : call) (x : extraction) (entityConfig : entityConfig)
    (st : collected) (results : list pmatch) : outcome collected :=
  match results with
  | [] => Ok st
  | result :: rest =>
      st' <- collect_result c x entityConfig st result ;;
      collect_results c x entityConfig st' rest
  end.

(** The body of [for (const extraction of call.extractions)]. *)
Definition collect_extraction (entityMap : list (string * entityConfig)) (c : call)
    (st : collected) (x : extraction) : outcome collected :=
  if String.eqb (x_entity x) "" || String.eqb (x_path x) "" then Ok st
  else
    match lookup_config entityMap (x_entity x) with
    | None => Ok st
    | Some entityConfig =>
        results <- evaluatePath (call_parsedJson c) (PStr (x_path x)) ;;
        collect_results c x entityConfig st results
    end.

Fixpoint collect_extractions (entityMap : list (string * entityConfig)) (c : call)
    (st : collected) (xs : list extraction) : outcome collected :=
  match xs with
  | [] => Ok st
  | x :: rest =>
      st' <- collect_extraction entityMap c st x ;;
      collect_extractions entityMap c st' rest
  end.

(** The first pass: [for (const call of calls)]. *)
Fixpoint collect_calls (entityMap : list (string * entityConfig)) (st : collected)
    (calls : list call) : outcome collected :=
  match calls with
  | [] => Ok st
  | c :: rest =>
      match call_extractions c with
      | Some xs =>
          if truthy (call_parsedJson c) then
            st' <- collect_extractions entityMap c st xs ;;
            collect_calls entityMap st' rest
          else collect_calls entityMap st rest
      | None => collect_calls entityMap st rest
      end
  end.

(** What one group has produced so far in the second pass. *)
Record merging : Type := {
  mergedData : list (string * mval);
  tracked : trackers;
  sources : list source;
  mergedNodes : list (string * string)
}.

(** [item.nodeId.split(':')[0]] *)
Definition callId_of (nodeId : string) : string :=
  match Str.split ":" nodeId with
  | p :: _ => p
  | [] => ""
  end.

(** [call?.name || callId] for [calls.find(c => c.id === callId)] *)
Definition callName_of (calls : list call) (callId : string) : string :=
  match find (fun c => String.eqb (call_id c) callId) calls with
  | Some c => or_else (call_name c) callId
  | None => callId
  end.

(** The body of [for (let i = 0; i < group.length; i++)]. *)
Definition merge_item (calls : list call) (canonical : groupItem)
    (st : merging) (i : nat) (item : groupItem) : outcome merging :=
  let callId := callId_of (gi_nodeId item) in
  let callName := callName_of calls callId in
  let sources1 := sources st ++
                    [ {| src_callId := callId; src_callName := callName;
                         src_nodeId := gi_nodeId item; src_data := gi_data item |} ] in
  let info := {| s_callId := callId; s_callName := callName; s_sourceIndex := i |} in
  res <- deepMergeWithTracking (mergedData st) (gi_data item) info (tracked st) "" ;;
  Ok {| mergedData := fst res;
        tracked := snd res;
        sources := sources1;
        mergedNodes :=
          if 0 <? i then map_set (mergedNodes st) (gi_nodeId item) (gi_nodeId canonical)
          else mergedNodes st |}.

Fixpoint merge_items (calls : list call) (canonical : groupItem)
    (st : merging) (i : nat) (items : list groupItem) : outcome merging :=
  match items with
  | [] => Ok st
  | item :: rest =>
      st' <- merge_item calls canonical st i item ;;
      merge_items calls canonical st' (S i) rest
  end.

(** The body of [for (const [groupKey, group] of entityGroups)]. *)
Definition merge_group (calls : list call)
    (st : list (string * mapping) * list (string * string)) (group : list groupItem)
  : outcome (list (string * mapping) * list (string * string)) :=
  match group with
  | [] => Ok st
  | canonical :: _ =>
      let entityConfig := gi_entityConfig canonical in
      let displayField := or_else (c_displayField entityConfig) "id" in
      displayValue <- display_value (gi_data canonical) displayField (gi_entityType canonical) ;;
      m <- merge_items calls canonical
             {| mergedData := [];
                tracked := {| conflicts := []; propertySources := [] |};
                sources := [];
                mergedNodes := snd st |}
             0 group ;;
      let conflictCount := List.length (conflicts (tracked m)) in
      label <- to_string displayValue ;;
      Ok (map_set (fst st) (gi_nodeId canonical)
            (Merged (gi_entityType canonical) label
               (or_else (c_color entityConfig) "#4F46E5")
               (mergedData m) (sources m)
               (propertySources (tracked m)) (conflicts (tracked m))
               (List.length group) (0 <? conflictCount)),
          mergedNodes m)
  end.

Fixpoint merge_groups (calls : list call)
    (st : list (string * mapping) * list (string * string))
    (groups : list (string * list groupItem))
  : outcome (list (string * mapping) * list (string * string)) :=
  match groups with
  | [] => Ok st
  | (_, group) :: rest =>
      st' <- merge_group calls st group ;;
      merge_groups calls st' rest
  end.

(** [entityMap[e.id] = e] for every configuration of the mapping store.  An
    entity named [__proto__] would replace the prototype of the map. *)
Fixpoint build_entityMap (configs : list entityConfig) (entityMap : list (string * entityConfig))
  : outcome (list (string * entityConfig)) :=
  match configs with
  | [] => Ok entityMap
  | e :: rest =>
      if String.eqb (c_id e) "__proto__" then Escape ReplacesPrototype
      else build_entityMap rest (map_set entityMap (c_id e) e)
  end.

(** [computeNodeMappings(calls, nodes)]; [configs] is what
    [mappingStore.getAllEntities()] returns, [nodes] is not used. *)
Definition computeNodeMappings (configs : list entityConfig) (calls : list call)
  : outcome (list (string * mapping) * list (string * string)) :=
  entityMap <- build_entityMap configs [] ;;
  st <- collect_calls entityMap {| mappings := []; entityGroups := [] |} calls ;;
  merge_groups calls (mappings st, []) (entityGroups st).

End WithHost.
End Merge.

(* ================================================================== *)
(** * Node paths of the sidebar ([src/ui/sidebar.js]) *)
(* ================================================================== *)

Module Sidebar.

(** [/^\d/.test(s)] *)
Definition starts_with_digit (s : string) : bool :=
  match s with
  | String c _ => Str.is_digit c
  | EmptyString => false
  end.

(** [path.replace(/\.(\d+)/g, '[$1]')], read from left to right: a dot that
    is followed by a digit opens a bracket in place of the dot, the digits
    that follow are copied ([inIndex]), and the bracket is closed in front of
    the first character that is not a digit, where the search for the next
    match starts again. *)
Fixpoint replace_dot_digits (inIndex : bool) (s : string) : string :=
  match s with
  | EmptyString => if inIndex then "]" else ""
  | String c rest =>
      if inIndex && Str.is_digit c then String c (replace_dot_digits true rest)
      else
        (if inIndex then "]" else "") +++
        (if Ascii.eqb c "." && starts_with_digit rest
         then String "[" (replace_dot_digits true rest)
         else String c (replace_dot_digits false rest))
  end.

(** [toJsonPath(path)] for a string argument; the empty string, which is
    falsy, is returned as it is. *)
Definition toJsonPath (path : string) : string := replace_dot_digits false path.

End Sidebar.

(* ================================================================== *)
(** * Extraction without context ([src/path/extractor.js]) *)
(* ================================================================== *)

Module Simple.
Import Path Config Extractor.

(** One element of the result of [extractSimple]: [{ entity, data, pk }]. *)
Record simple : Type := {
  q_entity : string;
  q_data : value;
  q_pk : value
}.

(** A value of the object that [previewExtraction] returns: a number, or
    the string that [+] makes when the previous value was not a number. *)
Inductive count : Type :=
| CNum (n : nat)
| CStr (s : string).

Section WithHost.
Context `{Host}.

(** The loop [for (const { value } of objects)] of [extractSimple]. *)
Fixpoint simple_objects (entity pkField : string) (results : list simple)
    (objects : list pmatch) : outcome (list simple) :=
  match objects with
  | [] => Ok results
  | obj :: rest =>
      pk <- evaluatePathSingle (m_value obj) (PStr pkField) ;;
      simple_objects entity pkField
        (if nullish pk then results
         else results ++ [ {| q_entity := entity; q_data := m_value obj; q_pk := pk |} ])
        rest
  end.

(** The loop [for (const { entity, path } of extractions)] of
    [extractSimple]. *)
Fixpoint simple_each (data : value) (entityConfigs : list (string * entityConfig))
    (results : list simple) (todo : list extraction) : outcome (list simple) :=
  match todo with
  | [] => Ok results
  | extraction :: rest =>
      match lookup_config entityConfigs (x_entity extraction) with
      | None => simple_each data entityConfigs results rest
      | Some entityConfig =>
          objects <- extractObjects data (x_path extraction) ;;
          results' <- simple_objects (x_entity extraction)
                        (or_else (c_pk entityConfig) "id") results objects ;;
          simple_each data entityConfigs results' rest
      end
  end.

(** [extractSimple(data, extractions, entityConfigs)] *)
Definition extractSimple (data : value) (extractions : list extraction)
    (entityConfigs : list (string * entityConfig)) : outcome (list simple) :=
  simple_each data entityConfigs [] extractions.

(** The loop that counts the objects with a primary key. *)
Fixpoint count_valid (pkField : string) (validCount : nat) (objects : list pmatch)
  : outcome nat :=
  match objects with
  | [] => Ok validCount
  | obj :: rest =>
      pk <- evaluatePathSingle (m_value obj) (PStr pkField) ;;
      count_valid pkField (if nullish pk then validCount else S validCount) rest
  end.

(** [counts[entity] = (counts[entity] || 0) + validCount] on the plain
    object [counts].  Under a name that the object inherits the read is a
    built-in function or [Object.prototype], which [+] turns into text; the
    assignment to [__proto__] runs the setter, which ignores a string. *)
Definition add_count (counts : list (string * count)) (entity : string) (validCount : nat)
  : list (string * count) :=
  let sum :=
    match own_property counts entity with
    | Some (CNum n) => CNum (n + validCount)
    | Some (CStr s) =>
        if String.eqb s "" then CNum validCount else CStr (s +++ string_of_nat validCount)
    | None =>
        if String.eqb entity "__proto__" then
          CStr ("[object Object]" +++ string_of_nat validCount)
        else if is_member entity then
          CStr (host_function_text entity +++ string_of_nat validCount)
        else CNum validCount
    end in
  if String.eqb entity "__proto__" then counts else map_set counts entity sum.

(** The loop [for (const { entity, path } of extractions)] of
    [previewExtraction]. *)
Fixpoint preview_each (data : value) (entityConfigs : list (string * entityConfig))
    (counts : list (string * count)) (todo : list extraction)
  : outcome (list (string * count)) :=
  match todo with
  | [] => Ok counts
  | extraction :: rest =>
      match lookup_config entityConfigs (x_entity extraction) with
      | None => preview_each data entityConfigs counts rest
      | Some entityConfig =>
          objects <- extractObjects data (x_path extraction) ;;
          validCount <- count_valid (or_else (c_pk entityConfig) "id") 0 objects ;;
          preview_each data entityConfigs
            (add_count counts (x_entity extraction) validCount) rest
      end
  end.

(** [previewExtraction(data, extractions, entityConfigs)] *)
Definition previewExtraction (data : value) (extractions : list extraction)
    (entityConfigs : list (string * entityConfig)) : outcome (list (string * count)) :=
  preview_each data entityConfigs [] extractions.

End WithHost.
End Simple.

(* ================================================================== *)
(** * Text for the page (application entry point) *)
(* ================================================================== *)

Module Html.

(** [s.replace(/c/g, by)] for a pattern that is one literal character. *)
Fixpoint replace_all (c : ascii) (by_ : string) (s : string) : string :=
  match s with
  | EmptyString => EmptyString
  | String d r =>
      if Ascii.eqb d c then by_ +++ replace_all c by_ r
      else String d (replace_all c by_ r)
  end.

(** The double quote. *)
Definition quote : ascii := ascii_of_nat 34.

(** [escapeHtml(str)] for a string argument: the empty string is falsy and
    gives the empty string, every other string goes through the four
    replacements in their order. *)
Definition escapeHtml (str : string) : string :=
  if String.eqb str "" then ""
  else
    replace_all quote "&quot;"
      (replace_all ">" "&gt;"
         (replace_all "<" "&lt;"
            (replace_all "&" "&amp;" str))).

End Html.

(* ================================================================== *)
(** * Node ids of the graph store ([src/graph/store.js]) *)
(* ================================================================== *)

Module NodeId.

(** [createNodeId(type, pkValue)] with [pkValue] given by its text,
    [`${type}-${pkValue}`]. *)
Definition createNodeId (type pkValue : string) : string := type +++ "-" +++ pkValue.

(** [{ type, pkValue }] *)
Record parsed : Type := { n_type : string; n_pkValue : string }.

(** [parseNodeId(nodeId)] *)
Definition parseNodeId (nodeId : string) : parsed :=
  match Str.indexOf "-" nodeId with
  | None => {| n_type := nodeId; n_pkValue := "" |}
  | Some dashIndex =>
      {| n_type := Str.slice 0 dashIndex nodeId;
         n_pkValue := Str.drop (dashIndex + 1) nodeId |}
  end.

End NodeId.

(* ================================================================== *)
(** * Raw graph of a document ([src/graph/raw.js]) *)
(* ================================================================== *)

Module RawGraph.
Import Path Config.

(** A node of the raw graph.  [itemCount] is set on array nodes and
    [childCount] on object nodes; [primitives] is a dictionary, listed in
    the order in which its keys were first set. *)
Record node : Type := {
  v_id : string;
  v_type : string;
  v_label : string;
  v_preview : string;
  v_path : string;
  v_data : value;
  v_primitives : list (string * value);
  v_itemCount : option nat;
  v_childCount : option nat;
  v_callId : string
}.

(** What [traverse] mutates: the two result lists and the two counters of
    the closure. *)
Record graph : Type := {
  nodes : list node;
  edges : list Engine.edge;
  nodeCount : nat;
  truncated : bool
}.


(** [value !== null && typeof value === 'object'] *)
Definition is_object (v : value) : bool := negb (nullish v) && typeof_object v.

(** [containsArray(value)] *)
Fixpoint containsArray (value : value) : bool :=
  match value with
  | VArr _ _ => true
  | VObj entries =>
      (fix any (es : list (string * Js.value)) : bool :=
         match es with
         | [] => false
         | (_, v) :: rest => if containsArray v then true else any rest
         end) entries
  | _ => false
  end.

(** [primitives[fullKey] = value] on the plain object [primitives], for a
    value that is a primitive or [null].  Under the key [__proto__] the
    assignment runs the setter: it ignores a primitive and takes [null] as
    the new prototype. *)
Definition assign (primitives : list (string * value)) (fullKey : string) (value : value)
  : outcome (list (string * Js.value)) :=
  if String.eqb fullKey "__proto__" then
    match value with
    | VNull | VArr _ _ | VObj _ | VFun _ | VObjectPrototype => Escape ReplacesPrototype
    | _ => Ok primitives
    end
  else Ok (map_set primitives fullKey value).

(** [Object.assign(primitives, sub)] *)
Fixpoint assign_all (primitives sub : list (string * value))
  : outcome (list (string * value)) :=
  match sub with
  | [] => Ok primitives
  | (k, v) :: rest =>
      p <- assign primitives k v ;;
      assign_all p rest
  end.

(** [prefix ? `${prefix}__${key}` : key] *)
Definition full_key (prefix key : string) : string :=
  if String.eqb prefix "" then key else prefix +++ "__" +++ key.

(** [collectPrimitivesDeep(obj, prefix)] for a plain object [obj]; every
    call of the code passes one. *)
Fixpoint collectPrimitivesDeep (obj : value) (prefix : string)
  : outcome (list (string * value)) :=
  match obj with
  | VObj entries =>
      (fix each (es : list (string * Js.value)) (primitives : list (string * Js.value))
         : outcome (list (string * Js.value)) :=
         match es with
         | [] => Ok primitives
         | (key, value) :: rest =>
             let fullKey := full_key prefix key in
             p <- (if negb (is_object value) then assign primitives fullKey value
                   else if isArray value then Ok primitives
                   else if negb (containsArray value) then
                     sub <- collectPrimitivesDeep value fullKey ;;
                     assign_all primitives sub
                   else Ok primitives) ;;
             each rest p
         end) entries []
  | VUndefined | VNull => Throw TypeError
  | _ => Ok []
  end.

(** The test that makes an entry of an object one of its [nodeChildren]:
    an array, or an object that contains an array. *)
Definition is_node_child (value : value) : bool :=
  is_object value && (isArray value || containsArray value).

(** [getNodeChildren(obj)] for a plain object: the entries that become
    nodes. *)
Definition getNodeChildren (obj : value) : list (string * value) :=
  match obj with
  | VObj entries => filter (fun kv => is_node_child (snd kv)) entries
  | _ => []
  end.

Section WithHost.
Context `{Host}.

(** The text of a primitive in a template literal; it does not raise. *)
Definition text_of (v : value) : string :=
  match to_string v with
  | Ok s => s
  | _ => ""
  end.

(** [getPreview(value)] *)
Definition getPreview (value : value) : string :=
  match value with
  | VNull => "null"
  | VUndefined => "undefined"
  | VArr _ items => "[" +++ string_of_nat (List.length items) +++ " items]"
  | VObj props => "{" +++ string_of_nat (List.length props) +++ " keys}"
  | VObjectPrototype => "{0 keys}"
  | VStr s =>
      if 30 <? String.length s
      then String Html.quote (Str.slice 0 27 s +++ "..." +++ String Html.quote "")
      else String Html.quote (s +++ String Html.quote "")
  | _ => text_of value
  end.

(** [getLabel(key, value, isRoot)] *)
Definition getLabel (key : option seg) (isRoot : bool) : string :=
  if isRoot then "$"
  else match key with
       | Some k => Engine.seg_string k
       | None => ""
       end.

(** [nodes.push(node); nodeCount++] and, [if (parentId)], the edge from the
    parent. *)
Definition add_node (n : node) (parentId : option string) (g : graph) : graph :=
  {| nodes := nodes g ++ [n];
     edges :=
       match parentId with
       | Some p =>
           if String.eqb p "" then edges g
           else edges g ++ [ {| Engine.g_id := p +++ "->" +++ v_id n;
                                Engine.g_source := p; Engine.g_target := v_id n;
                                Engine.g_edgeType := "raw" |} ]
       | None => edges g
       end;
     nodeCount := S (nodeCount g);
     truncated := truncated g |}.

Definition truncate (g : graph) : graph :=
  {| nodes := nodes g; edges := edges g; nodeCount := nodeCount g; truncated := true |}.

(** [traverse(value, path, key, parentId, depth)] of [jsonToGraph].  [path]
    holds the segments behind the [$] that the code puts in front; it is
    empty for the root only.  The object branch visits the entries that
    [getNodeChildren] keeps, in their order. *)
Fixpoint traverse (maxDepth maxNodes : nat) (callId : string)
    (value : value) (path : list seg) (key : option seg) (parentId : option string)
    (depth : nat) (g : graph) {struct value} : outcome graph :=
  if maxNodes <=? nodeCount g then Ok (truncate g)
  else if maxDepth <? depth then Ok (truncate g)
  else
    let isRoot := match path with [] => true | _ => false end in
    let currentPath := Str.join "." ("$" :: map Engine.seg_string path) in
    let id := callId +++ ":" +++ currentPath in
    match value with
    | VArr _ items =>
        let n := {| v_id := id; v_type := "array"; v_label := getLabel key isRoot;
                    v_preview := "[" +++ string_of_nat (List.length items) +++ "]";
                    v_path := currentPath; v_data := value; v_primitives := [];
                    v_itemCount := Some (List.length items); v_childCount := None;
                    v_callId := callId |} in
        (fix each (l : list Js.value) (index : nat) (g : graph) {struct l} : outcome graph :=
           match l with
           | [] => Ok g
           | item :: rest =>
               g' <- (if is_object item
                      then traverse maxDepth maxNodes callId item (path ++ [SIdx index])
                             (Some (SIdx index)) (Some id) (S depth) g
                      else Ok g) ;;
               each rest (S index) g'
           end) items 0 (add_node n parentId g)
    | VObj entries =>
        primitives <- collectPrimitivesDeep value "" ;;
        let n := {| v_id := id; v_type := "object"; v_label := getLabel key isRoot;
                    v_preview := getPreview value;
                    v_path := currentPath; v_data := value; v_primitives := primitives;
                    v_itemCount := None;
                    v_childCount := Some (List.length (getNodeChildren value));
                    v_callId := callId |} in
        (fix each (es : list (string * Js.value)) (g : graph) {struct es} : outcome graph :=
           match es with
           | [] => Ok g
           | (k, child) :: rest =>
               g' <- (if is_node_child child
                      then traverse maxDepth maxNodes callId child (path ++ [SKey k])
                             (Some (SKey k)) (Some id) (S depth) g
                      else Ok g) ;;
               each rest g'
           end) entries (add_node n parentId g)
    | VObjectPrototype =>
        (* an object without entries *)
        let n := {| v_id := id; v_type := "object"; v_label := getLabel key isRoot;
                    v_preview := getPreview value;
                    v_path := currentPath; v_data := value; v_primitives := [];
                    v_itemCount := None; v_childCount := Some 0;
                    v_callId := callId |} in
        Ok (add_node n parentId g)
    | _ =>
        if isRoot then
          let n := {| v_id := id; v_type := "primitive"; v_label := "root";
                      v_preview := getPreview value;
                      v_path := currentPath; v_data := value; v_primitives := [];
                      v_itemCount := None; v_childCount := None;
                      v_callId := callId |} in
          Ok (add_node n None g)
        else Ok g
    end.


End WithHost.
End RawGraph.

(* ================================================================== *)
(** * Calls store ([src/calls/store.js]) *)
(* ================================================================== *)

Module CallsStore.
Import Config.

(** A value of the map [calls]:
    [{ name, json, extractions, parsedJson, parseError }].  A missing name
    or text is the empty string, [extractions] may be [undefined], and
    [parseError] is [null] or the message of the error. *)
Record stored : Type := {
  k_name : string;
  k_json : string;
  k_extractions : option (list extraction);
  k_parsedJson : value;
  k_parseError : option string
}.

(** What [activeCallId] can hold: [null], [undefined] (after an import
    without the field) or an id. *)
Inductive active : Type :=
| ANull
| AUndefined
| AId (id : string).

(** [!activeCallId] *)
Definition falsy (a : active) : bool :=
  match a with
  | AId id => String.eqb id ""
  | _ => true
  end.

(** An element of [calls] in exported, imported or persisted data:
    [{ id, name, json, extractions }]. *)
Record entry : Type := {
  d_id : string;
  d_name : string;
  d_json : string;
  d_extractions : option (list extraction)
}.

(** [{ calls, activeCallId }]; [calls] may be missing in imported data. *)
Record data : Type := {
  d_calls : option (list entry);
  d_activeCallId : active
}.

(** What [persist] writes: the data with [wasLarge] per call and with the
    counter. *)
Record persisted : Type := {
  p_calls : list (entry * bool);
  p_activeCallId : active;
  p_callCounter : nat
}.

(** The item of [localStorage] as [load] finds it.  [load] catches what
    is raised while it reads the item, after it has emptied [calls]. *)
Inductive item : Type :=
| NoItem                       (* [getItem] gives [null] or the empty string *)
| Unreadable                   (* a text on which [JSON.parse] raises *)
| Data (p : persisted)         (* data that the loop of [load] reads to its end *)
| Broken (read : list entry).  (* data on which [load] raises behind the entries
                                  [read]: [null], calls that cannot be iterated,
                                  an element that is [null], or one whose text
                                  has no [trim] *)

(** The variables of the closure, the events that the listeners have been
    called with, and the item of [localStorage]. *)
Record state : Type := {
  calls : list (string * stored);
  activeCallId : active;
  callCounter : nat;
  batchMode : bool;
  batchDirty : bool;
  batchEventType : string;
  events : list string;
  storage : item
}.

Definition MAX_PERSIST_JSON_SIZE : nat := 100 * 1000.

Definition initial : state :=
  {| calls := []; activeCallId := ANull; callCounter := 0;
     batchMode := false; batchDirty := false; batchEventType := "change";
     events := []; storage := NoItem |}.

Section WithParser.

(** [JSON.parse]: the parsed value, or the message of the [SyntaxError]. *)
Variable JSON_parse : string -> value + string.

(** [tryParseJson(jsonString)] as the pair of [parsedJson] and
    [parseError] that every caller stores. *)
Definition tryParseJson (jsonString : string) : value * option string :=
  if String.eqb jsonString "" || String.eqb (Str.trim jsonString) "" then (VNull, None)
  else
    match JSON_parse jsonString with
    | inl parsed => (parsed, None)
    | inr message => (VNull, Some message)
    end.

Definition make (name json : string) (extractions : option (list extraction)) : stored :=
  {| k_name := name; k_json := json; k_extractions := extractions;
     k_parsedJson := fst (tryParseJson json);
     k_parseError := snd (tryParseJson json) |}.

(** [notifyListeners(eventType)] *)
Definition notifyListeners (eventType : string) (st : state) : state :=
  if batchMode st then
    {| calls := calls st; activeCallId := activeCallId st; callCounter := callCounter st;
       batchMode := batchMode st; batchDirty := true; batchEventType := eventType;
       events := events st; storage := storage st |}
  else
    {| calls := calls st; activeCallId := activeCallId st; callCounter := callCounter st;
       batchMode := batchMode st; batchDirty := batchDirty st;
       batchEventType := batchEventType st;
       events := events st ++ [eventType]; storage := storage st |}.

(** [persist()], for a [localStorage] that takes the item. *)
Definition persist (st : state) : state :=
  {| calls := calls st; activeCallId := activeCallId st; callCounter := callCounter st;
     batchMode := batchMode st; batchDirty := batchDirty st;
     batchEventType := batchEventType st; events := events st;
     storage :=
       Data {| p_calls :=
                 map (fun '(id, c) =>
                        let large := negb (String.eqb (k_json c) "")
                                     && (MAX_PERSIST_JSON_SIZE <? String.length (k_json c)) in
                        ({| d_id := id; d_name := k_name c;
                            d_json := if large then "" else k_json c;
                            d_extractions := k_extractions c |}, large))
                   (calls st);
               p_activeCallId := activeCallId st;
               p_callCounter := callCounter st |} |}.

Definition with_calls (st : state) (calls' : list (string * stored)) (active' : active)
    (counter' : nat) : state :=
  {| calls := calls'; activeCallId := active'; callCounter := counter';
     batchMode := batchMode st; batchDirty := batchDirty st;
     batchEventType := batchEventType st; events := events st; storage := storage st |}.

(** [calls.size > 0 ? calls.keys().next().value : null] *)
Definition first_key (calls : list (string * stored)) : active :=
  match calls with
  | (id, _) :: _ => AId id
  | [] => ANull
  end.

(** [if (activeCallId && !calls.has(activeCallId)) activeCallId = ...] *)
Definition validate (calls : list (string * stored)) (a : active) : active :=
  match a with
  | AId id =>
      if String.eqb id "" then a
      else match map_get calls id with
           | Some _ => a
           | None => first_key calls
           end
  | _ => a
  end.

(** [createCall(name, json)]; [callId] is what [generateCallId] returns,
    an empty [name] stands for a missing one. *)
Definition createCall (callId name json : string) (st : state) : state :=
  let counter := if String.eqb name "" then S (callCounter st) else callCounter st in
  let callName := if String.eqb name "" then "Call " +++ string_of_nat counter else name in
  let calls' := map_set (calls st) callId (make callName json (Some [])) in
  let active' :=
    if (List.length calls' =? 1)
       || match activeCallId st with ANull => true | _ => false end
    then AId callId else activeCallId st in
  notifyListeners "callCreated" (persist (with_calls st calls' active' counter)).

(** [updateJson(callId, json)] *)
Definition updateJson (callId json : string) (st : state) : state :=
  match map_get (calls st) callId with
  | None => st
  | Some c =>
      notifyListeners "jsonUpdated"
        (persist (with_calls st
                    (map_set (calls st) callId (make (k_name c) json (k_extractions c)))
                    (activeCallId st) (callCounter st)))
  end.

(** [updateName(callId, name)] *)
Definition updateName (callId name : string) (st : state) : state :=
  match map_get (calls st) callId with
  | None => st
  | Some c =>
      notifyListeners "nameUpdated"
        (persist (with_calls st
                    (map_set (calls st) callId
                       {| k_name := name; k_json := k_json c;
                          k_extractions := k_extractions c;
                          k_parsedJson := k_parsedJson c; k_parseError := k_parseError c |})
                    (activeCallId st) (callCounter st)))
  end.

(** [updateExtractions(callId, extractions)] *)
Definition updateExtractions (callId : string) (extractions : option (list extraction))
    (st : state) : state :=
  match map_get (calls st) callId with
  | None => st
  | Some c =>
      notifyListeners "extractionsUpdated"
        (persist (with_calls st
                    (map_set (calls st) callId
                       {| k_name := k_name c; k_json := k_json c;
                          k_extractions := extractions;
                          k_parsedJson := k_parsedJson c; k_parseError := k_parseError c |})
                    (activeCallId st) (callCounter st)))
  end.

(** [calls.delete(callId)] *)
Definition map_delete {A} (m : list (string * A)) (key : string) : list (string * A) :=
  filter (fun kv => negb (String.eqb (fst kv) key)) m.

(** [deleteCall(callId)] *)
Definition deleteCall (callId : string) (st : state) : state :=
  match map_get (calls st) callId with
  | None => st
  | Some _ =>
      let calls' := map_delete (calls st) callId in
      let active' :=
        match activeCallId st with
        | AId id => if String.eqb id callId then first_key calls' else activeCallId st
        | a => a
        end in
      notifyListeners "callDeleted" (persist (with_calls st calls' active' (callCounter st)))
  end.

(** [setActiveCall(callId)] *)
Definition setActiveCall (callId : string) (st : state) : state :=
  match map_get (calls st) callId with
  | None => st
  | Some _ =>
      notifyListeners "activeChanged"
        (persist (with_calls st (calls st) (AId callId) (callCounter st)))
  end.

(** [clearAll()] *)
Definition clearAll (st : state) : state :=
  notifyListeners "cleared" (persist (with_calls st [] ANull 0)).

(** The loop over the calls of imported or loaded data. *)
Fixpoint set_entries (default : option (list extraction)) (calls : list (string * stored))
    (entries : list entry) : list (string * stored) :=
  match entries with
  | [] => calls
  | e :: rest =>
      set_entries default
        (map_set calls (d_id e)
           (make (d_name e) (d_json e)
              (match d_extractions e with
               | Some l => Some l
               | None => default
               end)))
        rest
  end.

(** [importData(data)] *)
Definition importData (d : data) (st : state) : state :=
  let entries := match d_calls d with Some l => l | None => [] end in
  let calls' := set_entries (Some []) [] entries in
  notifyListeners "imported"
    (persist (with_calls st calls' (validate calls' (d_activeCallId d))
                (List.length entries))).

(** [exportData()] *)
Definition exportData (st : state) : data :=
  {| d_calls :=
       Some (map (fun '(id, c) =>
                    {| d_id := id; d_name := k_name c; d_json := k_json c;
                       d_extractions := k_extractions c |})
               (calls st));
     d_activeCallId := activeCallId st |}.

(** [load()]: the new state and the flag that it returns.  When
    [JSON.parse] raises nothing has changed yet; when the loop raises,
    [calls] holds the entries that were read before and [activeCallId] and
    [callCounter] are as they were. *)
Definition load (st : state) : state * bool :=
  match storage st with
  | NoItem => (st, false)
  | Unreadable => (st, false)
  | Broken read =>
      (with_calls st (set_entries None [] read) (activeCallId st) (callCounter st), false)
  | Data p =>
      let calls' := set_entries None [] (map fst (p_calls p)) in
      (with_calls st calls' (validate calls' (p_activeCallId p))
         (if p_callCounter p =? 0 then List.length calls' else p_callCounter p),
       true)
  end.

(** [init()]; [callId] is the id that [generateCallId] returns if a call is
    created. *)
Definition init (callId : string) (st : state) : state :=
  let '(st1, loaded) := load st in
  let st2 :=
    if negb loaded || (List.length (calls st1) =? 0) then createCall callId "" "" st1
    else st1 in
  notifyListeners "init" st2.

(** [startBatch()] *)
Definition startBatch (st : state) : state :=
  {| calls := calls st; activeCallId := activeCallId st; callCounter := callCounter st;
     batchMode := true; batchDirty := false; batchEventType := batchEventType st;
     events := events st; storage := storage st |}.

(** [endBatch()] *)
Definition endBatch (st : state) : state :=
  let st1 :=
    {| calls := calls st; activeCallId := activeCallId st; callCounter := callCounter st;
       batchMode := false; batchDirty := false; batchEventType := batchEventType st;
       events := events st; storage := storage st |} in
  if batchDirty st then notifyListeners (batchEventType st) st1 else
    {| calls := calls st; activeCallId := activeCallId st; callCounter := callCounter st;
       batchMode := false; batchDirty := batchDirty st; batchEventType := batchEventType st;
       events := events st; storage := storage st |}.

(** [{ id, ...call }], reduced to the fields that the extraction engine and
    the node mapping read. *)
Definition to_call (idc : string * stored) : call :=
  {| call_id := fst idc; call_name := k_name (snd idc);
     call_parsedJson := k_parsedJson (snd idc);
     call_extractions := k_extractions (snd idc) |}.

(** [getCall(callId)]: the id with the stored fields, [None] for [null]. *)
Definition getCall (callId : string) (st : state) : option (string * stored) :=
  match map_get (calls st) callId with
  | None => None
  | Some c => Some (callId, c)
  end.

(** [getAllCalls()] *)
Definition getAllCalls (st : state) : list (string * stored) := calls st.

(** [getActiveCall()] *)
Definition getActiveCall (st : state) : option (string * stored) :=
  match activeCallId st with
  | AId id => if String.eqb id "" then None else getCall id st
  | _ => None
  end.

(** [hasValidJson(callId)], with a missing call counted as [false]. *)
Definition hasValidJson (callId : string) (st : state) : bool :=
  match map_get (calls st) callId with
  | None => false
  | Some c =>
      negb (match k_parsedJson c with VNull => true | _ => false end)
      && match k_parseError c with None => true | Some _ => false end
  end.

End WithParser.
End CallsStore.

(* ================================================================== *)
(** * Mapping store ([src/mapping/store.js]) *)
(* ================================================================== *)

Module MappingStore.
Import Config.

Definition COLORS : list string :=
  ["#4F46E5"; "#059669"; "#DC2626"; "#D97706"; "#7C3AED"; "#DB2777"; "#0891B2"; "#EA580C"].

(** A value of the map [entities]:
    [{ label, color, pk, displayField, sources }]. *)
Record entity : Type := {
  e_label : string;
  e_color : string;
  e_pk : string;
  e_displayField : string;
  e_sources : list string
}.

(** The [config] of [setEntity]; the empty string stands for a missing
    field, [sources] may be missing. *)
Record config : Type := {
  g_label : string;
  g_color : string;
  g_pk : string;
  g_displayField : string;
  g_sources : option (list string)
}.

(** The [updates] of [updateRelation]: the fields that the object has. *)
Record updates : Type := {
  u_from : option string;
  u_to : option string;
  u_toFk : option string;
  u_fromPk : option string
}.

(** [{ entities, relations }] of exported or imported data: an entity is
    its id with its other fields. *)
Record data : Type := {
  d_entities : option (list (string * entity));
  d_relations : option (list relation)
}.

(** What [persist] writes. *)
Record persisted : Type := {
  p_entities : list (string * entity);
  p_relations : list relation;
  p_colorIndex : nat
}.

(** The variables of the closure, the number of times that the listeners
    have been called, and the item of [localStorage]. *)
Record state : Type := {
  entities : list (string * entity);
  relations : list relation;
  colorIndex : nat;
  batchMode : bool;
  batchDirty : bool;
  notified : nat;
  storage : option persisted
}.

Definition initial : state :=
  {| entities := []; relations := []; colorIndex := 0;
     batchMode := false; batchDirty := false; notified := 0; storage := None |}.

(** [notifyListeners()] *)
Definition notifyListeners (st : state) : state :=
  if batchMode st then
    {| entities := entities st; relations := relations st; colorIndex := colorIndex st;
       batchMode := batchMode st; batchDirty := true; notified := notified st;
       storage := storage st |}
  else
    {| entities := entities st; relations := relations st; colorIndex := colorIndex st;
       batchMode := batchMode st; batchDirty := batchDirty st; notified := S (notified st);
       storage := storage st |}.

(** [persist()], for a [localStorage] that takes the item. *)
Definition persist (st : state) : state :=
  {| entities := entities st; relations := relations st; colorIndex := colorIndex st;
     batchMode := batchMode st; batchDirty := batchDirty st; notified := notified st;
     storage := Some {| p_entities := entities st; p_relations := relations st;
                        p_colorIndex := colorIndex st |} |}.

Definition with_data (st : state) (entities' : list (string * entity))
    (relations' : list relation) (colorIndex' : nat) : state :=
  {| entities := entities'; relations := relations'; colorIndex := colorIndex';
     batchMode := batchMode st; batchDirty := batchDirty st; notified := notified st;
     storage := storage st |}.

(** The changed variables are persisted and the listeners notified. *)
Definition commit (st : state) (entities' : list (string * entity))
    (relations' : list relation) (colorIndex' : nat) : state :=
  notifyListeners (persist (with_data st entities' relations' colorIndex')).

(** [COLORS[colorIndex % COLORS.length]] *)
Definition color_at (index : nat) : string :=
  nth (index mod List.length COLORS) COLORS "".

(** The loop of [load] and of [importData]. *)
Definition set_entities (l : list (string * entity)) : list (string * entity) :=
  fold_left (fun m ie => map_set m (fst ie) (snd ie)) l [].

(** [load()]: the new state and the flag that it returns. *)
Definition load (st : state) : state * bool :=
  match storage st with
  | None => (st, false)
  | Some p =>
      let entities' := set_entities (p_entities p) in
      (with_data st entities' (p_relations p)
         (if p_colorIndex p =? 0 then List.length entities' else p_colorIndex p),
       true)
  end.

(** [init()] *)
Definition init (st : state) : state := notifyListeners (fst (load st)).

(** [setEntity(id, config)] *)
Definition setEntity (id : string) (config : config) (st : state) : state :=
  let existing := map_get (entities st) id in
  let old (field : entity -> string) : string :=
    match existing with
    | Some e => field e
    | None => ""
    end in
  let color := or_else (g_color config) (old e_color) in
  commit st
    (map_set (entities st) id
       {| e_label := or_else (or_else (g_label config) (old e_label)) id;
          e_color := if String.eqb color "" then color_at (colorIndex st) else color;
          e_pk := or_else (or_else (g_pk config) (old e_pk)) "id";
          e_displayField := or_else (or_else (g_displayField config) (old e_displayField)) "id";
          e_sources :=
            match g_sources config, existing with
            | Some l, _ => l
            | None, Some e => e_sources e
            | None, None => []
            end |})
    (relations st)
    (if String.eqb color "" then S (colorIndex st) else colorIndex st).

Definition with_sources (e : entity) (sources : list string) : entity :=
  {| e_label := e_label e; e_color := e_color e; e_pk := e_pk e;
     e_displayField := e_displayField e; e_sources := sources |}.

(** [addSource(entityId, path)] *)
Definition addSource (entityId path : string) (st : state) : state :=
  match map_get (entities st) entityId with
  | None => st
  | Some e =>
      if existsb (String.eqb path) (e_sources e) then st
      else commit st (map_set (entities st) entityId (with_sources e (e_sources e ++ [path])))
             (relations st) (colorIndex st)
  end.

(** [sources.splice(sources.indexOf(path), 1)] *)
Fixpoint remove_first (path : string) (sources : list string) : list string :=
  match sources with
  | [] => []
  | s :: rest => if String.eqb s path then rest else s :: remove_first path rest
  end.

(** [removeSource(entityId, path)] *)
Definition removeSource (entityId path : string) (st : state) : state :=
  match map_get (entities st) entityId with
  | None => st
  | Some e =>
      if existsb (String.eqb path) (e_sources e) then
        commit st
          (map_set (entities st) entityId (with_sources e (remove_first path (e_sources e))))
          (relations st) (colorIndex st)
      else st
  end.

(** The id that [createEntity] returns. *)
Definition new_entity_id (st : state) : string :=
  "entity" +++ string_of_nat (List.length (entities st) + 1).

(** [createEntity()] *)
Definition createEntity (st : state) : state :=
  let count := List.length (entities st) + 1 in
  commit st
    (map_set (entities st) ("entity" +++ string_of_nat count)
       {| e_label := "Entity " +++ string_of_nat count;
          e_color := color_at (colorIndex st);
          e_pk := "id"; e_displayField := "id"; e_sources := [] |})
    (relations st) (S (colorIndex st)).

(** The loop over [callsStore.getAllCalls()] of [renameEntity] and of
    [deleteEntity]: [change] gives the new extractions of a call, or
    [None] where the call is left alone. *)
Fixpoint each_call (change : list extraction -> option (list extraction))
    (all : list (string * CallsStore.stored)) (cs : CallsStore.state) : CallsStore.state :=
  match all with
  | [] => cs
  | (id, call) :: rest =>
      match CallsStore.k_extractions call with
      | None => each_call change rest cs
      | Some extractions =>
          match change extractions with
          | Some updated =>
              each_call change rest (CallsStore.updateExtractions id (Some updated) cs)
          | None => each_call change rest cs
          end
      end
  end.

(** [{ ...rel, from: ..., to: ... }] *)
Definition rename_relation (oldId newId : string) (rel : relation) : relation :=
  {| r_from := if String.eqb (r_from rel) oldId then newId else r_from rel;
     r_to := if String.eqb (r_to rel) oldId then newId else r_to rel;
     r_toFk := r_toFk rel; r_fromPk := r_fromPk rel |}.

(** [ext.entity === oldId ? { ...ext, entity: newId } : ext] *)
Definition rename_extraction (oldId newId : string) (ext : extraction) : extraction :=
  if String.eqb (x_entity ext) oldId then {| x_entity := newId; x_path := x_path ext |}
  else ext.

(** The extractions of a call after a renaming; they are new objects
    exactly where the entity is [oldId]. *)
Definition renamed (oldId newId : string) (extractions : list extraction)
  : option (list extraction) :=
  if existsb (fun ext => String.eqb (x_entity ext) oldId) extractions
  then Some (map (rename_extraction oldId newId) extractions)
  else None.

(** [renameEntity(oldId, newId)], with the calls store that it updates. *)
Definition renameEntity (oldId newId : string) (st : state) (cs : CallsStore.state)
  : state * CallsStore.state :=
  if String.eqb oldId newId then (st, cs)
  else
    match map_get (entities st) newId with
    | Some _ => (st, cs)
    | None =>
        match map_get (entities st) oldId with
        | None => (st, cs)
        | Some e =>
            (commit st
               (map_set (CallsStore.map_delete (entities st) oldId) newId e)
               (map (rename_relation oldId newId) (relations st))
               (colorIndex st),
             each_call (renamed oldId newId) (CallsStore.getAllCalls cs) cs)
        end
    end.

(** The extractions of a call after the entity [id] is deleted. *)
Definition cleaned (id : string) (extractions : list extraction)
  : option (list extraction) :=
  let filtered := filter (fun ext => negb (String.eqb (x_entity ext) id)) extractions in
  if List.length filtered =? List.length extractions then None else Some filtered.

(** [deleteEntity(id)], with the calls store that it updates. *)
Definition deleteEntity (id : string) (st : state) (cs : CallsStore.state)
  : state * CallsStore.state :=
  match map_get (entities st) id with
  | None => (st, cs)
  | Some _ =>
      (commit st
         (CallsStore.map_delete (entities st) id)
         (filter (fun rel => negb (String.eqb (r_from rel) id)
                             && negb (String.eqb (r_to rel) id))
            (relations st))
         (colorIndex st),
       each_call (cleaned id) (CallsStore.getAllCalls cs) cs)
  end.

(** [{ id, ...entity }] as the configuration that the node mapping reads. *)
Definition to_config (ie : string * entity) : entityConfig :=
  {| c_id := fst ie; c_label := e_label (snd ie); c_pk := e_pk (snd ie);
     c_displayField := e_displayField (snd ie); c_color := e_color (snd ie) |}.

(** [getEntity(id)]: the id with the fields, [None] for [null]. *)
Definition getEntity (id : string) (st : state) : option (string * entity) :=
  match map_get (entities st) id with
  | None => None
  | Some e => Some (id, e)
  end.

(** [getAllEntities()] *)
Definition getAllEntities (st : state) : list (string * entity) := entities st.

(** [addRelation(from, to, toFk, fromPk)] *)
Definition addRelation (from to toFk fromPk : string) (st : state) : state :=
  if existsb (fun r => String.eqb (r_from r) from && String.eqb (r_to r) to
                       && String.eqb (r_toFk r) toFk)
       (relations st)
  then st
  else commit st (entities st)
         (relations st ++ [{| r_from := from; r_to := to; r_toFk := toFk;
                              r_fromPk := fromPk |}])
         (colorIndex st).

(** [relations.splice(index, 1)] *)
Fixpoint remove_at (index : nat) (l : list relation) : list relation :=
  match l, index with
  | [], _ => []
  | _ :: rest, O => rest
  | r :: rest, S n => r :: remove_at n rest
  end.

(** [relations.findIndex(r => r.from === from && r.to === to)] *)
Fixpoint findIndex (from to : string) (l : list relation) : option nat :=
  match l with
  | [] => None
  | r :: rest =>
      if String.eqb (r_from r) from && String.eqb (r_to r) to then Some 0
      else option_map S (findIndex from to rest)
  end.

(** [removeRelation(from, to)] *)
Definition removeRelation (from to : string) (st : state) : state :=
  match findIndex from to (relations st) with
  | Some index => commit st (entities st) (remove_at index (relations st)) (colorIndex st)
  | None => st
  end.

(** [{ ...relations[index], ...updates }] *)
Definition updated (rel : relation) (u : updates) : relation :=
  {| r_from := match u_from u with Some s => s | None => r_from rel end;
     r_to := match u_to u with Some s => s | None => r_to rel end;
     r_toFk := match u_toFk u with Some s => s | None => r_toFk rel end;
     r_fromPk := match u_fromPk u with Some s => s | None => r_fromPk rel end |}.

Fixpoint update_at (index : nat) (u : updates) (l : list relation) : list relation :=
  match l, index with
  | [], _ => []
  | r :: rest, O => updated r u :: rest
  | r :: rest, S n => r :: update_at n u rest
  end.

(** [updateRelation(index, updates)], for an integer [index]. *)
Definition updateRelation (index : Z) (u : updates) (st : state) : state :=
  if (index <? 0)%Z || (Z.of_nat (List.length (relations st)) <=? index)%Z then st
  else commit st (entities st) (update_at (Z.to_nat index) u (relations st)) (colorIndex st).

(** [deleteRelation(index)], for an integer [index]. *)
Definition deleteRelation (index : Z) (st : state) : state :=
  if (index <? 0)%Z || (Z.of_nat (List.length (relations st)) <=? index)%Z then st
  else commit st (entities st) (remove_at (Z.to_nat index) (relations st)) (colorIndex st).

(** [getRelations()] *)
Definition getRelations (st : state) : list relation := relations st.

(** [clearAll()] *)
Definition clearAll (st : state) : state := commit st [] [] 0.

(** [startBatch()] *)
Definition startBatch (st : state) : state :=
  {| entities := entities st; relations := relations st; colorIndex := colorIndex st;
     batchMode := true; batchDirty := false; notified := notified st;
     storage := storage st |}.

(** [endBatch()] *)
Definition endBatch (st : state) : state :=
  let st1 :=
    {| entities := entities st; relations := relations st; colorIndex := colorIndex st;
       batchMode := false; batchDirty := false; notified := notified st;
       storage := storage st |} in
  if batchDirty st then notifyListeners st1 else
    {| entities := entities st; relations := relations st; colorIndex := colorIndex st;
       batchMode := false; batchDirty := batchDirty st; notified := notified st;
       storage := storage st |}.

(** [exportData()] *)
Definition exportData (st : state) : data :=
  {| d_entities := Some (entities st); d_relations := Some (relations st) |}.

(** [importData(data)] *)
Definition importData (d : data) (st : state) : state :=
  let entities' := set_entities (match d_entities d with Some l => l | None => [] end) in
  commit st entities' (match d_relations d with Some l => l | None => [] end)
    (List.length entities').

End MappingStore.
(** A host in which receivers other than plain objects have no members of
    their own: enough to run the definitions on plain JSON documents. *)
Definition bare_host : Host :=
  {| host_get := fun _ _ => VUndefined;
     host_has := fun _ _ => false;
     host_function_text := fun name => "function " +++ name +++ "() { [native code] }" |}.

(* ================================================================== *)
(** * Properties of the path engine *)
(* ================================================================== *)

Module PathFacts.
Import Path.

Ltac case_if :=
  match goal with
  | |- context [if ?b then _ else _] => destruct b eqn:?
  end.

Lemma drop_length_le (n : nat) (s : string) :
  String.length (Str.drop n s) <= String.length s.
Proof.
  revert s; induction n as [|n IH]; intros s; simpl; [lia|].
  destruct s as [|c r]; simpl; [lia|].
  specialize (IH r); lia.
Qed.

Lemma drop_length (n : nat) (s : string) :
  String.length (Str.drop n s) = String.length s - n.
Proof.
  revert s; induction n as [|n IH]; intros s; simpl; [lia|].
  destruct s as [|c r]; simpl; [lia|]. apply IH.
Qed.

Lemma take_while_length (p : ascii -> bool) (s : string) :
  String.length (Str.take_while p s) <= String.length s.
Proof.
  induction s as [|c r IH]; simpl; [lia|].
  destruct (p c); simpl; lia.
Qed.

Lemma consume_dot_length (s : string) :
  String.length (consume_dot s) <= String.length s.
Proof.
  unfold consume_dot.
  repeat case_if; try (simpl; lia).
  apply drop_length_le.
Qed.

(** Once the fuel covers the remaining input its amount is irrelevant: the
    loop of [parsePath] terminates on every input. *)
Lemma parse_segments_fuel (f1 f2 : nat) (remaining : string) (tokens : list token) :
  String.length remaining <= f1 -> String.length remaining <= f2 ->
  parse_segments f1 remaining tokens = parse_segments f2 remaining tokens.
Proof.
  revert f2 remaining tokens.
  induction f1 as [|f1 IH]; intros f2 remaining tokens H1 H2.
  - destruct remaining; simpl in H1; [|lia]. destruct f2; reflexivity.
  - destruct remaining as [|c rest]; [destruct f2; reflexivity|].
    destruct f2 as [|f2]; [simpl in H2; lia|].
    simpl in H1, H2. cbn [parse_segments].
    destruct (Ascii.eqb c "[") eqn:Eb.
    + destruct (Str.indexOf "]" (String c rest)) as [closeIdx|] eqn:Ei; [|reflexivity].
      destruct (if String.eqb (Str.slice 1 closeIdx (String c rest)) "*" then _ else _)
        as [tok| |]; cbn [bind]; try reflexivity.
      assert (Hd : String.length (Str.drop (closeIdx + 1) (String c rest)) <= String.length rest).
      { rewrite Nat.add_comm. simpl. apply drop_length_le. }
      apply IH; case_if; try lia;
        (eapply Nat.le_trans; [apply drop_length_le|]; lia).
    + destruct (Str.is_digit c) eqn:Ed.
      * assert (Hl : String.length
                  (Str.drop (String.length (Str.take_while Str.is_digit (String c rest)))
                     (String c rest)) <= String.length rest).
        { simpl. rewrite Ed. simpl. apply drop_length_le. }
        apply IH; (eapply Nat.le_trans; [apply consume_dot_length|]; lia).
      * destruct (Str.is_ident_start c) eqn:Es.
        -- assert (Hl : String.length
                  (Str.drop (String.length (Str.take_while Str.is_ident_char (String c rest)))
                     (String c rest)) <= String.length rest).
           { simpl. unfold Str.is_ident_char at 1. rewrite Es. simpl. apply drop_length_le. }
           apply IH; (eapply Nat.le_trans; [apply consume_dot_length|]; lia).
        -- destruct (Ascii.eqb c "."); [apply IH; lia | reflexivity].
Qed.

(** [parsePath] raises nothing but its own syntax errors. *)
Lemma parse_segments_errors (fuel : nat) (remaining : string) (tokens : list token) :
  (exists toks, parse_segments fuel remaining tokens = Ok toks)
  \/ (exists e, parse_segments fuel remaining tokens = Throw (PathError e)).
Proof.
  revert remaining tokens; induction fuel as [|fuel IH]; intros remaining tokens.
  - destruct remaining; left; eexists; reflexivity.
  - destruct remaining as [|c rest]; [left; eexists; reflexivity|].
    cbn [parse_segments].
    repeat match goal with
           | |- context [if ?b then _ else _] => destruct b
           | |- context [match ?o with Some _ => _ | None => _ end] => destruct o
           end; cbn [bind]; try apply IH;
      right; eexists; reflexivity.
Qed.

Lemma parsePath_errors (s : string) :
  (exists toks, parsePath s = Ok toks) \/ (exists e, parsePath s = Throw (PathError e)).
Proof.
  unfold parsePath.
  destruct (String.eqb s ""); [left; eexists; reflexivity|].
  destruct (_ || _); [left; eexists; reflexivity|].
  destruct (if Str.startsWith (Str.trim s) "$" then _ else _) as [tokens remaining].
  destruct (parse_segments_errors (String.length remaining) remaining tokens)
    as [[toks E]|[e E]]; rewrite E; cbn [bind];
    [left|right]; eexists; reflexivity.
Qed.

Section Evaluation.
Context `{Host}.

(** One token applied to one match never raises; every match it produces
    extends the concrete path by the depth of the token. *)
Lemma eval_token_ok (tok : token) (m : pmatch) :
  exists ms, eval_token tok m = Ok ms
    /\ Forall (fun m' => List.length (m_path m') = List.length (m_path m) + token_depth tok) ms.
Proof.
  destruct m as [value path]; destruct tok as [|name| |n]; cbn [eval_token m_value m_path].
  - eexists; split; [reflexivity|]. constructor; [simpl; lia|constructor].
  - destruct (truthy value && typeof_object value && negb (isArray value)) eqn:G;
      [|eexists; split; [reflexivity|constructor]].
    destruct value as [| |b|z|s|id items|props|f|];
      cbn in G; rewrite ?andb_false_r in G; try discriminate G; cbn.
    + destruct (own_property props name); cbn.
      * eexists; split; [reflexivity|].
        constructor; [cbn; rewrite length_app; simpl; lia|constructor].
      * destruct (inherited_name name); cbn;
          eexists; (split; [reflexivity|]);
          try (constructor; [cbn; rewrite length_app; simpl; lia|]); constructor.
    + destruct (inherited_name name); cbn;
        eexists; (split; [reflexivity|]);
        try (constructor; [cbn; rewrite length_app; simpl; lia|]); constructor.
  - destruct value as [| |b|z|s|id items|props|f|];
      try (eexists; split; [reflexivity|constructor]).
    eexists; split; [reflexivity|].
    apply Forall_forall. intros m' Hin. apply in_map_iff in Hin.
    destruct Hin as [[idx item] [<- _]]. cbn. rewrite length_app; simpl; lia.
  - destruct value as [| |b|z|s|id items|props|f|];
      try (eexists; split; [reflexivity|constructor]).
    destruct (n <? List.length items); eexists; (split; [reflexivity|]).
    + constructor; [cbn; rewrite length_app; simpl; lia|constructor].
    + constructor.
Qed.

Lemma eval_results_ok (tok : token) (results : list pmatch) (d : nat) :
  Forall (fun m => List.length (m_path m) = d) results ->
  exists ms, eval_results tok results = Ok ms
    /\ Forall (fun m' => List.length (m_path m') = d + token_depth tok) ms.
Proof.
  induction 1 as [|m rest Hm _ IH]; cbn [eval_results].
  - eexists; split; [reflexivity|constructor].
  - destruct (eval_token_ok tok m) as [here [E1 F1]].
    destruct IH as [there [E2 F2]].
    rewrite E1, E2; cbn [bind]. eexists; split; [reflexivity|].
    apply Forall_app; split; [|exact F2].
    eapply Forall_impl; [|exact F1]. cbn. intros a Ha. lia.
Qed.

Definition depth_from (d : nat) (ast : list token) : nat :=
  fold_left (fun depth tok => depth + token_depth tok) ast d.

Lemma eval_ast_ok (ast : list token) (results : list pmatch) (d : nat) :
  Forall (fun m => List.length (m_path m) = d) results ->
  exists ms, eval_ast ast results = Ok ms
    /\ Forall (fun m' => List.length (m_path m') = depth_from d ast) ms.
Proof.
  revert results d; induction ast as [|tok rest IH]; intros results d F; cbn [eval_ast].
  - eexists; split; [reflexivity|exact F].
  - destruct (eval_results_ok tok results d F) as [next [E Fn]].
    rewrite E; cbn [bind]. apply (IH next (d + token_depth tok) Fn).
Qed.

End Evaluation.

(** C3.  A [Field] token is decided by the [in] operator, which also answers
    for names that the object only inherits: on the empty object, which owns
    no key at all, the selector [toString] compiles to one [Field] token and
    evaluates to one match whose value is the inherited built-in function,
    where an own-key test gives no match. *)
Theorem field_token_matches_inherited_key `{Host} :
  own_property (@nil (string * value)) "toString" = None
  /\ parsePath "toString" = Ok [Field "toString"]
  /\ evaluatePath (VObj []) (PStr "toString")
     = Ok [ {| m_value := VFun "toString"; m_path := [SKey "toString"] |} ].
Proof. repeat split. Qed.

(** For every value and every compiled path [evaluatePath] returns a list
    of matches and never raises.  A [Field] token on an array, a field that
    the object neither owns nor inherits, [AllItems] or [Index] on a value
    that is not an array and an [Index] beyond the end all contribute no
    match. *)
Lemma evaluatePath_never_raises `{Host} :
  (forall data p ast, to_ast p = Ok ast -> exists ms, evaluatePath data p = Ok ms)
  /\ (forall name id items path,
        eval_token (Field name) {| m_value := VArr id items; m_path := path |} = Ok [])
  /\ (forall name props path,
        own_property props name = None -> inherited_name name = false ->
        eval_token (Field name) {| m_value := VObj props; m_path := path |} = Ok [])
  /\ (forall v path, isArray v = false ->
        eval_token AllItems {| m_value := v; m_path := path |} = Ok []
        /\ forall n, eval_token (Index n) {| m_value := v; m_path := path |} = Ok [])
  /\ (forall n id items path, List.length items <= n ->
        eval_token (Index n) {| m_value := VArr id items; m_path := path |} = Ok [])
  /\ (forall props,
        own_property props "a" = None
        \/ (exists id items, own_property props "a" = Some (VArr id items)) ->
        evaluatePath (VObj props) (PStr "a.b") = Ok []).
Proof.
  split; [|split; [|split; [|split; [|split]]]]; [| | |split| |].
  - intros data p ast E. unfold evaluatePath. rewrite E. cbn [bind].
    destruct (eval_ast_ok ast [ {| m_value := data; m_path := [] |} ] 0) as [ms [E' _]].
    + constructor; [reflexivity|constructor].
    + exists ms. exact E'.
  - reflexivity.
  - intros name props path E I. cbn. rewrite E, I. reflexivity.
  - destruct v; try reflexivity; discriminate.
  - destruct v; try reflexivity; discriminate.
  - intros n id items path Hn. cbn [eval_token m_value m_path].
    destruct (n <? List.length items) eqn:E; [|reflexivity].
    apply Nat.ltb_lt in E. lia.
  - assert (P : parsePath "a.b" = Ok [Field "a"; Field "b"]) by reflexivity.
    intros props [E|[id [items E]]]; unfold evaluatePath, to_ast; rewrite P;
      cbn [bind eval_ast eval_results eval_token m_value m_path truthy typeof_object
             isArray negb andb js_in js_get];
      rewrite E; reflexivity.
Qed.

(** C5.  A missing field can give a match.  The object under [a] owns the
    key [b] only, so the field [valueOf] is missing from it; yet the selector
    [a.valueOf] compiles, and it evaluates to one match, the built-in
    function that every object inherits, where the claim has the empty
    sequence. *)
Theorem missing_field_yields_a_match `{Host} :
  own_property [("b", VNum 1)] "valueOf" = None
  /\ parsePath "a.valueOf" = Ok [Field "a"; Field "valueOf"]
  /\ evaluatePath (VObj [("a", VObj [("b", VNum 1)])]) (PStr "a.valueOf")
     = Ok [ {| m_value := VFun "valueOf"; m_path := [SKey "a"; SKey "valueOf"] |} ]
  /\ evaluatePath (VObj [("a", VObj [("b", VNum 1)])]) (PStr "a.valueOf") <> Ok [].
Proof. repeat split. discriminate. Qed.


(** C10.  Every match that [evaluatePath] returns for a compiled path has a
    concrete path with as many segments as the path has tokens other than
    [Root], which is what [getPathDepth] counts. *)
Theorem match_path_length_is_depth `{Host} (data : value) (p : pathOrAst) (ast : list token) :
  to_ast p = Ok ast ->
  exists ms d,
    evaluatePath data p = Ok ms
    /\ getPathDepth p = Ok d
    /\ d = List.length (filter (fun tok => match tok with Root => false | _ => true end) ast)
    /\ Forall (fun m => List.length (m_path m) = d) ms.
Proof.
  intros E. unfold evaluatePath, getPathDepth. rewrite E. cbn [bind].
  destruct (eval_ast_ok ast [ {| m_value := data; m_path := [] |} ] 0) as [ms [E' F]].
  { constructor; [reflexivity|constructor]. }
  exists ms, (depth_from 0 ast). repeat split; try assumption.
  unfold depth_from.
  assert (G : forall l d, fold_left (fun depth tok => depth + token_depth tok) l d
              = d + List.length (filter (fun tok => match tok with Root => false | _ => true end) l)).
  { induction l as [|tok l IH]; intros d; simpl; [lia|].
    rewrite IH. destruct tok; simpl; lia. }
  apply G.
Qed.


End PathFacts.


(* ================================================================== *)
(** * Properties of the extraction engine *)
(* ================================================================== *)

Module ParentFacts.
Import Path Config Engine.

(** The test that makes an entry of [extractedByPath] a candidate parent. *)
Definition candidate (pathKey : string) (entry : string * located) : bool :=
  Str.startsWith pathKey (fst entry +++ ".") || Str.startsWith pathKey (fst entry +++ "[").

(** The comparison meant to prefer a longer path never holds: the length it
    reads is [undefined]. *)
Lemma never_closer (n : nat) (e : option located) :
  gt_or_undefined n (located_length e) = false.
Proof. destruct e; reflexivity. Qed.

(** One round of the scan, with the map it looks lengths up in. *)
Definition parent_step (whole : list (string * located)) (pathKey : string)
    (parentEntityId : option string) (entry : string * located) : option string :=
  let '(existingPath, existingEntity) := entry in
  if Str.startsWith pathKey (existingPath +++ ".")
     || Str.startsWith pathKey (existingPath +++ "[")
  then
    if no_parent parentEntityId
       || gt_or_undefined (String.length existingPath)
            (located_length
               (match parentEntityId with
                | Some id =>
                    match second_part id with
                    | Some key => map_get whole key
                    | None => None
                    end
                | None => None
                end))
    then Some (l_entityId existingEntity)
    else parentEntityId
  else parentEntityId.

Lemma find_parent_unfold (extractedByPath : list (string * located)) (pathKey : string) :
  find_parent extractedByPath pathKey
  = fold_left (parent_step extractedByPath pathKey) extractedByPath None.
Proof. reflexivity. Qed.

Lemma find_parent_keeps_first (whole rest : list (string * located)) (pathKey : string)
    (acc : option string) :
  no_parent acc = false ->
  fold_left (parent_step whole pathKey) rest acc = acc.
Proof.
  revert acc; induction rest as [|[p e] rest IH]; intros acc Hacc; simpl.
  - reflexivity.
  - rewrite never_closer, Hacc. simpl.
    destruct (_ || _); apply IH; assumption.
Qed.

Lemma scan_is_first_candidate (whole rest : list (string * located)) (pathKey : string) :
  Forall (fun entry => l_entityId (snd entry) <> "") rest ->
  fold_left (parent_step whole pathKey) rest None
  = option_map (fun entry => l_entityId (snd entry)) (find (candidate pathKey) rest).
Proof.
  induction 1 as [|[p e] rest Hne F IH]; simpl.
  - reflexivity.
  - unfold candidate at 1. simpl.
    destruct (_ || _) eqn:E.
    + simpl. apply find_parent_keeps_first.
      simpl. apply String.eqb_neq. exact Hne.
    + apply IH.
Qed.

(** The scan returns the first candidate in insertion order, whatever the
    lengths of the later ones. *)
Lemma find_parent_is_first_candidate (extractedByPath : list (string * located))
    (pathKey : string) :
  Forall (fun entry => l_entityId (snd entry) <> "") extractedByPath ->
  find_parent extractedByPath pathKey
  = option_map (fun entry => l_entityId (snd entry))
      (find (candidate pathKey) extractedByPath).
Proof. intros F. rewrite find_parent_unfold. apply scan_is_first_candidate, F. Qed.

Definition config (id : string) : entityConfig :=
  {| c_id := id; c_label := ""; c_pk := ""; c_displayField := ""; c_color := "" |}.

(** [{"a": {"id": 1, "b": {"id": 2, "c": {"id": 3}}}}] *)
Definition nested_doc : value :=
  VObj [("a", VObj [("id", VNum 1);
                    ("b", VObj [("id", VNum 2);
                                ("c", VObj [("id", VNum 3)])])])].

Definition nested_rules : list extraction :=
  [ {| x_entity := "A"; x_path := "a" |};
    {| x_entity := "B"; x_path := "a.b" |};
    {| x_entity := "C"; x_path := "a.b.c" |} ].

Definition nested_configs : list (string * entityConfig) :=
  [("A", config "A"); ("B", config "B"); ("C", config "C")].

(** [{"id": 1, "items": [{"id": 10}, {"id": 11}]}] *)
Definition items_doc : value :=
  VObj [("id", VNum 1); ("items", VArr 0 [VObj [("id", VNum 10)]; VObj [("id", VNum 11)]])].

Definition items_rules : list extraction :=
  [ {| x_entity := "root"; x_path := "$" |};
    {| x_entity := "item"; x_path := "$.items[*]" |} ].

Definition items_configs : list (string * entityConfig) :=
  [("root", config "root"); ("item", config "item")].

(** [{"a": {"b": {"id": 1}, "bc": {"id": 2}}}] *)
Definition sibling_doc : value :=
  VObj [("a", VObj [("b", VObj [("id", VNum 1)]); ("bc", VObj [("id", VNum 2)])])].

Definition sibling_rules : list extraction :=
  [ {| x_entity := "X"; x_path := "a.b" |}; {| x_entity := "Y"; x_path := "a.bc" |} ].

Definition sibling_configs : list (string * entityConfig) :=
  [("X", config "X"); ("Y", config "Y")].

Definition ends (r : outcome (list entity * list edge))
  : outcome (list string * list (string * string)) :=
  res <- r ;;
  Ok (map e_id (fst res), map (fun g => (g_source g, g_target g)) (snd res)).

Definition parents (r : outcome (list Extractor.extracted))
  : outcome (list (string * option string)) :=
  res <- r ;;
  Ok (map (fun t => (Extractor.t_entity t, Extractor.t_parentEntity t)) res).

(** C2.  The parent scan of [extractFromCall] keeps the first entry of
    [extractedByPath] that passes the prefix test, because the comparison
    that should prefer a longer path reads an undefined length
    ([find_parent_is_first_candidate]).  With
    entities at [a], [a.b] and [a.b.c] the edge into the deepest one starts
    at the entity at [a], where the longest strict prefix is [a.b]; an
    entity at the root, whose path key is empty, is never a candidate, so
    the items below it get no edge.  [extractWithContext] keeps the first
    candidate too and tests prefixes on characters, so [a.b] becomes the
    parent of [a.bc]. *)
Theorem parent_is_first_candidate_not_longest `{Host} :
  ends (extractFromCall "c1" nested_doc nested_rules nested_configs)
     = Ok (["A-1"; "B-2"; "C-3"], [("A-1", "B-2"); ("A-1", "C-3")])
  /\ ParentSpec.longest_prefix_parent
       [([SKey "a"], "A-1"); ([SKey "a"; SKey "b"], "B-2")] [SKey "a"; SKey "b"; SKey "c"]
     = Some "B-2"
  /\ ends (extractFromCall "c1" items_doc items_rules items_configs)
     = Ok (["root-1"; "item-10"; "item-11"], [])
  /\ ParentSpec.longest_prefix_parent [([], "root-1")] [SKey "items"; SIdx 0] = Some "root-1"
  /\ parents (Extractor.extractWithContext nested_doc nested_rules nested_configs)
     = Ok [("A", None); ("B", Some "A"); ("C", Some "A")]
  /\ parents (Extractor.extractWithContext sibling_doc sibling_rules sibling_configs)
     = Ok [("X", None); ("Y", Some "X")]
  /\ ParentSpec.longest_prefix_parent [([SKey "a"; SKey "b"], "X-1")] [SKey "a"; SKey "bc"]
     = None.
Proof.
  repeat split; vm_compute; reflexivity.
Qed.

End ParentFacts.

(* ================================================================== *)
(** * Properties of primary-key resolution *)
(* ================================================================== *)

Module KeyFacts.
Import Keys.

Section WithHost.
Context `{Host}.

Lemma js_get_ok (v : value) (name : string) :
  nullish v = false -> exists x, js_get v name = Ok x.
Proof. destruct v; intros E; try discriminate E; eexists; reflexivity. Qed.

(** Reading a dotted path never raises. *)
Lemma walk_ok (parts : list string) (current : value) :
  exists v, walk parts current = Ok v.
Proof.
  revert current; induction parts as [|part rest IH]; intros current; simpl.
  - eexists; reflexivity.
  - destruct (nullish current) eqn:E; [eexists; reflexivity|].
    destruct (js_get_ok current part E) as [x ->]. cbn [bind]. apply IH.
Qed.

Lemma getNestedValue_ok (obj : value) (path : string) :
  exists v, getNestedValue obj path = Ok v.
Proof.
  unfold getNestedValue. destruct (_ || _); [eexists; reflexivity|apply walk_ok].
Qed.

Lemma map_outcome_ok {A B} (f : A -> outcome B) (l : list A) :
  (forall a, exists b, f a = Ok b) ->
  exists bs, map_outcome f l = Ok bs /\ Forall2 (fun a b => f a = Ok b) l bs.
Proof.
  intros Hf. induction l as [|a rest [bs [E F]]]; simpl.
  - exists []; split; [reflexivity|constructor].
  - destruct (Hf a) as [b Eb]. rewrite Eb, E. cbn [bind].
    exists (b :: bs); split; [reflexivity|constructor; assumption].
Qed.

Lemma includes_nonempty (s : string) (c : ascii) :
  Str.includes s c = true -> String.eqb s "" = false.
Proof. destruct s; [discriminate|reflexivity]. Qed.

(** On values none of which is [null] or [undefined], [join] is the join of
    their string conversions. *)
Lemma js_join_texts (sep : string) (values : list value) (texts : list string) :
  existsb nullish values = false ->
  Forall2 (fun v t => to_string v = Ok t) values texts ->
  js_join sep values = Ok (Str.join sep texts).
Proof.
  intros N F; induction F as [|v t values texts E F IH]; [reflexivity|].
  cbn [existsb] in N. apply orb_false_iff in N as [Nv N].
  cbn [js_join]. rewrite Nv, E. cbn [bind].
  destruct F as [|v' t' values' texts' E' F']; [reflexivity|].
  rewrite (IH N). reflexivity.
Qed.

(** C8.  For an object and a primary-key path that contains [+], the parts
    between the [+] signs are read one by one (each read returns); if one of
    them is [null] or [undefined] the key is [undefined], so the entity is
    unkeyed; otherwise the key is the string that joins the parts with the
    separator [|]. *)
Theorem composite_key_is_joined_or_void (obj : value) (pkField : string) :
  truthy obj = true ->
  Str.includes pkField "+" = true ->
  exists values,
    Forall2 (fun part v => getNestedValue obj (Str.trim part) = Ok v)
      (Str.split "+" pkField) values
    /\ (existsb nullish values = true ->
        resolvePkValue obj pkField = Ok VUndefined
        /\ nullish VUndefined = true)
    /\ (existsb nullish values = false ->
        resolvePkValue obj pkField = (s <- js_join "|" values ;; Ok (VStr s))
        /\ forall texts,
             Forall2 (fun v t => to_string v = Ok t) values texts ->
             resolvePkValue obj pkField = Ok (VStr (Str.join "|" texts))).
Proof.
  intros T I.
  destruct (map_outcome_ok (fun p => getNestedValue obj (Str.trim p)) (Str.split "+" pkField))
    as [values [E F]].
  { intros p. apply getNestedValue_ok. }
  exists values. split; [exact F|].
  unfold resolvePkValue. rewrite T, (includes_nonempty _ _ I), I. cbn [negb orb].
  rewrite E. cbn [bind].
  split; intros N; rewrite N.
  - split; reflexivity.
  - split; [reflexivity|]. intros texts Ft.
    rewrite (js_join_texts "|" values texts N Ft). reflexivity.
Qed.

End WithHost.
End KeyFacts.

(* ================================================================== *)
(** * Insertion-ordered maps *)
(* ================================================================== *)

Module MapFacts.
Import Config.

Lemma own_property_In {A} (m : list (string * A)) (k : string) (v : A) :
  own_property m k = Some v -> In (k, v) m.
Proof.
  induction m as [|[k' v'] rest IH]; simpl; [discriminate|].
  destruct (String.eqb k' k) eqn:E.
  - intros [= ->]. apply String.eqb_eq in E. subst. left; reflexivity.
  - intros Hr. right. apply IH, Hr.
Qed.

Lemma in_map_set {A} (m : list (string * A)) (k : string) (v : A) (k' : string) (v' : A) :
  In (k', v') (map_set m k v) -> (k' = k /\ v' = v) \/ In (k', v') m.
Proof.
  induction m as [|[k0 v0] rest IH]; simpl.
  - intros [[= <- <-]|[]]. left; split; reflexivity.
  - destruct (String.eqb k0 k) eqn:E; simpl.
    + apply String.eqb_eq in E. subst.
      intros [[= <- <-]|Hin]; [left; split; reflexivity|right; right; exact Hin].
    + intros [Heq|Hin]; [right; left; exact Heq|].
      destruct (IH Hin) as [Hl|Hr]; [left; exact Hl|right; right; exact Hr].
Qed.


Lemma get_set_same {A} (m : list (string * A)) (k : string) (v : A) :
  map_get (map_set m k v) k = Some v.
Proof.
  unfold map_get. induction m as [|[k0 v0] rest IH]; simpl.
  - rewrite String.eqb_refl. reflexivity.
  - destruct (String.eqb k0 k) eqn:E; simpl; rewrite E; [reflexivity|exact IH].
Qed.

Lemma get_set_other {A} (m : list (string * A)) (k k' : string) (v : A) :
  k' <> k -> map_get (map_set m k v) k' = map_get m k'.
Proof.
  intros N. unfold map_get. induction m as [|[k0 v0] rest IH]; simpl.
  - apply String.eqb_neq in N. rewrite String.eqb_sym, N. reflexivity.
  - destruct (String.eqb k0 k) eqn:E; simpl.
    + apply String.eqb_eq in E. subst k0.
      apply String.eqb_neq in N. rewrite String.eqb_sym, N. reflexivity.
    + destruct (String.eqb k0 k'); [reflexivity|exact IH].
Qed.

Lemma get_set {A} (m : list (string * A)) (k k' : string) (v : A) :
  map_get (map_set m k v) k' = if String.eqb k' k then Some v else map_get m k'.
Proof.
  destruct (String.eqb k' k) eqn:E.
  - apply String.eqb_eq in E. subst. apply get_set_same.
  - apply String.eqb_neq in E. apply get_set_other, E.
Qed.

End MapFacts.

(* ================================================================== *)
(** * The merge on documents with inherited key names *)
(* ================================================================== *)

Module MergeRuns.
Import Path Config Merge.

Definition entity_E : entityConfig :=
  {| c_id := "E"; c_label := ""; c_pk := "id"; c_displayField := ""; c_color := "" |}.

Definition whole_document (id : string) (json : value) : call :=
  {| call_id := id; call_name := id; call_parsedJson := json;
     call_extractions := Some [ {| x_entity := "E"; x_path := "$" |} ] |}.

(** [{"id": 1, "constructor": "Acme"}] *)
Definition constructor_doc : value :=
  VObj [("id", VNum 1); ("constructor", VStr "Acme")].

(** [{"id": 1, "__proto__": {"k": 5}}] *)
Definition proto_doc : value :=
  VObj [("id", VNum 1); ("__proto__", VObj [("k", VNum 5)])].

(** C4.  [parsePath] raises on ["a["] and on ["a[x]"], but its error is not
    the only failure that reaches the caller: for a document with the
    property ["constructor": "Acme"], extracted with key [id], the merge
    reads [conflicts["constructor"]], finds the inherited built-in instead of
    a list and raises a [TypeError] when it calls [push] on it. *)
Theorem merge_raises_type_error `{Host} :
  parsePath "a[" = Throw (PathError UnclosedBracket)
  /\ parsePath "a[x]" = Throw (PathError (InvalidAccessor "x"))
  /\ computeNodeMappings [entity_E] [whole_document "c1" constructor_doc] = Throw TypeError.
Proof. repeat split. Qed.

(** C9.  A run of the merge can leave state behind.  For a document with the
    property ["__proto__": {"k": 5}], extracted with key [id],
    [deepMergeWithTracking] reads [target["__proto__"]], gets
    [Object.prototype], recurses into it and assigns its property [k]: every
    object of a later run inherits [k]. *)
Theorem merge_writes_object_prototype `{Host} :
  computeNodeMappings [entity_E] [whole_document "c1" proto_doc]
  = Escape (WritesObjectPrototype "k").
Proof. reflexivity. Qed.

End MergeRuns.
(* ================================================================== *)
(** * Properties of the grouping pass *)
(* ================================================================== *)

Module GroupFacts.
Import Path Config Keys Merge MapFacts.

Section WithHost.
Context `{Host}.

(** The primary key of a member of a group resolves to a value other than
    [null] and [undefined]. *)
Definition keyed (item : groupItem) : Prop :=
  exists pk,
    resolvePkValue (gi_data item) (or_else (c_pk (gi_entityConfig item)) "id") = Ok pk
    /\ nullish pk = false.


Ltac bind_inv H :=
  match type of H with
  | bind ?m _ = Ok _ =>
      let E := fresh "E" in
      destruct m eqn:E; cbn [bind] in H; [|discriminate H|discriminate H]
  end.



(** An invariant of the step on one match is an invariant of the first
    pass. *)
Section FirstPassInvariant.
Variable P : collected -> Prop.
Hypothesis step :
  forall c x entityConfig st st' result,
    P st -> collect_result c x entityConfig st result = Ok st' -> P st'.




End FirstPassInvariant.






(** ** The first pass as a list of steps *)



















End WithHost.




End GroupFacts.
(* ================================================================== *)
(** * Properties of the edge deriver *)
(* ================================================================== *)

Module EdgeFacts.
Import Path Config Engine MapFacts.

(** The id under which an edge is remembered in [edgeSet]. *)
Definition edge_id (source target : string) : string :=
  "inter-" +++ source +++ "-" +++ target.

(** [entityIndex.get(type)?.get(text)] *)
Definition indexed_id (entityIndex : list (string * list (string * string)))
    (type text : string) : option string :=
  match map_get entityIndex type with
  | Some byPk => map_get byPk text
  | None => None
  end.

Section WithHost.
Context `{Host}.

Ltac bind_inv H :=
  match type of H with
  | bind ?m _ = Ok _ =>
      let E := fresh "E" in
      destruct m eqn:E; cbn [bind] in H; [|discriminate H|discriminate H]
  end.

(** Every entry of the index is the id of an entity of that type whose key
    prints as the entry says, and every entity has an entry. *)
Lemma build_index_spec (ents : list entity) (idx0 idx : list (string * list (string * string))) :
  build_index ents idx0 = Ok idx ->
  (forall type text s, indexed_id idx type text = Some s ->
     indexed_id idx0 type text = Some s
     \/ exists e, In e ents /\ e_type e = type /\ to_string (e_pk e) = Ok text /\ e_id e = s)
  /\ (forall type text, indexed_id idx0 type text <> None -> indexed_id idx type text <> None)
  /\ (forall e, In e ents ->
        exists text, to_string (e_pk e) = Ok text /\ indexed_id idx (e_type e) text <> None).
Proof.
  revert idx0; induction ents as [|ent rest IH]; intros idx0 E; simpl in E.
  - injection E as <-. repeat split; auto. intros e [].
  - bind_inv E. rename a into pkText.
    destruct (IH _ E) as [S [K C]]. clear IH.
    set (byPk := match map_get idx0 (e_type ent) with Some m => m | None => [] end) in *.
    assert (Hnew : forall type text,
               indexed_id (map_set idx0 (e_type ent) (map_set byPk pkText (e_id ent))) type text
               = if String.eqb type (e_type ent) && String.eqb text pkText
                 then Some (e_id ent) else indexed_id idx0 type text).
    { intros type text. unfold indexed_id.
      destruct (String.eqb type (e_type ent)) eqn:Et.
      - apply String.eqb_eq in Et. subst type. rewrite get_set_same.
        destruct (String.eqb text pkText) eqn:Ex; cbn [andb].
        + apply String.eqb_eq in Ex. subst text. apply get_set_same.
        + apply String.eqb_neq in Ex. rewrite (get_set_other _ _ _ _ Ex).
          unfold byPk. destruct (map_get idx0 (e_type ent)); reflexivity.
      - apply String.eqb_neq in Et. rewrite (get_set_other _ _ _ _ Et). reflexivity. }
    repeat split.
    + intros type text s Hs. destruct (S type text s Hs) as [Hold|[e [He Hr]]].
      * rewrite Hnew in Hold.
        destruct (String.eqb type (e_type ent) && String.eqb text pkText) eqn:Eq.
        -- apply andb_true_iff in Eq as [Et Ex].
           apply String.eqb_eq in Et, Ex. subst. injection Hold as <-.
           right. exists ent. repeat split; auto. left; reflexivity.
        -- left; exact Hold.
      * right. exists e. split; [right; exact He|exact Hr].
    + intros type text Hs. apply K. rewrite Hnew.
      destruct (_ && _); [discriminate|exact Hs].
    + intros e [<-|He].
      * exists pkText. split; [exact E0|]. apply K. rewrite Hnew, !String.eqb_refl. discriminate.
      * apply C, He.
Qed.

(** A relation and one of its target entities select a source: the foreign
    key of the target is present and the index of the source type holds an
    entity under its string. *)
Definition hit (entityIndex : list (string * list (string * string)))
    (ents : list entity) (rel : relation) (toEntity : entity) (source : string) : Prop :=
  r_toFk rel <> ""
  /\ In toEntity ents
  /\ e_type toEntity = r_to rel
  /\ exists fkValue fkText,
       evaluatePathSingle (e_data toEntity) (PStr (r_toFk rel)) = Ok fkValue
       /\ nullish fkValue = false
       /\ to_string fkValue = Ok fkText
       /\ indexed_id entityIndex (r_from rel) fkText = Some source
       /\ source <> "".

(** The state of the loops: the ids in [edgeSet] are those of the edges,
    without repetition, and the id of an edge is made of its ends. *)
Definition consistent (st : list edge * list string) : Prop :=
  snd st = map g_id (fst st)
  /\ NoDup (snd st)
  /\ Forall (fun g => g_id g = edge_id (g_source g) (g_target g)) (fst st).

Ltac split4 := split; [|split; [|split]].

Lemma existsb_eqb_In (x : string) (l : list string) :
  existsb (String.eqb x) l = true <-> In x l.
Proof.
  rewrite existsb_exists. split.
  - intros [y [Hy E]]. apply String.eqb_eq in E. subst. exact Hy.
  - intros Hx. exists x. split; [exact Hx|apply String.eqb_refl].
Qed.

Lemma link_entity_spec (entityIndex : list (string * list (string * string)))
    (ents : list entity) (rel : relation) (fromEntities : list (string * string))
    (st st' : list edge * list string) (toEntity : entity) :
  r_toFk rel <> "" ->
  map_get entityIndex (r_from rel) = Some fromEntities ->
  In toEntity ents -> e_type toEntity = r_to rel ->
  link_entity fromEntities (r_toFk rel) st toEntity = Ok st' ->
  consistent st ->
  consistent st'
  /\ (forall g, In g (fst st') ->
        In g (fst st)
        \/ (hit entityIndex ents rel toEntity (g_source g) /\ g_target g = e_id toEntity))
  /\ (forall i, In i (snd st) -> In i (snd st'))
  /\ (forall s, hit entityIndex ents rel toEntity s ->
        In (edge_id s (e_id toEntity)) (snd st')).
Proof.
  intros Hfk Hidx Hin Hty E [C1 [C2 C3]].
  unfold link_entity in E. bind_inv E. rename a into fkValue.
  assert (Det : forall s, hit entityIndex ents rel toEntity s ->
            nullish fkValue = false
            /\ exists fkText, to_string fkValue = Ok fkText
                 /\ map_get fromEntities fkText = Some s /\ s <> "").
  { intros s [_ [_ [_ [v [t [Ev [Nv [Tv [Iv Sv]]]]]]]]].
    rewrite E0 in Ev. injection Ev as <-. split; [exact Nv|].
    exists t. unfold indexed_id in Iv. rewrite Hidx in Iv. auto. }
  destruct (nullish fkValue) eqn:N.
  { injection E as <-. repeat split; auto.
    intros s Hs. destruct (Det s Hs) as [Hn _]. discriminate Hn. }
  bind_inv E. rename a into fkText.
  assert (Det' : forall s, hit entityIndex ents rel toEntity s ->
            map_get fromEntities fkText = Some s /\ s <> "").
  { intros s Hs. destruct (Det s Hs) as [_ [t [Et R]]].
    injection Et as <-. exact R. }
  destruct (map_get fromEntities fkText) as [fromEntityId|] eqn:G.
  2:{ injection E as <-. repeat split; auto.
      intros s Hs. destruct (Det' s Hs) as [Hn _]. discriminate Hn. }
  destruct (String.eqb fromEntityId "") eqn:Ee.
  { injection E as <-. repeat split; auto.
    intros s Hs. destruct (Det' s Hs) as [Hs1 Hs2]. injection Hs1 as <-.
    apply String.eqb_eq in Ee. contradiction. }
  assert (Hhit : hit entityIndex ents rel toEntity fromEntityId).
  { repeat split; auto. exists fkValue, fkText. repeat split; auto.
    - unfold indexed_id. rewrite Hidx. exact G.
    - apply String.eqb_neq. exact Ee. }
  fold (edge_id fromEntityId (e_id toEntity)) in E.
  destruct (existsb _ (snd st)) eqn:X.
  { injection E as <-. repeat split; auto.
    intros s Hs. destruct (Det' s Hs) as [Hs1 _]. injection Hs1 as <-.
    apply existsb_eqb_In. exact X. }
  injection E as <-. unfold consistent. cbn [fst snd]. repeat split.
  - rewrite map_app, C1. reflexivity.
  - rewrite C1 in *. apply NoDup_app; [exact C2|constructor; [intros []|constructor]|].
    intros i Hi [<-|[]]. apply existsb_eqb_In in Hi. rewrite Hi in X. discriminate X.
  - apply Forall_app; split; [exact C3|]. constructor; [reflexivity|constructor].
  - intros g Hg. apply in_app_iff in Hg as [Hg|[<-|[]]]; [left; exact Hg|right].
    cbn. split; [exact Hhit|reflexivity].
  - intros i Hi. apply in_app_iff. left; exact Hi.
  - intros s Hs. destruct (Det' s Hs) as [Hs1 _]. injection Hs1 as <-.
    apply in_app_iff. right. left. reflexivity.
Qed.

Lemma link_entities_spec (entityIndex : list (string * list (string * string)))
    (ents : list entity) (rel : relation) (fromEntities : list (string * string))
    (toEntities : list entity) (st st' : list edge * list string) :
  r_toFk rel <> "" ->
  map_get entityIndex (r_from rel) = Some fromEntities ->
  Forall (fun t => In t ents /\ e_type t = r_to rel) toEntities ->
  link_entities fromEntities (r_toFk rel) st toEntities = Ok st' ->
  consistent st ->
  consistent st'
  /\ (forall g, In g (fst st') ->
        In g (fst st)
        \/ exists t, hit entityIndex ents rel t (g_source g) /\ g_target g = e_id t)
  /\ (forall i, In i (snd st) -> In i (snd st'))
  /\ (forall t s, In t toEntities -> hit entityIndex ents rel t s ->
        In (edge_id s (e_id t)) (snd st')).
Proof.
  intros Hfk Hidx F. revert st.
  induction F as [|t rest [Hin Hty] F IH]; intros st E C; simpl in E.
  - injection E as <-. split4; auto. intros t s [].
  - bind_inv E. rename a into st1.
    destruct (link_entity_spec _ _ _ _ _ _ _ Hfk Hidx Hin Hty E0 C) as [C1 [S1 [M1 H1]]].
    destruct (IH _ E C1) as [C2 [S2 [M2 H2]]].
    split; [exact C2|]. split; [|split].
    + intros g Hg. destruct (S2 g Hg) as [Hg1|Hr]; [|right; exact Hr].
      destruct (S1 g Hg1) as [Hg0|[Hh Ht]]; [left; exact Hg0|].
      right. exists t. split; assumption.
    + intros i Hi. apply M2, M1, Hi.
    + intros t0 s [<-|Ht0] Hs.
      * apply M2, H1, Hs.
      * apply (H2 t0 s Ht0 Hs).
Qed.

Lemma link_relation_spec (entityIndex : list (string * list (string * string)))
    (ents : list entity) (rel : relation) (st st' : list edge * list string) :
  link_relation ents entityIndex st rel = Ok st' ->
  consistent st ->
  consistent st'
  /\ (forall g, In g (fst st') ->
        In g (fst st)
        \/ exists t, hit entityIndex ents rel t (g_source g) /\ g_target g = e_id t)
  /\ (forall i, In i (snd st) -> In i (snd st'))
  /\ (forall t s, hit entityIndex ents rel t s -> In (edge_id s (e_id t)) (snd st')).
Proof.
  intros E C. unfold link_relation in E.
  destruct (String.eqb (r_toFk rel) "") eqn:Efk.
  { injection E as <-. split4; auto.
    intros t s [Hn _]. apply String.eqb_eq in Efk. contradiction. }
  apply String.eqb_neq in Efk.
  destruct (map_get entityIndex (r_from rel)) as [fromEntities|] eqn:Hidx.
  2:{ injection E as <-. split4; auto.
      intros t s [_ [_ [_ [v [x [_ [_ [_ [Hi _]]]]]]]]].
      unfold indexed_id in Hi. rewrite Hidx in Hi. discriminate Hi. }
  assert (E' : link_entities fromEntities (r_toFk rel) st
                 (filter (fun e => String.eqb (e_type e) (r_to rel)) ents) = Ok st').
  { destruct (filter _ ents); [simpl; exact E|exact E]. }
  clear E.
  assert (F : Forall (fun t => In t ents /\ e_type t = r_to rel)
                (filter (fun e => String.eqb (e_type e) (r_to rel)) ents)).
  { apply Forall_forall. intros t Ht. apply filter_In in Ht as [Hin Ht].
    apply String.eqb_eq in Ht. split; assumption. }
  destruct (link_entities_spec _ _ _ _ _ _ _ Efk Hidx F E' C) as [C' [S [M Hh]]].
  split4; auto.
  intros t s Hs. apply (Hh t s); [|exact Hs].
  destruct Hs as [_ [Hin [Hty _]]]. apply filter_In. split; [exact Hin|].
  apply String.eqb_eq. exact Hty.
Qed.

Lemma link_relations_spec (entityIndex : list (string * list (string * string)))
    (ents : list entity) (rels : list relation) (st st' : list edge * list string) :
  link_relations ents entityIndex st rels = Ok st' ->
  consistent st ->
  consistent st'
  /\ (forall g, In g (fst st') ->
        In g (fst st)
        \/ exists rel t, In rel rels /\ hit entityIndex ents rel t (g_source g)
                         /\ g_target g = e_id t)
  /\ (forall i, In i (snd st) -> In i (snd st'))
  /\ (forall rel t s, In rel rels -> hit entityIndex ents rel t s ->
        In (edge_id s (e_id t)) (snd st')).
Proof.
  revert st; induction rels as [|rel rest IH]; intros st E C; simpl in E.
  - injection E as <-. split4; auto. intros rel t s [].
  - bind_inv E. rename a into st1.
    destruct (link_relation_spec _ _ _ _ _ E0 C) as [C1 [S1 [M1 H1]]].
    destruct (IH _ E C1) as [C2 [S2 [M2 H2]]].
    split; [exact C2|]. split; [|split].
    + intros g Hg. destruct (S2 g Hg) as [Hg1|[r [t [Hr Ht]]]].
      * destruct (S1 g Hg1) as [Hg0|[t [Hh Ht]]]; [left; exact Hg0|].
        right. exists rel, t. split; [left; reflexivity|split; assumption].
      * right. exists r, t. split; [right; exact Hr|exact Ht].
    + intros i Hi. apply M2, M1, Hi.
    + intros r t s [<-|Hr] Hs.
      * apply M2, (H1 t s Hs).
      * apply (H2 r t s Hr Hs).
Qed.

(** What [calculateInterEdges] returns: every edge joins the entity that the
    index of the source type holds under the string of the foreign key of a
    target entity of the relation to that target entity; every such hit is
    answered by an edge with the id [inter-<source>-<target>] of the hit; a
    foreign key that is missing and a string that the index does not hold
    change nothing and raise nothing; no two returned edges have the same
    id. *)
Lemma inter_edges_are_the_hits (ents : list entity) (relations : list relation)
    (edges : list edge) :
  calculateInterEdges ents relations = Ok edges ->
  exists entityIndex,
    build_index ents [] = Ok entityIndex
    /\ (forall type text s, indexed_id entityIndex type text = Some s ->
          exists e, In e ents /\ e_type e = type /\ to_string (e_pk e) = Ok text /\ e_id e = s)
    /\ (forall e, In e ents ->
          exists text, to_string (e_pk e) = Ok text
                       /\ indexed_id entityIndex (e_type e) text <> None)
    /\ (forall g, In g edges ->
          g_id g = edge_id (g_source g) (g_target g)
          /\ exists rel t, In rel relations /\ hit entityIndex ents rel t (g_source g)
                           /\ g_target g = e_id t)
    /\ (forall rel t s, In rel relations -> hit entityIndex ents rel t s ->
          (exists g, In g edges /\ g_id g = edge_id s (e_id t))
          /\ ((forall g, In g edges -> g_id g = edge_id s (e_id t) ->
                 g_source g = s /\ g_target g = e_id t) ->
              exists g, In g edges /\ g_source g = s /\ g_target g = e_id t))
    /\ (forall fromEntities toFk st t fkValue,
          evaluatePathSingle (e_data t) (PStr toFk) = Ok fkValue ->
          (nullish fkValue = true
           \/ exists fkText, to_string fkValue = Ok fkText
                             /\ map_get fromEntities fkText = None) ->
          link_entity fromEntities toFk st t = Ok st)
    /\ NoDup (map g_id edges)
    /\ NoDup (map (fun g => (g_source g, g_target g)) edges).
Proof.
  intros E. unfold calculateInterEdges in E. bind_inv E. rename a into entityIndex.
  bind_inv E. rename a into st. injection E as <-.
  exists entityIndex. split; [reflexivity|].
  destruct (build_index_spec _ _ _ E0) as [S [_ C]].
  assert (C0 : consistent (@nil edge, @nil string)).
  { repeat split; constructor. }
  destruct (link_relations_spec _ _ _ _ _ E1 C0) as [[K1 [K2 K3]] [Snd [_ Cmp]]].
  assert (Hcomplete : forall rel t s, In rel relations -> hit entityIndex ents rel t s ->
            exists g, In g (fst st) /\ g_id g = edge_id s (e_id t)).
  { intros rel t s Hr Hh. specialize (Cmp rel t s Hr Hh). rewrite K1 in Cmp.
    apply in_map_iff in Cmp as [g [Hg Hin]]. exists g. split; assumption. }
  split; [|split; [|split; [|split; [|split; [|split]]]]].
  - intros type text s Hs. destruct (S type text s Hs) as [Hn|He]; [|exact He].
    discriminate Hn.
  - exact C.
  - intros g Hg. split.
    + rewrite Forall_forall in K3. apply K3, Hg.
    + destruct (Snd g Hg) as [[]|Hr]. exact Hr.
  - intros rel t s Hr Hh. split; [apply (Hcomplete rel t s Hr Hh)|].
    intros Hinj. destruct (Hcomplete rel t s Hr Hh) as [g [Hg Hid]].
    exists g. split; [exact Hg|]. apply Hinj; assumption.
  - intros fromEntities toFk st0 t fkValue Ev Hmiss. unfold link_entity. rewrite Ev. cbn [bind].
    destruct Hmiss as [N|[fkText [Et Em]]]; [rewrite N; reflexivity|].
    destruct (nullish fkValue); [reflexivity|]. rewrite Et. cbn [bind]. rewrite Em. reflexivity.
  - rewrite <- K1. exact K2.
  - assert (Hmap : map g_id (fst st)
                   = map (fun p => edge_id (fst p) (snd p))
                       (map (fun g => (g_source g, g_target g)) (fst st))).
    { rewrite map_map. apply map_ext_in. intros g Hg. cbn.
      rewrite Forall_forall in K3. apply K3, Hg. }
    rewrite K1, Hmap in K2. apply NoDup_map_inv in K2. exact K2.
Qed.

End WithHost.

(** Two source entities [user-x] and [user-x-y] and two target entities
    [y-z-1] and [z-1]: the ids of the two hits are both
    [inter-user-x-y-z-1]. *)
Definition collision_entities : list entity :=
  [ {| e_id := "user-x"; e_type := "user"; e_pk := VStr "x";
       e_data := VObj [("id", VStr "x")]; e_label := "x"; e_color := "#4F46E5";
       e_callId := "c1"; e_extractPath := "users.0" |};
    {| e_id := "user-x-y"; e_type := "user"; e_pk := VStr "x-y";
       e_data := VObj [("id", VStr "x-y")]; e_label := "x-y"; e_color := "#4F46E5";
       e_callId := "c1"; e_extractPath := "users.1" |};
    {| e_id := "y-z-1"; e_type := "y"; e_pk := VStr "z-1";
       e_data := VObj [("id", VStr "z-1"); ("u", VStr "x")]; e_label := "z-1";
       e_color := "#4F46E5"; e_callId := "c1"; e_extractPath := "ys.0" |};
    {| e_id := "z-1"; e_type := "z"; e_pk := VNum 1;
       e_data := VObj [("id", VNum 1); ("u", VStr "x-y")]; e_label := "1";
       e_color := "#4F46E5"; e_callId := "c1"; e_extractPath := "zs.0" |} ].

Definition collision_relations : list relation :=
  [ {| r_from := "user"; r_to := "y"; r_toFk := "u"; r_fromPk := "" |};
    {| r_from := "user"; r_to := "z"; r_toFk := "u"; r_fromPk := "" |} ].

(** C7.  A hit can be lost.  The guard against duplicates compares the
    strings [inter-<source>-<target>], and two different pairs can give one
    string: the foreign key of [z-1] is the key of [user-x-y], yet no edge
    from [user-x-y] to [z-1] is returned, because the id of that edge is the
    id of the edge from [user-x] to [y-z-1], which was found first. *)
Theorem edge_id_collision_drops_edge :
  exists edges entityIndex,
    calculateInterEdges (H := bare_host) collision_entities collision_relations = Ok edges
    /\ build_index (H := bare_host) collision_entities [] = Ok entityIndex
    /\ exists rel t s,
         In rel collision_relations
         /\ hit (H := bare_host) entityIndex collision_entities rel t s
         /\ ~ exists g, In g edges /\ g_source g = s /\ g_target g = e_id t.
Proof.
  eexists. eexists. split; [vm_compute; reflexivity|]. split; [vm_compute; reflexivity|].
  exists {| r_from := "user"; r_to := "z"; r_toFk := "u"; r_fromPk := "" |}.
  exists {| e_id := "z-1"; e_type := "z"; e_pk := VNum 1;
            e_data := VObj [("id", VNum 1); ("u", VStr "x-y")]; e_label := "1";
            e_color := "#4F46E5"; e_callId := "c1"; e_extractPath := "zs.0" |}.
  exists "user-x-y".
  split; [right; left; reflexivity|]. split.
  - split; [discriminate|]. split; [right; right; right; left; reflexivity|].
    split; [reflexivity|]. exists (VStr "x-y"), "x-y".
    repeat split; try reflexivity. discriminate.
  - intros [g [[<-|[]] [Hs _]]]. discriminate Hs.
Qed.

End EdgeFacts.
(* ================================================================== *)
(** * Properties of the merge fold *)
(* ================================================================== *)

Module MergeFacts.
Import Path Config Merge MapFacts.

(** What sits at a position of a document or of the accumulator. *)
Inductive kind : Type :=
| KLeaf (v : value)
| KNode.

Definition kind_of (v : value) : kind :=
  match v with
  | VObj _ => KNode
  | _ => KLeaf v
  end.

(** The position reached from [v] along the keys [ks]. *)
Fixpoint val_at (v : value) (ks : list string) : option kind :=
  match ks with
  | [] => Some (kind_of v)
  | k :: rest =>
      match v with
      | VObj entries =>
          match own_property entries k with
          | Some v' => val_at v' rest
          | None => None
          end
      | _ => None
      end
  end.

Definition mkind_of (m : mval) : kind :=
  match m with
  | MLeaf v => KLeaf v
  | MNode _ => KNode
  end.

Fixpoint mval_at (m : mval) (ks : list string) : option kind :=
  match ks with
  | [] => Some (mkind_of m)
  | k :: rest =>
      match m with
      | MNode props =>
          match own_property props k with
          | Some m' => mval_at m' rest
          | None => None
          end
      | MLeaf _ => None
      end
  end.

Definition src_at (entries : list (string * value)) (ks : list string) : option kind :=
  val_at (VObj entries) ks.

Definition tgt_at (target : list (string * mval)) (ks : list string) : option kind :=
  mval_at (MNode target) ks.

(** The string under which the trackers record the position [ks] below the
    prefix [path]: the [fullPath] of the code at every level. *)
Definition path_from (path : string) (ks : list string) : string :=
  fold_left full_path ks path.

(** The conflict records under a path; none when the path has no entry. *)
Definition conflicts_at (tr : trackers) (fullPath : string) : list conflict :=
  match own_property (conflicts tr) fullPath with
  | Some l => l
  | None => []
  end.

(** [old !== undefined && old !== v] on two leaves. *)
Definition differs_val (old v : value) : bool :=
  negb (strict_eq old VUndefined) && negb (strict_eq old v).

Fixpoint unique_keys {A} (entries : list (string * A)) : bool :=
  match entries with
  | [] => true
  | (k, _) :: rest => negb (existsb (fun kv => String.eqb (fst kv) k) rest) && unique_keys rest
  end.

(** A value of a parsed JSON document in which the keys of an object are
    pairwise distinct and none of them is a name that objects inherit. *)
Fixpoint plain (v : value) : bool :=
  match v with
  | VObj entries =>
      unique_keys entries
      && forallb (fun kv => negb (inherited_name (fst kv))) entries
      && (fix all (es : list (string * value)) : bool :=
            match es with
            | [] => true
            | (_, v') :: rest => plain v' && all rest
            end) entries
  | VNull | VBool _ | VNum _ | VStr _ | VArr _ _ => true
  | VUndefined | VFun _ | VObjectPrototype => false
  end.

(** No position is a leaf in one document and an object in the other. *)
Fixpoint agree_shape (a b : value) : bool :=
  match a with
  | VObj ea =>
      match b with
      | VObj eb =>
          (fix all (es : list (string * value)) : bool :=
             match es with
             | [] => true
             | (k, va) :: rest =>
                 match own_property eb k with
                 | Some vb => agree_shape va vb
                 | None => true
                 end && all rest
             end) ea
      | _ => false
      end
  | _ =>
      match b with
      | VObj _ => false
      | _ => true
      end
  end.

Lemma plain_obj (entries : list (string * value)) :
  plain (VObj entries) = true ->
  unique_keys entries = true
  /\ Forall (fun kv => inherited_name (fst kv) = false /\ plain (snd kv) = true) entries.
Proof.
  cbn [plain]. intros E. apply andb_true_iff in E as [E E3].
  apply andb_true_iff in E as [E1 E2]. split; [exact E1|].
  clear E1. induction entries as [|[k v] rest IH]; [constructor|].
  cbn in E2. apply andb_true_iff in E2 as [Ek E2].
  apply andb_true_iff in E3 as [Ev E3].
  constructor; [|apply IH; assumption].
  cbn. split; [apply negb_true_iff, Ek|exact Ev].
Qed.

Lemma plain_tail (k : string) (v : value) (rest : list (string * value)) :
  plain (VObj ((k, v) :: rest)) = true -> plain (VObj rest) = true.
Proof.
  cbn [plain unique_keys forallb]. intros E.
  apply andb_true_iff in E as [E E3]. apply andb_true_iff in E as [E1 E2].
  apply andb_true_iff in E1 as [_ E1]. apply andb_true_iff in E2 as [_ E2].
  apply andb_true_iff in E3 as [_ E3]. rewrite E1, E2, E3. reflexivity.
Qed.

Lemma unique_keys_head {A} (k : string) (v : A) (rest : list (string * A)) :
  unique_keys ((k, v) :: rest) = true -> own_property rest k = None.
Proof.
  cbn [unique_keys]. intros E. apply andb_true_iff in E as [E _].
  apply negb_true_iff in E.
  induction rest as [|[k' v'] rest IH]; [reflexivity|].
  cbn in E. apply orb_false_iff in E as [E1 E2]. cbn. rewrite E1. apply IH, E2.
Qed.

Lemma agree_shape_obj (ea eb : list (string * value)) (k : string) (va vb : value) :
  agree_shape (VObj ea) (VObj eb) = true ->
  own_property ea k = Some va -> own_property eb k = Some vb ->
  agree_shape va vb = true.
Proof.
  cbn [agree_shape]. induction ea as [|[k0 v0] rest IH]; [discriminate 2|].
  intros E Ha Hb. apply andb_true_iff in E as [E0 E]. cbn in Ha.
  destruct (String.eqb k0 k) eqn:Ek.
  - apply String.eqb_eq in Ek. subst k0. injection Ha as ->.
    rewrite Hb in E0. exact E0.
  - apply IH; assumption.
Qed.

(** Two documents of agreeing shape never hold a leaf and an object at the
    same position. *)
Lemma agree_shape_at (ks : list string) (a b : value) (x : value) :
  agree_shape a b = true ->
  (val_at a ks = Some (KLeaf x) -> val_at b ks <> Some KNode)
  /\ (val_at a ks = Some KNode -> forall y, val_at b ks <> Some (KLeaf y)).
Proof.
  revert a b; induction ks as [|k rest IH]; intros a b E.
  - cbn [val_at]. split.
    + intros Ha Hb. destruct a; destruct b; cbn in *; discriminate.
    + intros Ha y Hb. destruct a; destruct b; cbn in *; discriminate.
  - cbn [val_at].
    destruct a as [| |?|?|?|? ?|ea|?|];
      try (split; intros H0; discriminate H0).
    destruct (own_property ea k) as [va|] eqn:Ha; [|split; intros H0; discriminate H0].
    destruct b as [| |?|?|?|? ?|eb|?|];
      try (split; [intros _ H0|intros _ y H0]; discriminate H0).
    destruct (own_property eb k) as [vb|] eqn:Hb;
      [|split; [intros _ H0|intros _ y H0]; discriminate H0].
    apply IH. eapply agree_shape_obj; eassumption.
Qed.

(** A name that objects inherit contains no dot, so a path below a prefix
    is never such a name. *)
Lemma inherited_name_no_dot (s : string) :
  inherited_name s = true -> Str.includes s "." = false.
Proof.
  unfold inherited_name, is_member. intros E. apply orb_true_iff in E as [E|E].
  - apply String.eqb_eq in E. subst. reflexivity.
  - apply existsb_exists in E as [x [Hx E]]. apply String.eqb_eq in E. subst x.
    cbn in Hx. repeat (destruct Hx as [<-|Hx]; [reflexivity|]). destruct Hx.
Qed.

Lemma includes_append_dot (p k : string) :
  Str.includes (p +++ "." +++ k) "." = true.
Proof.
  unfold Str.includes. induction p as [|c p IH]; cbn.
  - reflexivity.
  - destruct (Ascii.eqb c "."); [reflexivity|]. cbn in IH.
    destruct (Str.indexOf _ _); [reflexivity|exact IH].
Qed.

Lemma full_path_not_inherited (path key : string) :
  inherited_name key = false -> inherited_name (full_path path key) = false.
Proof.
  intros E. unfold full_path. destruct (String.eqb path ""); [exact E|].
  destruct (inherited_name (path +++ "." +++ key)) eqn:I; [|reflexivity].
  apply inherited_name_no_dot in I. rewrite includes_append_dot in I. discriminate I.
Qed.

Section MergeOne.

Ltac bind_inv H :=
  match type of H with
  | bind ?m _ = Ok _ =>
      let E := fresh "E" in
      destruct m eqn:E; cbn [bind] in H; [|discriminate H|discriminate H]
  end.

Lemma own_property_cons {A} (k k0 : string) (v : A) (rest : list (string * A)) :
  own_property ((k, v) :: rest) k0 = if String.eqb k k0 then Some v else own_property rest k0.
Proof. reflexivity. Qed.

Lemma own_set {A} (m : list (string * A)) (k k' : string) (v : A) :
  own_property (map_set m k v) k' = if String.eqb k k' then Some v else own_property m k'.
Proof.
  change (own_property (map_set m k v) k') with (map_get (map_set m k v) k').
  rewrite get_set, String.eqb_sym. reflexivity.
Qed.

Lemma tgt_at_cons (t : list (string * mval)) (k : string) (ks : list string) :
  tgt_at t (k :: ks)
  = match own_property t k with
    | Some m => mval_at m ks
    | None => None
    end.
Proof. reflexivity. Qed.

Lemma src_at_cons (es : list (string * value)) (k : string) (ks : list string) :
  src_at es (k :: ks)
  = match own_property es k with
    | Some v => val_at v ks
    | None => None
    end.
Proof. reflexivity. Qed.

Lemma push_ok {A} (dict : list (string * list A)) (fullPath : string) (x : A) :
  inherited_name fullPath = false ->
  push dict fullPath x
  = Ok (map_set dict fullPath
          (match own_property dict fullPath with Some l => l | None => [] end ++ [x])).
Proof.
  intros E. unfold push. destruct (own_property dict fullPath); [reflexivity|].
  rewrite E. reflexivity.
Qed.

(** The loop inside [merge_value] is [merge_entries]. *)
Lemma merge_value_obj (info : sourceInfo) (entries : list (string * value)) (key path : string)
    (target : list (string * mval)) (tr : trackers) :
  inherited_name key = false ->
  merge_value info (VObj entries) key path target tr
  = (res <- merge_entries info entries (full_path path key)
             (match own_property target key with
              | Some (MNode child) => child
              | _ => []
              end) tr ;;
     Ok (map_set target key (MNode (fst res)), snd res)).
Proof.
  intros I.
  assert (F : forall es tgt tr0,
    (fix each (es : list (string * Js.value)) (tgt : list (string * mval))
         (tr : trackers) {struct es} : outcome (list (string * mval) * trackers) :=
       match es with
       | [] => Ok (tgt, tr)
       | (k, v) :: rest =>
           r <- merge_value info v k (full_path path key) tgt tr ;;
           each rest (fst r) (snd r)
       end) es tgt tr0
    = merge_entries info es (full_path path key) tgt tr0).
  { induction es as [|[k v] rest IH]; intros tgt tr0; [reflexivity|].
    cbn [merge_entries]. destruct (merge_value info v k (full_path path key) tgt tr0);
      cbn [bind]; [apply IH|reflexivity|reflexivity]. }
  cbn [merge_value]. unfold read. rewrite I.
  assert (K : String.eqb key "__proto__" = false).
  { unfold inherited_name in I. apply orb_false_iff in I as [I _]. exact I. }
  destruct (own_property target key) as [[v|child]|]; rewrite ?K, F; reflexivity.
Qed.

(** The record that a leaf of one source leaves when it replaces [old]. *)
Definition records (info : sourceInfo) (old x : value) (rec : conflict) : Prop :=
  k_oldValue rec = MLeaf old
  /\ k_newValue rec = x
  /\ k_sourceIndex rec = s_sourceIndex info
  /\ k_callId rec = s_callId info.

(** How one round of merging moves the conflict records: [src] and [tgt]
    give what the source and the accumulator hold at the positions below
    the prefix [p].  Records are only added; a record is added for a
    position exactly when the source has a leaf there and the accumulator
    holds a leaf that differs from it. *)
Definition tracked_spec (info : sourceInfo) (src tgt : list string -> option kind)
    (p : string) (tr tr' : trackers) : Prop :=
  (forall K rec, In rec (conflicts_at tr K) -> In rec (conflicts_at tr' K))
  /\ (forall K rec, In rec (conflicts_at tr' K) ->
        In rec (conflicts_at tr K)
        \/ exists ks old,
             K = path_from p ks
             /\ src ks = Some (KLeaf (k_newValue rec))
             /\ tgt ks = Some (KLeaf old)
             /\ differs_val old (k_newValue rec) = true
             /\ records info old (k_newValue rec) rec)
  /\ (forall ks x old,
        src ks = Some (KLeaf x) -> tgt ks = Some (KLeaf old) ->
        differs_val old x = true ->
        exists rec, In rec (conflicts_at tr' (path_from p ks)) /\ records info old x rec)
  /\ ((forall K, own_property (conflicts tr) K <> Some []) ->
      forall K, own_property (conflicts tr') K <> Some []).

Definition is_leaf (v : value) : bool :=
  match v with
  | VObj _ | VObjectPrototype => false
  | _ => true
  end.

Lemma val_at_leaf (v : value) (ks : list string) :
  is_leaf v = true ->
  val_at v ks = match ks with [] => Some (KLeaf v) | _ :: _ => None end.
Proof. destruct v; try discriminate 1; destruct ks; reflexivity. Qed.

Lemma conflicts_at_set (cs : list (string * list conflict))
    (ps : list (string * list contribution)) (K K' : string) (l : list conflict) :
  conflicts_at {| conflicts := map_set cs K l; propertySources := ps |} K'
  = if String.eqb K K' then l else conflicts_at {| conflicts := cs; propertySources := ps |} K'.
Proof.
  unfold conflicts_at. cbn [conflicts]. rewrite own_set.
  destruct (String.eqb K K'); reflexivity.
Qed.

(** What merging does for one key of a source. *)
Definition value_spec (v : value) : Prop :=
  forall info k p t tr,
    plain v = true -> inherited_name k = false ->
    (forall ks x, val_at v ks = Some (KLeaf x) -> tgt_at t (k :: ks) <> Some KNode) ->
    exists t' tr',
      merge_value info v k p t tr = Ok (t', tr')
      /\ (forall k0 r,
            tgt_at t' (k0 :: r)
            = if String.eqb k k0
              then match val_at v r with
                   | Some x => Some x
                   | None => tgt_at t (k0 :: r)
                   end
              else tgt_at t (k0 :: r))
      /\ tracked_spec info (val_at v) (fun ks => tgt_at t (k :: ks)) (full_path p k) tr tr'.

Lemma merge_leaf_spec (v : value) : is_leaf v = true -> value_spec v.
Proof.
  intros L info k p t tr Pl I Compat.
  assert (K : String.eqb k "__proto__" = false).
  { unfold inherited_name in I. apply orb_false_iff in I as [I _]. exact I. }
  assert (Ifp := full_path_not_inherited p k I).
  assert (Hm : merge_value info v k p t tr = merge_leaf info v k p t tr).
  { destruct v; try reflexivity; discriminate L. }
  rewrite Hm. unfold merge_leaf, read. rewrite I, K.
  rewrite (push_ok (propertySources tr) _ _ Ifp).
  specialize (Compat [] v (val_at_leaf v [] L)). rewrite tgt_at_cons in Compat.
  set (rec0 old := {| k_callId := s_callId info; k_callName := s_callName info;
                      k_oldValue := old; k_newValue := v;
                      k_sourceIndex := s_sourceIndex info |}).
  assert (Hat : forall t1 k0 r,
            own_property t1 k = Some (MLeaf v) ->
            (forall k1, String.eqb k k1 = false -> own_property t1 k1 = own_property t k1) ->
            tgt_at t1 (k0 :: r)
            = if String.eqb k k0
              then match val_at v r with
                   | Some x => Some x
                   | None => tgt_at t (k0 :: r)
                   end
              else tgt_at t (k0 :: r)).
  { intros t1 k0 r H1 H2. rewrite !tgt_at_cons.
    destruct (String.eqb k k0) eqn:E.
    - apply String.eqb_eq in E. subst k0. rewrite H1, (val_at_leaf v r L).
      destruct r; [reflexivity|]. cbn.
      destruct (own_property t k) as [[old|child]|]; try reflexivity.
      exfalso. apply Compat. reflexivity.
    - rewrite (H2 k0 E). reflexivity. }
  assert (Hset : forall k0 r,
            tgt_at (map_set t k (MLeaf v)) (k0 :: r)
            = if String.eqb k k0
              then match val_at v r with
                   | Some x => Some x
                   | None => tgt_at t (k0 :: r)
                   end
              else tgt_at t (k0 :: r)).
  { intros k0 r. apply Hat.
    - rewrite own_set, String.eqb_refl. reflexivity.
    - intros k1 E. rewrite own_set, E. reflexivity. }
  destruct (own_property t k) as [[old|child]|] eqn:Own;
    [|exfalso; apply Compat; reflexivity|].
  - (* the accumulator holds a leaf *)
    cbn [differs]. fold (differs_val old v).
    destruct (differs_val old v) eqn:D.
    + rewrite (push_ok (conflicts tr) _ _ Ifp). cbn [bind].
      eexists; eexists. split; [reflexivity|]. split; [exact Hset|].
      destruct tr as [cs ps]. cbn [conflicts propertySources old_value].
      change (match own_property cs (full_path p k) with Some l => l | None => [] end)
        with (conflicts_at {| conflicts := cs; propertySources := ps |} (full_path p k)).
      split; [|split; [|split]].
      * intros K0 rec Hin. rewrite conflicts_at_set.
        destruct (String.eqb (full_path p k) K0) eqn:E; [|exact Hin].
        apply String.eqb_eq in E. subst K0. apply in_app_iff. left; exact Hin.
      * intros K0 rec Hin. rewrite conflicts_at_set in Hin.
        destruct (String.eqb (full_path p k) K0) eqn:E; [|left; exact Hin].
        apply String.eqb_eq in E. subst K0.
        apply in_app_iff in Hin as [Hin|[<-|[]]]; [left; exact Hin|right].
        exists [], old. cbn [k_newValue]. rewrite tgt_at_cons, Own.
        repeat split; auto. apply val_at_leaf, L.
      * intros ks x old' Hs Ht Hd. rewrite (val_at_leaf v ks L) in Hs.
        destruct ks; [|discriminate Hs]. injection Hs as <-.
        rewrite tgt_at_cons, Own in Ht. injection Ht as <-.
        eexists. split.
        -- cbn [path_from fold_left]. rewrite conflicts_at_set, String.eqb_refl.
           apply in_app_iff. right. left. reflexivity.
        -- repeat split.
      * intros Hne K0. cbn [conflicts]. rewrite own_set.
        destruct (String.eqb (full_path p k) K0); [|apply Hne].
        intros [= Heq]. apply app_eq_nil in Heq as [_ Heq]. discriminate Heq.
    + cbn [bind]. eexists; eexists. split; [reflexivity|]. split; [exact Hset|].
      destruct tr as [cs ps]. cbn [conflicts propertySources].
      split; [|split; [|split]].
      * intros K0 rec Hin. exact Hin.
      * intros K0 rec Hin. left. exact Hin.
      * intros ks x old' Hs Ht Hd. rewrite (val_at_leaf v ks L) in Hs.
        destruct ks; [|discriminate Hs]. injection Hs as <-.
        rewrite tgt_at_cons, Own in Ht. injection Ht as <-.
        rewrite D in Hd. discriminate Hd.
      * intros Hne. exact Hne.
  - (* the accumulator holds nothing under the key *)
    cbn [differs bind]. eexists; eexists. split; [reflexivity|]. split; [exact Hset|].
    destruct tr as [cs ps]. cbn [conflicts propertySources].
    split; [|split; [|split]].
    + intros K0 rec Hin. exact Hin.
    + intros K0 rec Hin. left. exact Hin.
    + intros ks x old' Hs Ht Hd. rewrite (val_at_leaf v ks L) in Hs.
      destruct ks; [|discriminate Hs].
      rewrite tgt_at_cons, Own in Ht. discriminate Ht.
    + intros Hne. exact Hne.
Qed.

(** What merging does for the entries of an object of a source. *)
Definition entries_spec (es : list (string * value)) : Prop :=
  forall info p t tr,
    plain (VObj es) = true ->
    (forall ks x, src_at es ks = Some (KLeaf x) -> tgt_at t ks <> Some KNode) ->
    exists t' tr',
      merge_entries info es p t tr = Ok (t', tr')
      /\ (forall ks,
            tgt_at t' ks = match src_at es ks with
                           | Some x => Some x
                           | None => tgt_at t ks
                           end)
      /\ tracked_spec info (src_at es) (tgt_at t) p tr tr'.

Lemma src_at_leaf_cons (es : list (string * value)) (ks : list string) (x : value) :
  src_at es ks = Some (KLeaf x) -> exists k r, ks = k :: r.
Proof. destruct ks as [|k r]; [discriminate 1|]. intros _. exists k, r. reflexivity. Qed.

Lemma entries_from_values (es : list (string * value)) :
  Forall (fun kv => value_spec (snd kv)) es -> entries_spec es.
Proof.
  induction 1 as [|[k v] rest Hv _ IH]; intros info p t tr Pl Compat.
  - exists t, tr. split; [reflexivity|]. split; [|split; [|split; [|split]]].
    + intros [|k r]; reflexivity.
    + intros K rec Hin; exact Hin.
    + intros K rec Hin; left; exact Hin.
    + intros [|k r] x old Hs; discriminate Hs.
    + intros Hne; exact Hne.
  - destruct (plain_obj _ Pl) as [U F]. inversion F as [|? ? [Ik Pv] F']; subst.
    cbn [fst snd] in *.
    assert (Nk := unique_keys_head _ _ _ U).
    assert (Hhead : forall r, src_at ((k, v) :: rest) (k :: r) = val_at v r).
    { intros r. rewrite src_at_cons, own_property_cons, String.eqb_refl. reflexivity. }
    assert (Hother : forall k0 r, String.eqb k k0 = false ->
              src_at ((k, v) :: rest) (k0 :: r) = src_at rest (k0 :: r)).
    { intros k0 r E. rewrite !src_at_cons, own_property_cons, E. reflexivity. }
    assert (Hrest : forall r, src_at rest (k :: r) = None).
    { intros r. rewrite src_at_cons, Nk. reflexivity. }
    destruct (Hv info k p t tr Pv Ik) as [t1 [tr1 [E1 [A1 [M1 [S1 [C1 N1]]]]]]].
    { intros ks x Hs. apply (Compat (k :: ks) x). rewrite Hhead. exact Hs. }
    destruct (IH info p t1 tr1 (plain_tail _ _ _ Pl))
      as [t2 [tr2 [E2 [A2 [M2 [S2 [C2 N2]]]]]]].
    { intros ks x Hs. destruct (src_at_leaf_cons _ _ _ Hs) as [k0 [r ->]].
      destruct (String.eqb k k0) eqn:E.
      - apply String.eqb_eq in E. subst k0. rewrite Hrest in Hs. discriminate Hs.
      - rewrite A1, E. apply (Compat (k0 :: r) x). rewrite (Hother _ _ E). exact Hs. }
    exists t2, tr2. split; [cbn [merge_entries]; rewrite E1; cbn [bind fst snd]; exact E2|].
    split; [|split; [|split; [|split]]]; [| | | |intros Hne; apply N2, N1, Hne].
    + intros [|k0 r]; [reflexivity|]. rewrite A2, A1.
      destruct (String.eqb k k0) eqn:E.
      * apply String.eqb_eq in E. subst k0. rewrite Hrest, Hhead. reflexivity.
      * rewrite (Hother _ _ E). reflexivity.
    + intros K rec Hin. apply M2, M1, Hin.
    + intros K rec Hin. destruct (S2 K rec Hin) as [Hin1|[ks [old [HK [Hs [Ht R]]]]]].
      * destruct (S1 K rec Hin1) as [Hin0|[ks [old [HK [Hs [Ht R]]]]]]; [left; exact Hin0|].
        right. exists (k :: ks), old. rewrite Hhead. repeat split; try apply R; assumption.
      * right. destruct (src_at_leaf_cons _ _ _ Hs) as [k0 [r ->]].
        destruct (String.eqb k k0) eqn:E.
        -- apply String.eqb_eq in E. subst k0. rewrite Hrest in Hs. discriminate Hs.
        -- exists (k0 :: r), old. rewrite (Hother _ _ E). rewrite A1, E in Ht.
           repeat split; try apply R; assumption.
    + intros ks x old Hs Ht Hd. destruct (src_at_leaf_cons _ _ _ Hs) as [k0 [r ->]].
      destruct (String.eqb k k0) eqn:E.
      * apply String.eqb_eq in E. subst k0. rewrite Hhead in Hs.
        destruct (C1 r x old Hs Ht Hd) as [rec [Hin R]].
        exists rec. split; [apply M2; exact Hin|exact R].
      * rewrite (Hother _ _ E) in Hs. apply (C2 (k0 :: r) x old Hs); [|exact Hd].
        rewrite A1, E. exact Ht.
Qed.

Lemma value_obj_spec (es : list (string * value)) :
  entries_spec es -> value_spec (VObj es).
Proof.
  intros Q info k p t tr Pl I Compat.
  rewrite (merge_value_obj info es k p t tr I).
  set (child := match own_property t k with Some (MNode c) => c | _ => [] end).
  assert (Hchild : forall r,
            tgt_at child r = match r with
                             | [] => Some KNode
                             | _ :: _ =>
                                 match own_property t k with
                                 | Some (MNode _) => tgt_at t (k :: r)
                                 | _ => None
                                 end
                             end).
  { intros [|k0 r]; [reflexivity|]. unfold child. rewrite (tgt_at_cons t k).
    destruct (own_property t k) as [[old|c]|]; reflexivity. }
  assert (Hnode : forall r x, src_at es r = Some (KLeaf x) -> tgt_at child r = tgt_at t (k :: r)
                              \/ tgt_at child r = None).
  { intros r x Hs. destruct (src_at_leaf_cons _ _ _ Hs) as [k0 [r0 ->]].
    rewrite Hchild. destruct (own_property t k) as [[old|c]|]; auto. }
  destruct (Q info (full_path p k) child tr Pl) as [c' [tr' [E [A [M [S [C N]]]]]]].
  { intros ks x Hs Ht. destruct (Hnode ks x Hs) as [Hc|Hc]; rewrite Hc in Ht.
    - apply (Compat ks x Hs Ht).
    - discriminate Ht. }
  rewrite E. cbn [bind fst snd]. exists (map_set t k (MNode c')), tr'.
  split; [reflexivity|]. split; [|split; [|split; [|split]]]; [| | | |exact N].
  - intros k0 r. rewrite !tgt_at_cons, own_set.
    destruct (String.eqb k k0) eqn:Ek; [|reflexivity].
    apply String.eqb_eq in Ek. subst k0.
    change (mval_at (MNode c') r) with (tgt_at c' r). rewrite A.
    change (val_at (VObj es) r) with (src_at es r).
    destruct (src_at es r) eqn:Hs; [reflexivity|].
    rewrite Hchild. destruct r as [|k1 r]; [discriminate Hs|].
    rewrite tgt_at_cons. destruct (own_property t k) as [[old|c]|]; reflexivity.
  - exact M.
  - intros K rec Hin. destruct (S K rec Hin) as [Hin0|[ks [old [HK [Hs [Ht R]]]]]];
      [left; exact Hin0|right].
    exists ks, old. repeat split; try apply R; try assumption.
    destruct (Hnode ks _ Hs) as [Hc|Hc]; rewrite Hc in Ht; [exact Ht|discriminate Ht].
  - intros ks x old Hs Ht Hd. apply (C ks x old Hs); [|exact Hd].
    destruct (src_at_leaf_cons _ _ _ Hs) as [k0 [r ->]]. rewrite Hchild.
    rewrite tgt_at_cons in Ht |- *.
    destruct (own_property t k) as [[o|c]|]; [|exact Ht|discriminate Ht].
    destruct r; discriminate Ht.
Qed.

(** Every value of a plain document merges as specified. *)
Lemma merge_value_spec (v : value) : value_spec v.
Proof.
  induction v as [| |b|n|s|id items _|props IH|name|] using value_ind;
    try (apply merge_leaf_spec; reflexivity);
    try (intros info k p t tr Pl; discriminate Pl).
  apply value_obj_spec, entries_from_values, IH.
Qed.

Lemma merge_entries_spec (es : list (string * value)) : entries_spec es.
Proof.
  apply entries_from_values, Forall_forall. intros kv _. apply merge_value_spec.
Qed.

End MergeOne.

Section MergeLog.

Ltac bind_inv H :=
  match type of H with
  | bind ?m _ = Ok _ =>
      let E := fresh "E" in
      destruct m eqn:E; cbn [bind] in H; [|discriminate H|discriminate H]
  end.

(** The leaves of a document with their positions, in the order in which
    [Object.entries] and the recursion visit them. *)
Fixpoint leaves (v : value) : list (list string * value) :=
  match v with
  | VObj entries =>
      (fix all (es : list (string * value)) : list (list string * value) :=
         match es with
         | [] => []
         | (k, x) :: rest => map (fun kx => (k :: fst kx, snd kx)) (leaves x) ++ all rest
         end) entries
  | VObjectPrototype => []
  | _ => [([], v)]
  end.

Lemma leaves_cons (k : string) (x : value) (rest : list (string * value)) :
  leaves (VObj ((k, x) :: rest))
  = map (fun kx => (k :: fst kx, snd kx)) (leaves x) ++ leaves (VObj rest).
Proof. reflexivity. Qed.

Lemma leaves_keyed (es : list (string * value)) (ks : list string) (x : value) :
  In (ks, x) (leaves (VObj es)) -> exists k r, ks = k :: r /\ own_property es k <> None.
Proof.
  induction es as [|[k0 v0] rest IH]; [intros []|]. rewrite leaves_cons. intros Hin.
  apply in_app_iff in Hin as [Hin|Hin].
  - apply in_map_iff in Hin as [[r y] [[= <- <-] _]]. exists k0, r.
    split; [reflexivity|]. cbn. rewrite String.eqb_refl. discriminate.
  - destruct (IH Hin) as [k [r [-> N]]]. exists k, r. split; [reflexivity|].
    cbn. destruct (String.eqb k0 k); [discriminate|exact N].
Qed.

(** A leaf that is null, a boolean, a number or a string. *)
Definition scalar_leaf (v : value) : bool :=
  match v with
  | VNull | VBool _ | VNum _ | VStr _ => true
  | _ => false
  end.

(** A document all of whose leaves are such. *)
Fixpoint scalar (v : value) : bool :=
  match v with
  | VObj entries =>
      (fix all (es : list (string * value)) : bool :=
         match es with
         | [] => true
         | (_, v') :: rest => scalar v' && all rest
         end) entries
  | _ => scalar_leaf v
  end.

(** Two such leaves are the same value. *)
Definition same_scalar (a b : value) : bool :=
  match a, b with
  | VNull, VNull => true
  | VBool x, VBool y => Bool.eqb x y
  | VNum x, VNum y => Z.eqb x y
  | VStr x, VStr y => String.eqb x y
  | _, _ => false
  end.

Lemma same_scalar_eq (a b : value) :
  scalar_leaf a = true -> (same_scalar a b = true <-> a = b).
Proof.
  destruct a; try discriminate 1; intros _; destruct b; cbn; split;
    try discriminate 1; try reflexivity.
  - intros E. apply Bool.eqb_prop in E. subst. reflexivity.
  - intros [= ->]. apply Bool.eqb_reflx.
  - intros E. apply Z.eqb_eq in E. subst. reflexivity.
  - intros [= ->]. apply Z.eqb_refl.
  - intros E. apply String.eqb_eq in E. subst. reflexivity.
  - intros [= ->]. apply String.eqb_refl.
Qed.

Lemma differs_scalar (old x : value) :
  scalar_leaf old = true -> scalar_leaf x = true ->
  differs_val old x = negb (same_scalar old x).
Proof.
  destruct old; try discriminate 1; intros _; destruct x; try discriminate 1; intros _;
    reflexivity.
Qed.

Lemma scalar_cons (k : string) (v : value) (rest : list (string * value)) :
  scalar (VObj ((k, v) :: rest)) = scalar v && scalar (VObj rest).
Proof. reflexivity. Qed.

Lemma scalar_own (es : list (string * value)) (k : string) (v : value) :
  scalar (VObj es) = true -> own_property es k = Some v -> scalar v = true.
Proof.
  induction es as [|[k0 v0] rest IH]; [discriminate 2|].
  rewrite scalar_cons, own_property_cons. intros E. apply andb_true_iff in E as [E0 Er].
  destruct (String.eqb k0 k); [intros [= <-]; exact E0|apply IH, Er].
Qed.

Lemma val_at_scalar (v : value) (ks : list string) (x : value) :
  scalar v = true -> val_at v ks = Some (KLeaf x) -> scalar_leaf x = true.
Proof.
  revert v. induction ks as [|k rest IH]; intros v S.
  - destruct v; cbn; try discriminate 1; intros [= <-]; exact S.
  - destruct v; cbn [val_at]; try discriminate 1.
    destruct (own_property props k) as [v'|] eqn:O; [|discriminate 1].
    apply IH, (scalar_own _ _ _ S O).
Qed.

Lemma leaves_scalar (v : value) (ks : list string) (x : value) :
  scalar v = true -> In (ks, x) (leaves v) -> scalar_leaf x = true.
Proof.
  revert ks. induction v as [| |b|n|s|id items _|props IH|name|] using value_ind;
    intros ks S; try (intros [[= <- <-]|[]]; exact S); try (intros []).
  revert ks S. induction IH as [|[k v] rest Hv _ IHr]; intros ks S Hin; [destruct Hin|].
  rewrite scalar_cons in S. apply andb_true_iff in S as [S0 Sr].
  rewrite leaves_cons in Hin. apply in_app_iff in Hin as [Hin|Hin].
  - apply in_map_iff in Hin as [[r y] [[= <- <-] Hy]]. apply (Hv r S0 Hy).
  - apply (IHr ks Sr Hin).
Qed.

(** The record that [info] leaves when the leaf [x] replaces [old]. *)
Definition record_of (info : sourceInfo) (old x : value) : conflict :=
  {| k_callId := s_callId info; k_callName := s_callName info;
     k_oldValue := MLeaf old; k_newValue := x; k_sourceIndex := s_sourceIndex info |}.

(** The records that one round adds under the path [K]: one for every leaf
    of the source, in order, whose position below [p] is written [K] and
    where the accumulator holds a leaf that differs. *)
Definition fresh (info : sourceInfo) (tgt : list string -> option kind) (p K : string)
    (lv : list (list string * value)) : list conflict :=
  flat_map (fun kx => match tgt (fst kx) with
                      | Some (KLeaf old) =>
                          if String.eqb (path_from p (fst kx)) K && differs_val old (snd kx)
                          then [record_of info old (snd kx)]
                          else []
                      | _ => []
                      end) lv.

Lemma fresh_app (info : sourceInfo) (tgt : list string -> option kind) (p K : string)
    (a b : list (list string * value)) :
  fresh info tgt p K (a ++ b) = fresh info tgt p K a ++ fresh info tgt p K b.
Proof. unfold fresh. apply flat_map_app. Qed.

Lemma fresh_ext (info : sourceInfo) (tgt tgt' : list string -> option kind) (p K : string)
    (lv : list (list string * value)) :
  (forall ks x, In (ks, x) lv -> tgt ks = tgt' ks) ->
  fresh info tgt p K lv = fresh info tgt' p K lv.
Proof.
  intros F. unfold fresh. induction lv as [|[ks x] rest IH]; [reflexivity|].
  cbn [flat_map fst snd]. rewrite (F ks x (or_introl eq_refl)).
  f_equal. apply IH. intros ks' x' Hin. apply (F ks' x'). right; exact Hin.
Qed.

Lemma fresh_below (info : sourceInfo) (tgt : list string -> option kind) (p K k : string)
    (lv : list (list string * value)) :
  fresh info tgt p K (map (fun kx => (k :: fst kx, snd kx)) lv)
  = fresh info (fun ks => tgt (k :: ks)) (full_path p k) K lv.
Proof.
  unfold fresh. induction lv as [|[ks x] rest IH]; [reflexivity|].
  cbn [map flat_map fst snd]. rewrite IH. reflexivity.
Qed.

(** One round adds exactly these records, behind those that were there. *)
Definition value_log (v : value) : Prop :=
  forall info k p t tr t' tr',
    plain v = true -> inherited_name k = false ->
    (forall ks x, val_at v ks = Some (KLeaf x) -> tgt_at t (k :: ks) <> Some KNode) ->
    merge_value info v k p t tr = Ok (t', tr') ->
    forall K,
      conflicts_at tr' K
      = conflicts_at tr K
        ++ fresh info (fun ks => tgt_at t (k :: ks)) (full_path p k) K (leaves v).

Definition entries_log (es : list (string * value)) : Prop :=
  forall info p t tr t' tr',
    plain (VObj es) = true ->
    (forall ks x, src_at es ks = Some (KLeaf x) -> tgt_at t ks <> Some KNode) ->
    merge_entries info es p t tr = Ok (t', tr') ->
    forall K,
      conflicts_at tr' K = conflicts_at tr K ++ fresh info (tgt_at t) p K (leaves (VObj es)).

Lemma merge_leaf_log (v : value) : is_leaf v = true -> value_log v.
Proof.
  intros L info k p t tr t' tr' Pl I Compat E K.
  assert (Kp : String.eqb k "__proto__" = false).
  { unfold inherited_name in I. apply orb_false_iff in I as [I _]. exact I. }
  assert (Ifp := full_path_not_inherited p k I).
  assert (Hm : merge_value info v k p t tr = merge_leaf info v k p t tr).
  { destruct v; try reflexivity; discriminate L. }
  rewrite Hm in E. unfold merge_leaf, read in E. rewrite I, Kp in E.
  rewrite (push_ok (propertySources tr) _ _ Ifp) in E.
  specialize (Compat [] v (val_at_leaf v [] L)). rewrite tgt_at_cons in Compat.
  assert (Lv : leaves v = [([], v)]) by (destruct v; try reflexivity; discriminate L).
  rewrite Lv. unfold fresh. cbn [flat_map fst snd path_from fold_left].
  rewrite app_nil_r, tgt_at_cons.
  destruct tr as [cs ps]. cbn [conflicts propertySources] in E.
  destruct (own_property t k) as [[old|child]|] eqn:Own;
    [|exfalso; apply Compat; reflexivity|].
  - cbn [differs old_value mval_at mkind_of] in *. fold (differs_val old v) in E.
    destruct (differs_val old v) eqn:D.
    + rewrite (push_ok cs _ _ Ifp) in E. cbn [bind] in E. injection E as <- <-.
      rewrite conflicts_at_set, andb_true_r.
      destruct (String.eqb (full_path p k) K) eqn:Ek; [|rewrite app_nil_r; reflexivity].
      apply String.eqb_eq in Ek. subst K. reflexivity.
    + cbn [bind] in E. injection E as <- <-. rewrite andb_false_r, app_nil_r. reflexivity.
  - cbn [differs bind] in E. injection E as <- <-. rewrite app_nil_r. reflexivity.
Qed.

Lemma entries_log_from_values (es : list (string * value)) :
  Forall (fun kv => value_log (snd kv)) es -> entries_log es.
Proof.
  induction 1 as [|[k v] rest Hv _ IH]; intros info p t tr t' tr' Pl Compat E K.
  - cbn in E. injection E as <- <-. cbn. rewrite app_nil_r. reflexivity.
  - destruct (plain_obj _ Pl) as [U F]. inversion F as [|? ? [Ik Pv] F']; subst.
    cbn [fst snd] in *.
    assert (Nk := unique_keys_head _ _ _ U).
    assert (Hhead : forall r, src_at ((k, v) :: rest) (k :: r) = val_at v r).
    { intros r. rewrite src_at_cons, own_property_cons, String.eqb_refl. reflexivity. }
    assert (Hother : forall k0 r, String.eqb k k0 = false ->
              src_at ((k, v) :: rest) (k0 :: r) = src_at rest (k0 :: r)).
    { intros k0 r E0. rewrite !src_at_cons, own_property_cons, E0. reflexivity. }
    assert (Hrest : forall r, src_at rest (k :: r) = None).
    { intros r. rewrite src_at_cons, Nk. reflexivity. }
    assert (Cv : forall ks x, val_at v ks = Some (KLeaf x) -> tgt_at t (k :: ks) <> Some KNode).
    { intros ks x Hs. apply (Compat (k :: ks) x). rewrite Hhead. exact Hs. }
    cbn [merge_entries] in E. bind_inv E. destruct a as [t1 tr1]. cbn [fst snd] in E.
    destruct (merge_value_spec v info k p t tr Pv Ik Cv) as [t1' [tr1' [E1 [A1 _]]]].
    rewrite E0 in E1. injection E1 as <- <-.
    assert (Cr : forall ks x, src_at rest ks = Some (KLeaf x) -> tgt_at t1 ks <> Some KNode).
    { intros ks x Hs. destruct (src_at_leaf_cons _ _ _ Hs) as [k0 [r ->]].
      destruct (String.eqb k k0) eqn:Ek.
      - apply String.eqb_eq in Ek. subst k0. rewrite Hrest in Hs. discriminate Hs.
      - rewrite A1, Ek. apply (Compat (k0 :: r) x). rewrite (Hother _ _ Ek). exact Hs. }
    rewrite (IH info p t1 tr1 t' tr' (plain_tail _ _ _ Pl) Cr E K).
    rewrite (Hv info k p t tr t1 tr1 Pv Ik Cv E0 K).
    rewrite leaves_cons, fresh_app, fresh_below, <- app_assoc. f_equal. f_equal.
    apply fresh_ext. intros ks x Hin.
    destruct (leaves_keyed _ _ _ Hin) as [k0 [r [-> N]]].
    rewrite A1. destruct (String.eqb k k0) eqn:Ek; [|reflexivity].
    apply String.eqb_eq in Ek. subst k0. contradiction.
Qed.

Lemma value_obj_log (es : list (string * value)) : entries_log es -> value_log (VObj es).
Proof.
  intros Q info k p t tr t' tr' Pl I Compat E K.
  rewrite (merge_value_obj info es k p t tr I) in E. bind_inv E. destruct a as [c' tr1].
  cbn [fst snd] in E. injection E as <- <-.
  set (child := match own_property t k with Some (MNode c) => c | _ => [] end) in *.
  assert (Hchild : forall k0 r, tgt_at child (k0 :: r)
                                = match own_property t k with
                                  | Some (MNode _) => tgt_at t (k :: k0 :: r)
                                  | _ => None
                                  end).
  { intros k0 r. unfold child. rewrite (tgt_at_cons t k).
    destruct (own_property t k) as [[old|c]|]; reflexivity. }
  rewrite (Q info (full_path p k) child tr c' tr1 Pl) with (K := K); [| |exact E0].
  - f_equal. apply fresh_ext. intros ks x Hin.
    destruct (leaves_keyed _ _ _ Hin) as [k0 [r [-> _]]]. rewrite Hchild, (tgt_at_cons t k).
    destruct (own_property t k) as [[old|c]|]; reflexivity.
  - intros ks x Hs Ht. destruct (src_at_leaf_cons _ _ _ Hs) as [k0 [r ->]].
    rewrite Hchild in Ht.
    destruct (own_property t k) as [[old|c]|] eqn:Own; try discriminate Ht.
    apply (Compat (k0 :: r) x Hs). rewrite tgt_at_cons, Own. rewrite tgt_at_cons, Own in Ht.
    exact Ht.
Qed.

Lemma merge_value_log (v : value) : value_log v.
Proof.
  induction v as [| |b|n|s|id items _|props IH|name|] using value_ind;
    try (apply merge_leaf_log; reflexivity);
    try (intros info k p t tr t' tr' Pl; discriminate Pl).
  apply value_obj_log, entries_log_from_values, IH.
Qed.

Lemma merge_entries_log (es : list (string * value)) : entries_log es.
Proof.
  apply entries_log_from_values, Forall_forall. intros kv _. apply merge_value_log.
Qed.

End MergeLog.

Section MergeGroup.

(** What the sources merged so far hold at a position: the kind held by the
    last of them that holds anything there. *)
Definition last_kind (merged : list value) (ks : list string) : option kind :=
  fold_left (fun acc s => match val_at s ks with Some x => Some x | None => acc end)
    merged (tgt_at [] ks).

(** The leaf held at a position by the last source that has a leaf there. *)
Definition last_leaf (merged : list value) (ks : list string) : option value :=
  fold_left (fun acc s => match val_at s ks with Some (KLeaf x) => Some x | _ => acc end)
    merged None.

Lemma last_kind_snoc (merged : list value) (s : value) (ks : list string) :
  last_kind (merged ++ [s]) ks
  = match val_at s ks with Some x => Some x | None => last_kind merged ks end.
Proof. unfold last_kind. rewrite fold_left_app. reflexivity. Qed.

Lemma last_leaf_snoc (merged : list value) (s : value) (ks : list string) :
  last_leaf (merged ++ [s]) ks
  = match val_at s ks with Some (KLeaf x) => Some x | _ => last_leaf merged ks end.
Proof. unfold last_leaf. rewrite fold_left_app. reflexivity. Qed.

Lemma last_kind_leaf (merged : list value) (ks : list string) (x : value) :
  last_kind merged ks = Some (KLeaf x) -> last_leaf merged ks = Some x.
Proof.
  induction merged as [|s merged IH] using rev_ind.
  - destruct ks; discriminate 1.
  - rewrite last_kind_snoc, last_leaf_snoc.
    destruct (val_at s ks) as [[y|]|]; [intros [= ->]; reflexivity|discriminate 1|exact IH].
Qed.

Lemma last_leaf_In (merged : list value) (ks : list string) (x : value) :
  last_leaf merged ks = Some x -> exists s, In s merged /\ val_at s ks = Some (KLeaf x).
Proof.
  induction merged as [|s merged IH] using rev_ind; [discriminate 1|].
  rewrite last_leaf_snoc. intros E.
  assert (Hold : last_leaf merged ks = Some x ->
                 exists s0, In s0 (merged ++ [s]) /\ val_at s0 ks = Some (KLeaf x)).
  { intros E0. destruct (IH E0) as [s0 [Hin Hs]]. exists s0. split; [|exact Hs].
    apply in_app_iff. left; exact Hin. }
  destruct (val_at s ks) as [[y|]|] eqn:V; [|apply Hold, E|apply Hold, E].
  injection E as ->. exists s. split; [apply in_app_iff; right; left; reflexivity|exact V].
Qed.

Lemma last_kind_node (merged : list value) (ks : list string) :
  last_kind merged ks = Some KNode ->
  ks = [] \/ exists s, In s merged /\ val_at s ks = Some KNode.
Proof.
  induction merged as [|s merged IH] using rev_ind.
  - destruct ks; [left; reflexivity|discriminate 1].
  - rewrite last_kind_snoc. intros E.
    destruct (val_at s ks) as [[y|]|] eqn:V; [discriminate E| |].
    + right. exists s. split; [apply in_app_iff; right; left; reflexivity|exact V].
    + destruct (IH E) as [Hnil|[s0 [Hin Hs]]]; [left; exact Hnil|right].
      exists s0. split; [apply in_app_iff; left; exact Hin|exact Hs].
Qed.

(** No position is a leaf in one source and an object in another. *)
Definition agreeing (sources : list value) : Prop :=
  forall a b, In a sources -> In b sources -> agree_shape a b = true.

Lemma agreeing_app_l (l1 l2 : list value) : agreeing (l1 ++ l2) -> agreeing l1.
Proof. intros A a b Ha Hb. apply A; apply in_app_iff; left; assumption. Qed.

Lemma last_leaf_kind (merged : list value) (ks : list string) (x : value) :
  agreeing merged ->
  last_leaf merged ks = Some x -> last_kind merged ks = Some (KLeaf x).
Proof.
  induction merged as [|s merged IH] using rev_ind; [discriminate 2|].
  intros A. rewrite last_kind_snoc, last_leaf_snoc.
  destruct (val_at s ks) as [[y|]|] eqn:V.
  - intros [= ->]. reflexivity.
  - intros E. destruct (last_leaf_In _ _ _ E) as [s0 [Hin Hs]].
    exfalso. assert (G : agree_shape s0 s = true).
    { apply A; apply in_app_iff; [left; exact Hin|right; left; reflexivity]. }
    destruct (agree_shape_at ks s0 s x G) as [G1 _]. apply (G1 Hs V).
  - apply IH, (agreeing_app_l _ _ A).
Qed.

Lemma snoc_case {A} (l : list A) : l = [] \/ exists l' a, l = l' ++ [a].
Proof.
  induction l as [|a l _] using rev_ind; [left; reflexivity|right].
  exists l, a. reflexivity.
Qed.

(** The state of the merge of a group after the sources [merged]: the
    accumulator holds at every position what the last source that has the
    position holds; every conflict record was left by a source whose leaf
    differed from the leaf of the last source before it that had the
    position, and every such difference has left a record. *)
Definition group_inv (merged : list value) (target : list (string * mval)) (tr : trackers)
  : Prop :=
  (forall ks, tgt_at target ks = last_kind merged ks)
  /\ (forall K rec, In rec (conflicts_at tr K) ->
        exists before s after ks old,
          merged = before ++ s :: after
          /\ K = path_from "" ks
          /\ val_at s ks = Some (KLeaf (k_newValue rec))
          /\ last_leaf before ks = Some old
          /\ differs_val old (k_newValue rec) = true
          /\ k_oldValue rec = MLeaf old
          /\ k_sourceIndex rec = List.length before)
  /\ (forall before s after ks x old,
        merged = before ++ s :: after ->
        val_at s ks = Some (KLeaf x) ->
        last_leaf before ks = Some old ->
        differs_val old x = true ->
        exists rec,
          In rec (conflicts_at tr (path_from "" ks))
          /\ k_oldValue rec = MLeaf old /\ k_newValue rec = x
          /\ k_sourceIndex rec = List.length before)
  /\ (forall K, own_property (conflicts tr) K <> Some []).

Lemma group_inv_snoc (merged : list value) (es : list (string * value))
    (info : sourceInfo) (t t' : list (string * mval)) (tr tr' : trackers) :
  s_sourceIndex info = List.length merged ->
  agreeing (merged ++ [VObj es]) ->
  group_inv merged t tr ->
  (forall ks, tgt_at t' ks = match src_at es ks with
                             | Some x => Some x
                             | None => tgt_at t ks
                             end) ->
  tracked_spec info (src_at es) (tgt_at t) "" tr tr' ->
  group_inv (merged ++ [VObj es]) t' tr'.
Proof.
  intros Hi A [I1 [I2 [I3 I4]]] At [M [S [C N]]].
  split; [|split; [|split]].
  - intros ks. rewrite At, last_kind_snoc, I1. reflexivity.
  - intros K rec Hin. destruct (S K rec Hin) as [Hin0|[ks [old [HK [Hs [Ht [Hd R]]]]]]].
    + destruct (I2 K rec Hin0) as [before [s [after [ks [old R]]]]].
      exists before, s, (after ++ [VObj es]), ks, old.
      destruct R as [-> R]. split; [rewrite <- app_assoc; reflexivity|exact R].
    + exists merged, (VObj es), [], ks, old.
      destruct R as [R1 [R2 [R3 R4]]].
      split; [reflexivity|]. split; [exact HK|]. split; [exact Hs|].
      split; [apply last_kind_leaf; rewrite <- I1; exact Ht|].
      split; [exact Hd|]. split; [exact R1|]. rewrite R3. exact Hi.
  - intros before s after ks x old Heq Hs Hl Hd.
    destruct (snoc_case after) as [->|[after' [a ->]]].
    + apply app_inj_tail in Heq as [-> <-].
      destruct (C ks x old Hs) as [rec [Hin [R1 [R2 [R3 R4]]]]]; [|exact Hd|].
      * rewrite I1. apply last_leaf_kind; [apply (agreeing_app_l _ _ A)|exact Hl].
      * exists rec. repeat split; auto. rewrite R3. exact Hi.
    + rewrite app_comm_cons, app_assoc in Heq. apply app_inj_tail in Heq as [-> _].
      destruct (I3 before s after' ks x old eq_refl Hs Hl Hd) as [rec [Hin R]].
      exists rec. split; [apply M; exact Hin|exact R].
  - apply N, I4.
Qed.

(** A source of a group: a plain object. *)
Definition plain_doc (v : value) : bool :=
  match v with
  | VObj _ => plain v
  | _ => false
  end.

Ltac bind_inv H :=
  match type of H with
  | bind ?m _ = Ok _ =>
      let E := fresh "E" in
      destruct m eqn:E; cbn [bind] in H; [|discriminate H|discriminate H]
  end.

(** What the loop passes to the merge for the instance at index [i]. *)
Definition info_of (calls : list call) (i : nat) (item : groupItem) : sourceInfo :=
  {| s_callId := callId_of (gi_nodeId item);
     s_callName := callName_of calls (callId_of (gi_nodeId item));
     s_sourceIndex := i |}.

(** The records that an instance leaves under the path [K] when the
    instances [before] came before it: one for each of its leaves, in the
    order of the document, whose position is written [K] and whose value is
    not that of the last earlier instance that has the position. *)
Definition round_conflicts (info : sourceInfo) (before : list value) (doc : value)
    (K : string) : list conflict :=
  flat_map (fun kx => match last_leaf before (fst kx) with
                      | Some old =>
                          if String.eqb (path_from "" (fst kx)) K
                             && negb (same_scalar old (snd kx))
                          then [record_of info old (snd kx)]
                          else []
                      | None => []
                      end) (leaves doc).

(** The records under [K] after a whole group, instance by instance. *)
Fixpoint group_conflicts (calls : list call) (before : list value) (items : list groupItem)
    (K : string) : list conflict :=
  match items with
  | [] => []
  | item :: rest =>
      round_conflicts (info_of calls (List.length before) item) before (gi_data item) K
      ++ group_conflicts calls (before ++ [gi_data item]) rest K
  end.

Lemma fresh_round (info : sourceInfo) (merged : list value) (doc : value)
    (t : list (string * mval)) (K : string) :
  (forall ks, tgt_at t ks = last_kind merged ks) ->
  agreeing merged ->
  Forall (fun v => scalar v = true) merged -> scalar doc = true ->
  fresh info (tgt_at t) "" K (leaves doc) = round_conflicts info merged doc K.
Proof.
  intros I1 A Sm Sd. unfold fresh, round_conflicts.
  assert (L : forall ks x, In (ks, x) (leaves doc) -> scalar_leaf x = true).
  { intros ks x. apply leaves_scalar, Sd. }
  induction (leaves doc) as [|[ks x] rest IH]; [reflexivity|].
  cbn [flat_map fst snd]. rewrite IH by (intros ks' x' Hin; apply (L ks' x'); right; exact Hin).
  f_equal. rewrite I1.
  destruct (last_kind merged ks) as [[old|]|] eqn:Lk.
  - rewrite (last_kind_leaf _ _ _ Lk).
    destruct (last_leaf_In _ _ _ (last_kind_leaf _ _ _ Lk)) as [s0 [Hin Hs]].
    rewrite Forall_forall in Sm.
    rewrite (differs_scalar old x (val_at_scalar _ _ _ (Sm s0 Hin) Hs)
               (L ks x (or_introl eq_refl))).
    reflexivity.
  - destruct (last_leaf merged ks) as [old|] eqn:Ll; [|reflexivity].
    rewrite (last_leaf_kind _ _ _ A Ll) in Lk. discriminate Lk.
  - destruct (last_leaf merged ks) as [old|] eqn:Ll; [|reflexivity].
    rewrite (last_leaf_kind _ _ _ A Ll) in Lk. discriminate Lk.
Qed.

Lemma merge_items_inv (calls : list call) (canonical : groupItem)
    (items : list groupItem) (merged : list value) (st : merging) :
  Forall (fun v => plain_doc v = true) (map gi_data items) ->
  Forall (fun v => scalar v = true) (merged ++ map gi_data items) ->
  agreeing (merged ++ map gi_data items) ->
  group_inv merged (mergedData st) (tracked st) ->
  exists st',
    merge_items calls canonical st (List.length merged) items = Ok st'
    /\ group_inv (merged ++ map gi_data items) (mergedData st') (tracked st')
    /\ forall K, conflicts_at (tracked st') K
                 = conflicts_at (tracked st) K ++ group_conflicts calls merged items K.
Proof.
  revert merged st; induction items as [|item rest IH]; intros merged st P S A I.
  - exists st. split; [reflexivity|]. cbn [map]. rewrite app_nil_r.
    split; [exact I|]. intros K. cbn. rewrite app_nil_r. reflexivity.
  - cbn [map] in P, S, A. inversion P as [|? ? Pd Pr]; subst.
    assert (Sm : Forall (fun v => scalar v = true) merged).
    { apply Forall_forall. intros v Hin. rewrite Forall_forall in S. apply S.
      apply in_app_iff. left; exact Hin. }
    assert (Sd : scalar (gi_data item) = true).
    { rewrite Forall_forall in S. apply S. apply in_app_iff. right. left. reflexivity. }
    destruct (gi_data item) as [| |?|?|?|? ?|es|?|] eqn:D; try discriminate Pd.
    cbn [plain_doc] in Pd.
    set (info := info_of calls (List.length merged) item).
    assert (A1 : agreeing (merged ++ [VObj es])).
    { intros a b Ha Hb. apply A; apply in_app_iff.
      - apply in_app_iff in Ha as [Ha|[<-|[]]]; [left; exact Ha|right; left; reflexivity].
      - apply in_app_iff in Hb as [Hb|[<-|[]]]; [left; exact Hb|right; left; reflexivity]. }
    assert (Sh : forall ks x, src_at es ks = Some (KLeaf x) ->
                   tgt_at (mergedData st) ks <> Some KNode).
    { intros ks x Hs Ht. destruct I as [I1 _]. rewrite I1 in Ht.
      destruct (last_kind_node _ _ Ht) as [->|[s0 [Hin Hn]]]; [discriminate Hs|].
      assert (G : agree_shape (VObj es) s0 = true).
      { apply A1; apply in_app_iff; [right; left; reflexivity|left; exact Hin]. }
      destruct (agree_shape_at ks (VObj es) s0 x G) as [G1 _]. apply (G1 Hs Hn). }
    destruct (merge_entries_spec es info "" (mergedData st) (tracked st) Pd Sh)
      as [t' [tr' [E [At T]]]].
    assert (I' := group_inv_snoc merged es info _ t' _ tr' eq_refl A1 I At T).
    assert (Lg := merge_entries_log es info "" (mergedData st) (tracked st) t' tr' Pd Sh E).
    set (st1 := {| mergedData := t'; tracked := tr';
                   sources := sources st ++
                     [ {| src_callId := s_callId info; src_callName := s_callName info;
                          src_nodeId := gi_nodeId item; src_data := VObj es |} ];
                   mergedNodes :=
                     if 0 <? List.length merged
                     then map_set (mergedNodes st) (gi_nodeId item) (gi_nodeId canonical)
                     else mergedNodes st |}).
    destruct (IH (merged ++ [VObj es]) st1) as [st' [E' [I'' L'']]].
    + exact Pr.
    + rewrite <- app_assoc. exact S.
    + rewrite <- app_assoc. exact A.
    + exact I'.
    + exists st'. split; [|split].
      * cbn [merge_items]. unfold merge_item, deepMergeWithTracking.
        rewrite D. cbn [entries_of bind]. fold (info_of calls (List.length merged) item).
        fold info. rewrite E. cbn [bind fst snd].
        rewrite length_app, Nat.add_comm in E'. exact E'.
      * rewrite <- app_assoc in I''. cbn [map]. rewrite D. exact I''.
      * intros K. rewrite L''. cbn [tracked st1 group_conflicts]. rewrite Lg, D.
        destruct I as [I1 _].
        rewrite (fresh_round info merged (VObj es) (mergedData st) K I1
                   (agreeing_app_l _ _ A1) Sm Sd).
        rewrite <- app_assoc. reflexivity.
Qed.

End MergeGroup.

Section MergeClaim.

Definition fresh_merge (mergedNodes : list (string * string)) : merging :=
  {| mergedData := [];
     tracked := {| conflicts := []; propertySources := [] |};
     sources := [];
     mergedNodes := mergedNodes |}.

Lemma group_inv_start : group_inv [] [] {| conflicts := []; propertySources := [] |}.
Proof.
  split; [|split; [|split]].
  - intros ks. reflexivity.
  - intros K rec [].
  - intros before s after ks x old Heq. destruct before; discriminate Heq.
  - intros K. discriminate.
Qed.

(** C1, as amended.  For a group whose instances are plain JSON objects
    (distinct keys, none of them a name inherited from [Object.prototype])
    with null, boolean, number and string leaves, and in which no position
    is a leaf in one instance and a nested object in another, the merge loop
    returns, and:
    - the merged data hold at every leaf position the value of the last
      instance that has the position;
    - the conflict list of every path is exactly this: instance by instance
      in processing order, and leaf by leaf in the order of the document, one
      record for each leaf whose position is written as that path and whose
      value is not the value of the last earlier instance that has the
      position; the record carries that earlier value, the new value and the
      call and index of the instance.  Hence the first occurrence of a
      position and an occurrence with the value already held add nothing,
      and an occurrence with another value adds one record;
    - a path all of whose leaves in the group are equal has no conflict
      entry. *)
Theorem merge_fold_on_agreeing_sources (calls : list call) (canonical : groupItem)
    (items : list groupItem) (redirects : list (string * string)) :
  forallb plain_doc (map gi_data items) = true ->
  forallb scalar (map gi_data items) = true ->
  forallb (fun a => forallb (agree_shape a) (map gi_data items)) (map gi_data items) = true ->
  exists st',
    merge_items calls canonical (fresh_merge redirects) 0 items = Ok st'
    /\ (forall ks x,
          last_leaf (map gi_data items) ks = Some x ->
          tgt_at (mergedData st') ks = Some (KLeaf x))
    /\ (forall K, conflicts_at (tracked st') K = group_conflicts calls [] items K)
    /\ (forall K,
          (forall ks a b x y,
              path_from "" ks = K ->
              In a (map gi_data items) -> In b (map gi_data items) ->
              val_at a ks = Some (KLeaf x) -> val_at b ks = Some (KLeaf y) ->
              x = y) ->
          own_property (conflicts (tracked st')) K = None).
Proof.
  intros P S A.
  assert (P' : Forall (fun v => plain_doc v = true) (map gi_data items)).
  { apply Forall_forall. apply forallb_forall. exact P. }
  assert (S' : Forall (fun v => scalar v = true) (map gi_data items)).
  { apply Forall_forall. apply forallb_forall. exact S. }
  assert (A' : agreeing (map gi_data items)).
  { intros a b Ha Hb. rewrite forallb_forall in A. specialize (A a Ha).
    rewrite forallb_forall in A. apply (A b Hb). }
  destruct (merge_items_inv calls canonical items [] (fresh_merge redirects) P' S' A'
              group_inv_start) as [st' [E [[I1 [I2 [I3 I4]]] L]]].
  cbn [app List.length] in *.
  exists st'. split; [exact E|]. split; [|split].
  - intros ks x Hl. rewrite I1. apply last_leaf_kind; assumption.
  - intros K. rewrite L. reflexivity.
  - intros K Hsame.
    destruct (own_property (conflicts (tracked st')) K) as [[|rec l]|] eqn:O;
      [exfalso; apply (I4 K O)| |reflexivity].
    exfalso.
    destruct (I2 K rec) as [before [s [after [ks [old [Hd [HK [Hs [Hl [Hdiff _]]]]]]]]]].
    { unfold conflicts_at. rewrite O. left; reflexivity. }
    destruct (last_leaf_In _ _ _ Hl) as [s0 [Hin0 Hs0]].
    assert (In0 : In s0 (map gi_data items)).
    { rewrite Hd. apply in_app_iff. left; exact Hin0. }
    assert (In1 : In s (map gi_data items)).
    { rewrite Hd. apply in_app_iff. right. left. reflexivity. }
    assert (Heq : old = k_newValue rec).
    { apply (Hsame ks s0 s old (k_newValue rec)); auto. }
    rewrite Forall_forall in S'.
    assert (So := val_at_scalar _ _ _ (S' s0 In0) Hs0).
    rewrite <- Heq, (differs_scalar old old So So) in Hdiff.
    rewrite (proj2 (same_scalar_eq old old So) eq_refl) in Hdiff. discriminate Hdiff.
Qed.

End MergeClaim.

Definition item_of (nodeId : string) (data : value) : groupItem :=
  {| gi_nodeId := nodeId; gi_data := data;
     gi_entityConfig := {| c_id := "E"; c_label := ""; c_pk := "id";
                           c_displayField := ""; c_color := "" |};
     gi_entityType := "E" |}.

(** [{"id": 1, "a": {"b": 1}}], then [{"id": 1, "a": 5}], then
    [{"id": 1, "a": {"b": 2}}]. *)
Definition reshaped_items : list groupItem :=
  [ item_of "c1:$" (VObj [("id", VNum 1); ("a", VObj [("b", VNum 1)])]);
    item_of "c2:$" (VObj [("id", VNum 1); ("a", VNum 5)]);
    item_of "c3:$" (VObj [("id", VNum 1); ("a", VObj [("b", VNum 2)])]) ].

(** C1 as stated fails when the shape of a property changes between
    instances.  After the first two instances the leaf [a.b], which only the
    first instance has, is gone from the merged data, and the path [a], a
    leaf in one instance only, has a conflict entry.  After the third
    instance the leaf [a.b] has been seen under the values 1 and 2 and has no
    conflict entry. *)
Lemma shape_change_breaks_the_fold :
  exists two three,
    merge_items [] (item_of "c1:$" VNull) (fresh_merge []) 0 (firstn 2 reshaped_items) = Ok two
    /\ merge_items [] (item_of "c1:$" VNull) (fresh_merge []) 0 reshaped_items = Ok three
    /\ last_leaf (map gi_data (firstn 2 reshaped_items)) ["a"; "b"] = Some (VNum 1)
    /\ tgt_at (mergedData two) ["a"; "b"] = None
    /\ map (fun s => val_at s ["a"]) (map gi_data (firstn 2 reshaped_items))
       = [Some KNode; Some (KLeaf (VNum 5))]
    /\ own_property (conflicts (tracked two)) "a" <> None
    /\ map (fun s => val_at s ["a"; "b"]) (map gi_data reshaped_items)
       = [Some (KLeaf (VNum 1)); None; Some (KLeaf (VNum 2))]
    /\ own_property (conflicts (tracked three)) "a.b" = None.
Proof.
  eexists. eexists. split; [vm_compute; reflexivity|]. split; [vm_compute; reflexivity|].
  repeat split; try reflexivity. discriminate.
Qed.

End MergeFacts.

(* ================================================================== *)
(** * Facts about the string operations *)
(* ================================================================== *)

Module StrFacts.

Lemma append_nil_r (s : string) : s +++ "" = s.
Proof. induction s as [|c r IH]; cbn; [reflexivity|rewrite IH; reflexivity]. Qed.

Lemma append_assoc (a b c : string) : (a +++ b) +++ c = a +++ b +++ c.
Proof. induction a as [|x r IH]; cbn; [reflexivity|rewrite IH; reflexivity]. Qed.

Lemma length_append (a b : string) :
  String.length (a +++ b) = String.length a + String.length b.
Proof. induction a as [|x r IH]; cbn; [reflexivity|rewrite IH; reflexivity]. Qed.

Lemma startsWith_nil (s : string) : Str.startsWith s "" = true.
Proof. destruct s; reflexivity. Qed.

Lemma startsWith_cons (c d : ascii) (s p : string) :
  Str.startsWith (String c s) (String d p) = Ascii.eqb d c && Str.startsWith s p.
Proof.
  unfold Str.startsWith. cbn. destruct (ascii_dec d c) as [->|N].
  - rewrite Ascii.eqb_refl. reflexivity.
  - apply Ascii.eqb_neq in N. rewrite N. reflexivity.
Qed.

Lemma startsWith_append (p r : string) : Str.startsWith (p +++ r) p = true.
Proof.
  induction p as [|c p IH]; [apply startsWith_nil|].
  cbn [String.append]. rewrite startsWith_cons, Ascii.eqb_refl. exact IH.
Qed.

Lemma startsWith_head (c : ascii) (r : string) :
  Str.startsWith (String c r) (String c "") = true.
Proof. rewrite startsWith_cons, Ascii.eqb_refl. apply startsWith_nil. Qed.

Lemma drop_append (p r : string) : Str.drop (String.length p) (p +++ r) = r.
Proof. induction p as [|c p IH]; [reflexivity|exact IH]. Qed.

Lemma take_append (p r : string) : Str.take (String.length p) (p +++ r) = p.
Proof. induction p as [|c p IH]; cbn; [reflexivity|rewrite IH; reflexivity]. Qed.

Lemma take_drop (n : nat) (s : string) : Str.take n s +++ Str.drop n s = s.
Proof.
  revert s; induction n as [|n IH]; intros s; [reflexivity|].
  destruct s as [|c r]; cbn; [reflexivity|rewrite IH; reflexivity].
Qed.

(** [s.startsWith(p)] holds exactly when [s] is [p] followed by something. *)
Lemma startsWith_inv (s p : string) :
  Str.startsWith s p = true -> s = p +++ Str.drop (String.length p) s.
Proof.
  revert s; induction p as [|d p IH]; intros s; [reflexivity|].
  destruct s as [|c s]; [discriminate|].
  rewrite startsWith_cons. intros E. apply andb_true_iff in E as [E1 E2].
  apply Ascii.eqb_eq in E1. subst d. cbn. rewrite <- (IH s E2). reflexivity.
Qed.

Lemma startsWith_iff (s p : string) :
  Str.startsWith s p = true <-> exists r, s = p +++ r.
Proof.
  split.
  - intros E. eexists. apply startsWith_inv, E.
  - intros [r ->]. apply startsWith_append.
Qed.

Lemma startsWith_refl (s : string) : Str.startsWith s s = true.
Proof. apply startsWith_iff. exists "". symmetry. apply append_nil_r. Qed.

Lemma append_eq_nil (a b : string) : a +++ b = "" -> a = "" /\ b = "".
Proof. destruct a; cbn; [intros ->; split; reflexivity|discriminate]. Qed.


(** The character found by [lastIndexOf] stands at that index. *)
Lemma lastIndexOf_drop (c : ascii) (s : string) (i : nat) :
  Str.lastIndexOf c s = Some i -> exists r, Str.drop i s = String c r.
Proof.
  revert i; induction s as [|d s IH]; intros i; cbn [Str.lastIndexOf]; [discriminate|].
  destruct (Str.lastIndexOf c s) as [j|].
  - intros [= <-]. cbn. apply IH. reflexivity.
  - destruct (Ascii.eqb d c) eqn:E; [|discriminate].
    intros [= <-]. apply Ascii.eqb_eq in E. subst d. exists s. reflexivity.
Qed.

End StrFacts.
(* ================================================================== *)
(** * Laws of path evaluation *)
(* ================================================================== *)

Module PathLaws.
Import Path PathFacts.

(** The token that selects one segment of a concrete path: a key is selected
    by a [FIELD] token, an index by an [INDEX] token. *)
Definition token_of_seg (s : seg) : token :=
  match s with
  | SKey name => Field name
  | SIdx n => Index n
  end.

(** A match seen from a match above it: its path is continued. *)
Definition shift (prefix : list seg) (m : pmatch) : pmatch :=
  {| m_value := m_value m; m_path := prefix ++ m_path m |}.

Section Evaluation.
Context `{Host}.

(** What one token makes of one match. *)
Definition matches_of (tok : token) (m : pmatch) : list pmatch :=
  match eval_token tok m with
  | Ok ms => ms
  | _ => []
  end.

Lemma eval_token_matches (tok : token) (m : pmatch) :
  eval_token tok m = Ok (matches_of tok m).
Proof.
  unfold matches_of. destruct (eval_token_ok tok m) as [ms [E _]]. rewrite E. reflexivity.
Qed.

Lemma eval_results_flat_map (tok : token) (results : list pmatch) :
  eval_results tok results = Ok (flat_map (matches_of tok) results).
Proof.
  induction results as [|m rest IH]; cbn [eval_results flat_map]; [reflexivity|].
  rewrite eval_token_matches, IH. reflexivity.
Qed.

(** The matches of a whole token list from a list of matches. *)
Definition run_from (ast : list token) (results : list pmatch) : list pmatch :=
  fold_left (fun rs tok => flat_map (matches_of tok) rs) ast results.

Lemma eval_ast_run (ast : list token) (results : list pmatch) :
  eval_ast ast results = Ok (run_from ast results).
Proof.
  revert results; induction ast as [|tok rest IH]; intros results; cbn [eval_ast]; [reflexivity|].
  rewrite eval_results_flat_map. cbn [bind]. apply IH.
Qed.

(** The matches of a token list on a value, with paths relative to it. *)
Definition run (ast : list token) (v : value) : list pmatch :=
  run_from ast [ {| m_value := v; m_path := [] |} ].

Lemma evaluatePath_run (data : value) (ast : list token) :
  evaluatePath data (PAst ast) = Ok (run ast data).
Proof. apply eval_ast_run. Qed.

Lemma run_from_app (ast : list token) (a b : list pmatch) :
  run_from ast (a ++ b) = run_from ast a ++ run_from ast b.
Proof.
  revert a b; induction ast as [|tok rest IH]; intros a b; [reflexivity|].
  unfold run_from; cbn [fold_left]. rewrite flat_map_app. apply IH.
Qed.

Lemma run_from_nil (ast : list token) : run_from ast [] = [].
Proof. induction ast as [|tok rest IH]; [reflexivity|exact IH]. Qed.

Lemma run_from_flat_map (ast : list token) (results : list pmatch) :
  run_from ast results = flat_map (fun m => run_from ast [m]) results.
Proof.
  induction results as [|m rest IH]; cbn [flat_map]; [apply run_from_nil|].
  change (m :: rest) with ([m] ++ rest). rewrite run_from_app, IH. reflexivity.
Qed.

(** A token looks at the value of a match only; it continues its path. *)
Lemma matches_of_shift (tok : token) (prefix : list seg) (m : pmatch) :
  matches_of tok (shift prefix m) = map (shift prefix) (matches_of tok m).
Proof.
  unfold matches_of, shift. destruct m as [value path].
  destruct tok as [|name| |n]; cbn [eval_token m_value m_path].
  - reflexivity.
  - destruct (truthy value && typeof_object value && negb (isArray value)); [|reflexivity].
    destruct (js_in name value) as [[|]| |]; cbn [bind]; try reflexivity.
    destruct (js_get value name); cbn [bind map]; try reflexivity.
    cbn. rewrite app_assoc. reflexivity.
  - destruct value; try reflexivity.
    rewrite map_map. apply map_ext. intros [idx item]. cbn.
    rewrite app_assoc. reflexivity.
  - destruct value; try reflexivity.
    destruct (n <? List.length items); [|reflexivity].
    cbn. rewrite app_assoc. reflexivity.
Qed.

Lemma flat_map_matches_shift (tok : token) (prefix : list seg) (results : list pmatch) :
  flat_map (matches_of tok) (map (shift prefix) results)
  = map (shift prefix) (flat_map (matches_of tok) results).
Proof.
  induction results as [|m more IH]; cbn [map flat_map]; [reflexivity|].
  rewrite map_app, matches_of_shift, IH. reflexivity.
Qed.

Lemma run_from_cons (tok : token) (ast : list token) (results : list pmatch) :
  run_from (tok :: ast) results = run_from ast (flat_map (matches_of tok) results).
Proof. reflexivity. Qed.

Lemma run_from_shift (ast : list token) (prefix : list seg) (results : list pmatch) :
  run_from ast (map (shift prefix) results) = map (shift prefix) (run_from ast results).
Proof.
  revert results; induction ast as [|tok rest IH]; intros results; [reflexivity|].
  rewrite !run_from_cons, flat_map_matches_shift. apply IH.
Qed.

Lemma shift_root (m : pmatch) :
  shift (m_path m) {| m_value := m_value m; m_path := [] |} = m.
Proof. destruct m as [v p]. unfold shift. cbn. rewrite app_nil_r. reflexivity. Qed.

Lemma run_from_single (ast : list token) (m : pmatch) :
  run_from ast [m] = map (shift (m_path m)) (run ast (m_value m)).
Proof.
  unfold run. rewrite <- run_from_shift. cbn [map]. rewrite shift_root. reflexivity.
Qed.

Lemma run_app (a b : list token) (results : list pmatch) :
  run_from (a ++ b) results = run_from b (run_from a results).
Proof. apply fold_left_app. Qed.

(** X1.  Evaluation composes along the token list: the matches of [a ++ b]
    on [data] are, for every match [m] of [a] in order, the matches of [b]
    on the value of [m], each with its path appended to the path of [m].
    None of the evaluations involved raises. *)
Theorem evaluatePath_composes (data : value) (a b : list token) :
  exists ms,
    evaluatePath data (PAst a) = Ok ms
    /\ (forall m, In m ms -> evaluatePath (m_value m) (PAst b) = Ok (run b (m_value m)))
    /\ evaluatePath data (PAst (a ++ b))
       = Ok (flat_map (fun m => map (shift (m_path m)) (run b (m_value m))) ms).
Proof.
  exists (run a data). split; [apply evaluatePath_run|].
  split; [intros m _; apply evaluatePath_run|].
  rewrite evaluatePath_run. f_equal. unfold run at 1.
  rewrite run_app, run_from_flat_map.
  apply flat_map_ext. intros m. apply run_from_single.
Qed.

Lemma indexed_in (items : list value) (idx : nat) (item : value) :
  In (idx, item) (indexed items) ->
  idx < List.length items /\ nth idx items VUndefined = item.
Proof.
  unfold indexed.
  assert (G : forall base, In (idx, item) (combine (seq base (List.length items)) items) ->
                           base <= idx /\ idx - base < List.length items
                           /\ nth (idx - base) items VUndefined = item).
  { induction items as [|x rest IH]; intros base; cbn [List.length seq combine].
    - intros [].
    - intros [[= <- <-]|Hin].
      + rewrite Nat.sub_diag. cbn. repeat split; lia.
      + destruct (IH (S base) Hin) as [Hle [Hlt Hn]].
        replace (idx - base) with (S (idx - S base)) by lia.
        cbn. repeat split; try lia. exact Hn. }
  intros Hin. destruct (G 0 Hin) as [_ [Hlt Hn]].
  rewrite Nat.sub_0_r in Hlt, Hn. split; assumption.
Qed.

(** A match of one token is selected again by the token of its last
    segment. *)
Lemma matches_of_addressed (tok : token) (m m' : pmatch) :
  In m' (matches_of tok m) ->
  (tok = Root /\ m' = m)
  \/ (exists s, m_path m' = m_path m ++ [s] /\ matches_of (token_of_seg s) m = [m']).
Proof.
  unfold matches_of. destruct m as [value path].
  destruct tok as [|name| |n]; cbn [eval_token m_value m_path].
  - intros [<-|[]]. left; split; reflexivity.
  - destruct (truthy value && typeof_object value && negb (isArray value)) eqn:G;
      [|intros []].
    destruct (js_in name value) as [[|]| |] eqn:Ein; cbn [bind]; try (now intros []).
    destruct (js_get value name) as [v| |] eqn:Eget; cbn [bind]; try (now intros []).
    intros [<-|[]]. right. exists (SKey name). split; [reflexivity|].
    cbn [token_of_seg eval_token m_value m_path]. rewrite G, Ein. cbn [bind].
    rewrite Eget. reflexivity.
  - destruct value; try (now intros []).
    intros Hin. apply in_map_iff in Hin. destruct Hin as [[idx item] [<- Hin]].
    apply indexed_in in Hin. destruct Hin as [Hlt Hn].
    right. exists (SIdx idx). split; [reflexivity|].
    cbn [token_of_seg eval_token m_value m_path].
    apply Nat.ltb_lt in Hlt. rewrite Hlt, Hn. reflexivity.
  - destruct value; try (now intros []).
    destruct (n <? List.length items) eqn:E; [|intros []].
    intros [<-|[]]. right. exists (SIdx n). split; [reflexivity|].
    cbn [token_of_seg eval_token m_value m_path]. rewrite E. reflexivity.
Qed.

Lemma run_from_addressed (ast : list token) (data : value) (results : list pmatch) :
  (forall m, In m results -> run (map token_of_seg (m_path m)) data = [m]) ->
  forall m, In m (run_from ast results) -> run (map token_of_seg (m_path m)) data = [m].
Proof.
  revert results; induction ast as [|tok rest IH]; intros results Inv; [exact Inv|].
  rewrite run_from_cons. apply IH. intros m' Hin.
  apply in_flat_map in Hin. destruct Hin as [m [Hm Hin]].
  destruct (matches_of_addressed tok m m' Hin) as [[_ ->]|[s [Ep Es]]]; [apply Inv, Hm|].
  rewrite Ep, map_app. unfold run. rewrite run_app.
  fold (run (map token_of_seg (m_path m)) data). rewrite (Inv m Hm).
  cbn. rewrite Es. apply app_nil_r.
Qed.

(** X2.  The concrete path of a match is its address: read as a path, with a
    [FIELD] token for every key and an [INDEX] token for every index, it
    evaluates on the same data to that match and to nothing else. *)
Theorem match_path_addresses_its_value (data : value) (p : pathOrAst) (ms : list pmatch)
    (m : pmatch) :
  evaluatePath data p = Ok ms -> In m ms ->
  evaluatePath data (PAst (map token_of_seg (m_path m))) = Ok [m].
Proof.
  unfold evaluatePath at 1. destruct (to_ast p) as [ast| |]; cbn [bind]; try discriminate.
  rewrite eval_ast_run. intros [= <-] Hin.
  rewrite evaluatePath_run. f_equal.
  apply (run_from_addressed ast data [ {| m_value := data; m_path := [] |} ]); [|exact Hin].
  intros m0 [<-|[]]. reflexivity.
Qed.

Lemma matches_of_at_most_one (tok : token) (m : pmatch) :
  tok <> AllItems -> List.length (matches_of tok m) <= 1.
Proof.
  intros N. unfold matches_of. destruct m as [value path].
  destruct tok as [|name| |n]; cbn [eval_token m_value m_path]; [cbn; lia| |congruence|].
  - destruct (truthy value && typeof_object value && negb (isArray value)); [|cbn; lia].
    destruct (js_in name value) as [[|]| |]; cbn [bind]; try (cbn; lia).
    destruct (js_get value name); cbn; lia.
  - destruct value; try (cbn; lia).
    destruct (n <? List.length items); cbn; lia.
Qed.

Lemma run_from_at_most_one (ast : list token) (results : list pmatch) :
  ~ In AllItems ast -> List.length results <= 1 -> List.length (run_from ast results) <= 1.
Proof.
  revert results; induction ast as [|tok rest IH]; intros results N L; [exact L|].
  rewrite run_from_cons. apply IH; [intros Hin; apply N; right; exact Hin|].
  destruct results as [|m [|m' more]]; cbn in L |- *; [lia| |lia].
  rewrite app_nil_r. apply matches_of_at_most_one.
  intros ->. apply N. left; reflexivity.
Qed.

(** X3.  Only [[*]] multiplies matches: a path without an [ALL_ITEMS] token
    evaluates to at most one match, so [evaluatePathSingle] loses nothing on
    it. *)
Theorem path_without_wildcard_matches_once (data : value) (ast : list token) :
  ~ In AllItems ast ->
  exists ms, evaluatePath data (PAst ast) = Ok ms /\ List.length ms <= 1.
Proof.
  intros N. exists (run ast data). split; [apply evaluatePath_run|].
  apply run_from_at_most_one; [exact N|cbn; lia].
Qed.

End Evaluation.

End PathLaws.
(* ================================================================== *)
(** * The order on path strings *)
(* ================================================================== *)

Module ParentPathLaws.
Import Path StrFacts.

(** The normal form that [isParentPath] compares. *)
Definition norm (path : string) : string :=
  if String.eqb path "$" then "" else strip_root path.

(** What may follow the parent inside the child: nothing, or a part that
    starts with [.] or with [[]. *)
Definition continues (remainder : string) : Prop :=
  remainder = "" \/ Str.startsWith remainder "." = true \/ Str.startsWith remainder "[" = true.

Lemma continues_append (r1 r2 : string) : continues r1 -> continues r2 -> continues (r1 +++ r2).
Proof.
  intros [->|C1] C2; [exact C2|].
  right. destruct r1 as [|c r1]; [destruct C1; discriminate|].
  cbn [String.append]. rewrite !startsWith_cons, !startsWith_nil in *. exact C1.
Qed.

Lemma isParentPath_spec (pathA pathB : string) :
  isParentPath pathA pathB = true
  <-> norm pathA = "" \/ exists r, norm pathB = norm pathA +++ r /\ continues r.
Proof.
  unfold isParentPath. fold (norm pathA) (norm pathB).
  destruct (String.eqb (norm pathA) "") eqn:EA.
  - apply String.eqb_eq in EA. rewrite EA. cbn [andb].
    split; [intros _; left; reflexivity|intros _].
    destruct (negb (String.eqb (norm pathB) "")) eqn:EB; [reflexivity|].
    apply negb_false_iff, String.eqb_eq in EB. rewrite EB. reflexivity.
  - cbn [andb]. apply String.eqb_neq in EA.
    destruct (Str.startsWith (norm pathB) (norm pathA)) eqn:S.
    + apply startsWith_inv in S. split.
      * intros C. right. eexists. split; [exact S|].
        apply orb_true_iff in C as [C|C]; [apply orb_true_iff in C as [C|C]|].
        -- left. apply String.eqb_eq, C.
        -- right; left; exact C.
        -- right; right; exact C.
      * intros [E|[r [E C]]]; [contradiction|].
        rewrite E, drop_append.
        destruct C as [->|[C|C]]; [reflexivity|rewrite C|rewrite C];
          rewrite ?orb_true_r; reflexivity.
    + split; [discriminate|]. intros [E|[r [E C]]]; [contradiction|].
      rewrite E, startsWith_append in S. discriminate.
Qed.

(** X4.  [isParentPath] is reflexive and transitive.  Every path passes as
    a parent of itself, the root included: [isParentPath(p, p)] is [true]. *)
Theorem isParentPath_is_a_preorder :
  (forall p, isParentPath p p = true)
  /\ (forall a b c,
        isParentPath a b = true -> isParentPath b c = true -> isParentPath a c = true).
Proof.
  split.
  - intros p. apply isParentPath_spec. right. exists "". split; [|left; reflexivity].
    symmetry. apply append_nil_r.
  - intros a b c Hab Hbc. apply isParentPath_spec in Hab, Hbc. apply isParentPath_spec.
    destruct Hab as [E|[r1 [E1 C1]]]; [left; exact E|].
    destruct Hbc as [E|[r2 [E2 C2]]].
    + rewrite E in E1. symmetry in E1. apply append_eq_nil in E1 as [E1 _].
      left; exact E1.
    + right. exists (r1 +++ r2). split; [|apply continues_append; assumption].
      rewrite E2, E1. apply append_assoc.
Qed.

Lemma strip_root_id (path : string) :
  Str.startsWith path "$" = false -> strip_root path = path.
Proof. unfold strip_root. intros ->. reflexivity. Qed.

Lemma take_startsWith (n : nat) (s : string) :
  Str.take n s <> "" -> Str.startsWith (Str.take n s) "$" = Str.startsWith s "$".
Proof.
  destruct n as [|n]; [intros N; contradiction N; reflexivity|].
  destruct s as [|c r]; [reflexivity|]. intros _. cbn [Str.take].
  rewrite !startsWith_cons, !startsWith_nil. reflexivity.
Qed.

(** X5.  [getParentPath] and [isParentPath] agree: whenever [getParentPath]
    returns a parent for a path whose normal form does not itself begin with
    [$], [isParentPath] accepts that parent for the path. *)
Theorem getParentPath_is_a_parent (path parent : string) :
  Str.startsWith (strip_root path) "$" = false ->
  getParentPath path = Some parent ->
  isParentPath parent path = true.
Proof.
  intros D. unfold getParentPath.
  destruct (String.eqb path "" || String.eqb path "$") eqn:E0; [discriminate|].
  apply orb_false_iff in E0 as [_ E0].
  destruct (String.eqb (strip_root path) "") eqn:E1; [discriminate|].
  assert (root : isParentPath "$" path = true).
  { apply isParentPath_spec. left. reflexivity. }
  assert (cut : forall i r, Str.drop i (strip_root path) = r -> continues r ->
                Some (if String.eqb (Str.slice 0 i (strip_root path)) "" then "$"
                      else Str.slice 0 i (strip_root path)) = Some parent ->
                isParentPath parent path = true).
  { intros i r Er C. unfold Str.slice. rewrite Nat.sub_0_r. cbn [Str.drop].
    destruct (String.eqb (Str.take i (strip_root path)) "") eqn:E2; intros [= <-]; [exact root|].
    apply String.eqb_neq in E2.
    apply isParentPath_spec. right. exists r. split; [|exact C].
    unfold norm. rewrite E0.
    assert (S : Str.startsWith (Str.take i (strip_root path)) "$" = false).
    { rewrite take_startsWith; assumption. }
    destruct (String.eqb (Str.take i (strip_root path)) "$") eqn:E3.
    - apply String.eqb_eq in E3. rewrite E3 in S. discriminate.
    - rewrite (strip_root_id _ S), <- Er. symmetry. apply take_drop. }
  destruct (Str.lastIndexOf "." (strip_root path)) as [i|] eqn:Ld;
    destruct (Str.lastIndexOf "[" (strip_root path)) as [j|] eqn:Lb.
  - destruct (lastIndexOf_drop _ _ _ Ld) as [rd Ed].
    destruct (lastIndexOf_drop _ _ _ Lb) as [rb Eb].
    destruct (Z.max_spec (Z.of_nat i) (Z.of_nat j)) as [[_ ->]|[_ ->]];
      rewrite Nat2Z.id; eapply cut; eauto; right; [right|left]; apply startsWith_head.
  - destruct (lastIndexOf_drop _ _ _ Ld) as [rd Ed].
    rewrite Z.max_l by lia. rewrite Nat2Z.id. eapply cut; eauto.
    right; left; apply startsWith_head.
  - destruct (lastIndexOf_drop _ _ _ Lb) as [rb Eb].
    rewrite Z.max_r by lia. rewrite Nat2Z.id. eapply cut; eauto.
    right; right; apply startsWith_head.
  - intros [= <-]. exact root.
Qed.

End ParentPathLaws.
(* ================================================================== *)
(** * Laws of the path parser *)
(* ================================================================== *)

Module ParseLaws.
Import Path PathFacts StrFacts PathLaws.

(** ** Decimal numerals *)

Definition parse_acc : nat -> string -> nat :=
  fix go (acc : nat) (s : string) : nat :=
    match s with
    | EmptyString => acc
    | String c r => go (10 * acc + (Str.code c - 48)) r
    end.

Lemma parseInt_unfold (s : string) : Str.parseInt s = parse_acc 0 s.
Proof. reflexivity. Qed.

Lemma parse_acc_digits (d : Decimal.uint) (acc : nat) :
  parse_acc acc (NilEmpty.string_of_uint d) = Nat.of_uint_acc d acc.
Proof.
  revert acc; induction d; intros acc; cbn [NilEmpty.string_of_uint parse_acc Nat.of_uint_acc];
    [reflexivity|..]; rewrite IHd, Nat.tail_mul_spec; f_equal; cbn; lia.
Qed.

Lemma digits_all (d : Decimal.uint) :
  Str.all_chars Str.is_digit (NilEmpty.string_of_uint d) = true.
Proof. induction d; cbn; try reflexivity; exact IHd. Qed.

Lemma string_of_nat_digits (n : nat) :
  Str.all_chars Str.is_digit (string_of_nat n) = true.
Proof.
  unfold string_of_nat, NilZero.string_of_uint.
  destruct (Nat.to_uint n); [reflexivity|..]; apply digits_all.
Qed.

Lemma string_of_nat_nonempty (n : nat) : string_of_nat n <> "".
Proof.
  unfold string_of_nat, NilZero.string_of_uint.
  destruct (Nat.to_uint n); discriminate.
Qed.

(** Printing an index and reading it back gives the index. *)
Lemma parseInt_string_of_nat (n : nat) : Str.parseInt (string_of_nat n) = n.
Proof.
  rewrite parseInt_unfold. unfold string_of_nat, NilZero.string_of_uint.
  rewrite <- (DecimalNat.Unsigned.of_to n) at 2. unfold Nat.of_uint.
  destruct (Nat.to_uint n) eqn:E; [reflexivity|..]; apply parse_acc_digits.
Qed.

(** ** One round of the parser loop *)

(** [/^[a-zA-Z_][a-zA-Z0-9_-]*$/]: a key that the parser reads as one
    field name. *)
Definition ident (k : string) : bool :=
  match k with
  | String c r => Str.is_ident_start c && Str.all_chars Str.is_ident_char r
  | EmptyString => false
  end.

(** Nothing, or something whose first character fails [p]. *)
Definition stops (p : ascii -> bool) (tail : string) : Prop :=
  tail = "" \/ exists c t, tail = String c t /\ p c = false.

Lemma take_while_append (p : ascii -> bool) (s tail : string) :
  Str.all_chars p s = true -> stops p tail ->
  Str.take_while p (s +++ tail) = s.
Proof.
  intros A T. induction s as [|c r IH]; cbn [String.append Str.take_while].
  - destruct T as [->|[c [t [-> E]]]]; [reflexivity|]. cbn. rewrite E. reflexivity.
  - cbn in A. apply andb_true_iff in A as [A1 A2]. rewrite A1, (IH A2). reflexivity.
Qed.

Lemma ident_start_char (c : ascii) :
  Str.is_ident_start c = true ->
  Ascii.eqb c "[" = false /\ Str.is_digit c = false /\ Str.is_ident_char c = true.
Proof.
  intros E. repeat split.
  - destruct (Ascii.eqb c "[") eqn:B; [|reflexivity].
    apply Ascii.eqb_eq in B. subst c. discriminate E.
  - unfold Str.is_ident_start in E. unfold Str.is_digit.
    destruct (48 <=? Str.code c) eqn:L1; [|reflexivity].
    destruct (Str.code c <=? 57) eqn:L2; [|reflexivity].
    apply Nat.leb_le in L1, L2.
    apply orb_true_iff in E as [E|E]; [apply orb_true_iff in E as [E|E]|];
      [apply andb_true_iff in E as [E1 E2]; apply Nat.leb_le in E1, E2; lia
      |apply andb_true_iff in E as [E1 E2]; apply Nat.leb_le in E1, E2; lia
      |apply Nat.eqb_eq in E; lia].
  - unfold Str.is_ident_char. rewrite E. reflexivity.
Qed.

Lemma digit_char (c : ascii) :
  Str.is_digit c = true -> Ascii.eqb c "[" = false.
Proof.
  intros E. destruct (Ascii.eqb c "[") eqn:B; [|reflexivity].
  apply Ascii.eqb_eq in B. subst c. discriminate E.
Qed.

(** A field name in front of the end or of a character that cannot
    continue it is read as one [FIELD] token. *)
Lemma round_field (fuel : nat) (k tail : string) (acc : list token) :
  ident k = true -> stops Str.is_ident_char tail ->
  parse_segments (S fuel) (k +++ tail) acc
  = parse_segments fuel (consume_dot tail) (acc ++ [Field k]).
Proof.
  intros I T. destruct k as [|c r]; [discriminate|].
  cbn in I. apply andb_true_iff in I as [I1 I2].
  destruct (ident_start_char c I1) as [B [D C]].
  cbn [String.append parse_segments]. rewrite B, D, I1.
  assert (N : Str.take_while Str.is_ident_char (String c (r +++ tail)) = String c r).
  { apply (take_while_append Str.is_ident_char (String c r) tail).
    - cbn. rewrite C. exact I2.
    - exact T. }
  rewrite N. change (String c (r +++ tail)) with (String c r +++ tail).
  rewrite drop_append. reflexivity.
Qed.

(** A numeral in front of the end or of a character that is not a digit is
    read as one [INDEX] token. *)
Lemma round_index (fuel : nat) (ds tail : string) (acc : list token) :
  ds <> "" -> Str.all_chars Str.is_digit ds = true -> stops Str.is_digit tail ->
  parse_segments (S fuel) (ds +++ tail) acc
  = parse_segments fuel (consume_dot tail) (acc ++ [Index (Str.parseInt ds)]).
Proof.
  intros N A T. destruct ds as [|c r]; [contradiction N; reflexivity|].
  assert (A' := A). cbn in A'. apply andb_true_iff in A' as [A1 A2].
  cbn [String.append parse_segments]. rewrite (digit_char c A1), A1.
  assert (E : Str.take_while Str.is_digit (String c (r +++ tail)) = String c r).
  { apply (take_while_append Str.is_digit (String c r) tail); [exact A|exact T]. }
  rewrite E. change (String c (r +++ tail)) with (String c r +++ tail).
  rewrite drop_append. reflexivity.
Qed.

Lemma indexOf_digits (ds tail : string) :
  Str.all_chars Str.is_digit ds = true ->
  Str.indexOf "]" (ds +++ String "]" tail) = Some (String.length ds).
Proof.
  intros A. induction ds as [|c r IH]; [reflexivity|].
  cbn in A. apply andb_true_iff in A as [A1 A2].
  cbn [String.append Str.indexOf String.length].
  destruct (Ascii.eqb c "]") eqn:B.
  - apply Ascii.eqb_eq in B. subst c. discriminate A1.
  - rewrite (IH A2). reflexivity.
Qed.

Lemma digits_not_star (ds : string) :
  Str.all_chars Str.is_digit ds = true -> String.eqb ds "*" = false.
Proof.
  intros A. destruct (String.eqb ds "*") eqn:E; [|reflexivity].
  apply String.eqb_eq in E. subst ds. discriminate A.
Qed.

(** A numeral in brackets is read as one [INDEX] token. *)
Lemma round_bracket (fuel : nat) (ds tail : string) (acc : list token) :
  ds <> "" -> Str.all_chars Str.is_digit ds = true ->
  parse_segments (S fuel) (String "[" (ds +++ String "]" tail)) acc
  = parse_segments fuel (if Str.startsWith tail "." then Str.drop 1 tail else tail)
      (acc ++ [Index (Str.parseInt ds)]).
Proof.
  intros N A.
  assert (D : Str.drop (S (String.length ds) + 1) (String "[" (ds +++ String "]" tail)) = tail).
  { replace (S (String.length ds) + 1) with (S (S (String.length ds))) by lia.
    change (Str.drop (S (String.length ds)) (ds +++ String "]" tail) = tail).
    induction ds as [|c r IH] in |- *; [reflexivity|exact IH]. }
  assert (T : Str.slice 1 (S (String.length ds)) (String "[" (ds +++ String "]" tail)) = ds).
  { unfold Str.slice. rewrite Nat.sub_succ, Nat.sub_0_r.
    change (Str.take (String.length ds) (ds +++ String "]" tail) = ds). apply take_append. }
  cbn [parse_segments]. rewrite Ascii.eqb_refl.
  cbn [Str.indexOf]. change (Ascii.eqb "[" "]") with false. cbv iota.
  rewrite (indexOf_digits ds tail A). cbn [option_map].
  rewrite T, D, (digits_not_star ds A).
  unfold Str.all_digits. rewrite A.
  destruct (String.eqb ds "") eqn:E; [apply String.eqb_eq in E; contradiction|].
  reflexivity.
Qed.

(** The trailing-dot rule drops one leading dot, if there is one. *)
Definition enter (s : string) : string :=
  if Str.startsWith s "." then Str.drop 1 s else s.

Lemma consume_dot_enter (s : string) : consume_dot s = enter s.
Proof.
  unfold consume_dot, enter.
  destruct s as [|c r]; [reflexivity|].
  rewrite startsWith_cons, startsWith_nil, andb_true_r.
  destruct (Ascii.eqb "." c) eqn:E; [|cbn [andb]].
  - apply Ascii.eqb_eq in E. subst c. destruct r; reflexivity.
  - destruct (String.eqb (String c r) ".") eqn:E'; [|reflexivity].
    apply String.eqb_eq in E'. injection E' as -> _. discriminate E.
Qed.

Lemma enter_dot (r : string) : enter (String "." r) = r.
Proof. unfold enter. rewrite startsWith_head. reflexivity. Qed.

Lemma enter_bracket (r : string) : enter (String "[" r) = String "[" r.
Proof. unfold enter. rewrite startsWith_cons. reflexivity. Qed.

Lemma enter_length (s : string) : String.length (enter s) <= String.length s.
Proof. rewrite <- consume_dot_enter. apply consume_dot_length. Qed.

(** ** Node paths *)

(** A segment that a path string can name: an index, or a key that is an
    identifier. *)
Definition good_seg (s : seg) : Prop :=
  match s with
  | SKey k => ident k = true
  | SIdx _ => True
  end.

(** [['$', ...segs].join('.')]: the path of a graph node, which is also the
    part of its id behind the call id. *)
Definition node_path (segs : list seg) : string :=
  Str.join "." ("$" :: map Engine.seg_string segs).

Lemma nodeId_of_node_path `{Host} (callId : string) (segs : list seg) :
  Merge.nodeId_of callId segs = callId +++ ":" +++ node_path segs.
Proof. reflexivity. Qed.

(** The segments in dot notation, each behind its dot. *)
Fixpoint dotted (segs : list seg) : string :=
  match segs with
  | [] => ""
  | s :: rest => String "." (Engine.seg_string s +++ dotted rest)
  end.

(** The segments in JSONPath notation: [.key] and [[index]]. *)
Fixpoint bracketed (segs : list seg) : string :=
  match segs with
  | [] => ""
  | SKey k :: rest => String "." (k +++ bracketed rest)
  | SIdx n :: rest => String "[" (string_of_nat n +++ String "]" (bracketed rest))
  end.

Lemma join_dotted (x : string) (segs : list seg) :
  Str.join "." (x :: map Engine.seg_string segs) = x +++ dotted segs.
Proof.
  revert x; induction segs as [|s rest IH]; intros x.
  - cbn. symmetry. apply append_nil_r.
  - cbn [map]. change (Str.join "." (x :: Engine.seg_string s :: map Engine.seg_string rest))
      with (x +++ "." +++ Str.join "." (Engine.seg_string s :: map Engine.seg_string rest)).
    rewrite IH. reflexivity.
Qed.

Lemma node_path_dotted (segs : list seg) : node_path segs = String "$" (dotted segs).
Proof. apply (join_dotted "$"). Qed.

Lemma seg_string_nonempty (s : seg) : good_seg s -> Engine.seg_string s <> "".
Proof.
  destruct s as [k|n]; cbn.
  - destruct k; [discriminate|]. intros _ E. discriminate E.
  - intros _. apply string_of_nat_nonempty.
Qed.

Lemma char_classes (c : ascii) :
  (Str.is_ident_char c = true -> Str.is_space c = false /\ Ascii.eqb c "." = false)
  /\ (Str.is_digit c = true -> Str.is_ident_char c = true).
Proof.
  destruct c as [[] [] [] [] [] [] [] []]; vm_compute; repeat split; congruence.
Qed.

Lemma dotted_stops (p : ascii -> bool) (segs : list seg) :
  p "."%char = false -> stops p (dotted segs).
Proof. intros E. destruct segs; [left; reflexivity|right; cbn; eauto]. Qed.

Lemma bracketed_stops (p : ascii -> bool) (segs : list seg) :
  p "."%char = false -> p "["%char = false -> stops p (bracketed segs).
Proof.
  intros E1 E2. destruct segs as [|[k|n] rest]; [left; reflexivity|right; cbn; eauto..].
Qed.

Lemma enter_dotted (s : seg) (rest : list seg) :
  enter (dotted (s :: rest)) = Engine.seg_string s +++ dotted rest.
Proof. apply enter_dot. Qed.

Lemma length_dotted_cons (s : seg) (rest : list seg) :
  good_seg s -> S (String.length (dotted rest)) <= String.length (enter (dotted (s :: rest))).
Proof.
  intros G. rewrite enter_dotted, length_append.
  apply seg_string_nonempty in G. destruct (Engine.seg_string s); [contradiction|cbn; lia].
Qed.

(** The parser reads the dot notation of a list of segments back as the
    tokens of the segments. *)
Lemma parse_dotted (segs : list seg) :
  Forall good_seg segs ->
  forall fuel acc, String.length (enter (dotted segs)) <= fuel ->
    parse_segments fuel (enter (dotted segs)) acc = Ok (acc ++ map token_of_seg segs).
Proof.
  induction 1 as [|s rest G F IH]; intros fuel acc L.
  - cbn. rewrite app_nil_r. destruct fuel; reflexivity.
  - pose proof (length_dotted_cons s rest G) as L'.
    destruct fuel as [|fuel]; [lia|].
    rewrite enter_dotted.
    assert (Next : forall tok,
               parse_segments fuel (consume_dot (dotted rest)) (acc ++ [tok])
               = Ok (acc ++ tok :: map token_of_seg rest)).
    { intros tok. rewrite consume_dot_enter, IH.
      - rewrite <- app_assoc. reflexivity.
      - pose proof (enter_length (dotted rest)). lia. }
    destruct s as [k|n]; cbn [Engine.seg_string map token_of_seg].
    + rewrite round_field; [apply Next|exact G|apply dotted_stops; reflexivity].
    + rewrite round_index;
        [rewrite parseInt_string_of_nat; apply Next
        |apply string_of_nat_nonempty|apply string_of_nat_digits
        |apply dotted_stops; reflexivity].
Qed.

Lemma enter_bracketed_length (s : seg) (rest : list seg) :
  good_seg s ->
  S (String.length (bracketed rest)) <= String.length (enter (bracketed (s :: rest))).
Proof.
  intros G. destruct s as [k|n]; cbn [bracketed].
  - rewrite enter_dot, length_append. destruct k; [discriminate G|cbn; lia].
  - rewrite enter_bracket.
    cbn [String.length]. rewrite length_append. cbn [String.length]. lia.
Qed.

(** The parser reads the JSONPath notation of a list of segments back as
    the same tokens. *)
Lemma parse_bracketed (segs : list seg) :
  Forall good_seg segs ->
  forall fuel acc, String.length (enter (bracketed segs)) <= fuel ->
    parse_segments fuel (enter (bracketed segs)) acc = Ok (acc ++ map token_of_seg segs).
Proof.
  induction 1 as [|s rest G F IH]; intros fuel acc L.
  - cbn. rewrite app_nil_r. destruct fuel; reflexivity.
  - pose proof (enter_bracketed_length s rest G) as L'.
    destruct fuel as [|fuel]; [lia|].
    assert (Next : forall tok,
               parse_segments fuel (enter (bracketed rest)) (acc ++ [tok])
               = Ok (acc ++ tok :: map token_of_seg rest)).
    { intros tok. rewrite IH.
      - rewrite <- app_assoc. reflexivity.
      - pose proof (enter_length (bracketed rest)). lia. }
    destruct s as [k|n]; cbn [bracketed map token_of_seg].
    + rewrite enter_dot.
      rewrite round_field; [rewrite consume_dot_enter; apply Next|exact G|].
      apply bracketed_stops; reflexivity.
    + rewrite enter_bracket.
      rewrite round_bracket;
        [rewrite parseInt_string_of_nat; apply Next
        |apply string_of_nat_nonempty|apply string_of_nat_digits].
Qed.

(** ** The shape of a parsed path *)

(** The tokens already read stay in front of the tokens still to come. *)
Lemma parse_segments_acc (fuel : nat) (remaining : string) (acc : list token) :
  parse_segments fuel remaining acc
  = (toks <- parse_segments fuel remaining [] ;; Ok (acc ++ toks)).
Proof.
  revert remaining acc; induction fuel as [|fuel IH]; intros remaining acc.
  - destruct remaining; cbn; rewrite app_nil_r; reflexivity.
  - destruct remaining as [|c rest]; [cbn; rewrite app_nil_r; reflexivity|].
    assert (Step : forall r tok,
               parse_segments fuel r (acc ++ [tok])
               = (toks <- parse_segments fuel r ([] ++ [tok]) ;; Ok (acc ++ toks))).
    { intros r tok. rewrite (IH r (acc ++ [tok])), (IH r ([] ++ [tok])).
      destruct (parse_segments fuel r []); cbn [bind]; [|reflexivity..].
      rewrite <- app_assoc. reflexivity. }
    cbn [parse_segments].
    destruct (Ascii.eqb c "[").
    + destruct (Str.indexOf "]" (String c rest)) as [closeIdx|]; [|reflexivity].
      destruct (if String.eqb (Str.slice 1 closeIdx (String c rest)) "*" then _ else _)
        as [tok| |]; cbn [bind]; [apply Step|reflexivity..].
    + destruct (Str.is_digit c); [apply Step|].
      destruct (Str.is_ident_start c); [apply Step|].
      destruct (Ascii.eqb c "."); [apply IH|reflexivity].
Qed.

Definition not_root (tok : token) : Prop := tok <> Root.

Lemma parse_segments_no_root (fuel : nat) (remaining : string) (toks : list token) :
  parse_segments fuel remaining [] = Ok toks -> Forall not_root toks.
Proof.
  revert remaining toks; induction fuel as [|fuel IH]; intros remaining toks.
  - destruct remaining; intros [= <-]; constructor.
  - destruct remaining as [|c rest]; [intros [= <-]; constructor|].
    assert (Step : forall r tok, not_root tok ->
               parse_segments fuel r ([] ++ [tok]) = Ok toks -> Forall not_root toks).
    { intros r tok N. rewrite parse_segments_acc.
      destruct (parse_segments fuel r []) as [more| |] eqn:E; cbn [bind]; try discriminate.
      intros [= <-]. constructor; [exact N|apply (IH r), E]. }
    cbn [parse_segments].
    destruct (Ascii.eqb c "[").
    + destruct (Str.indexOf "]" (String c rest)) as [closeIdx|]; [|discriminate].
      destruct (String.eqb (Str.slice 1 closeIdx (String c rest)) "*");
        [cbn [bind]; apply Step; discriminate|].
      destruct (Str.all_digits (Str.slice 1 closeIdx (String c rest)));
        [cbn [bind]; apply Step; discriminate|discriminate].
    + destruct (Str.is_digit c); [apply Step; discriminate|].
      destruct (Str.is_ident_start c); [apply Step; discriminate|].
      destruct (Ascii.eqb c "."); [apply IH|discriminate].
Qed.

(** X8.  A parsed path is never empty and names the root at its head only:
    behind the first token come [FIELD], [ALL_ITEMS] and [INDEX] tokens and
    no [ROOT]. *)
Theorem parsed_path_has_root_at_head_only (pathStr : string) (tokens : list token) :
  parsePath pathStr = Ok tokens ->
  tokens <> [] /\ Forall not_root (tl tokens).
Proof.
  unfold parsePath.
  destruct (String.eqb pathStr ""); [intros [= <-]; split; [discriminate|constructor]|].
  destruct (_ || _); [intros [= <-]; split; [discriminate|constructor]|].
  destruct (Str.startsWith (Str.trim pathStr) "$").
  - rewrite parse_segments_acc.
    destruct (parse_segments _ _ []) as [toks| |] eqn:E; cbn [bind]; try discriminate.
    intros [= <-]. split; [discriminate|]. apply (parse_segments_no_root _ _ _ E).
  - destruct (parse_segments _ _ []) as [toks| |] eqn:E; cbn [bind]; try discriminate.
    apply parse_segments_no_root in E.
    intros [= <-]. destruct toks as [|tok more]; [split; [discriminate|constructor]|].
    split; [discriminate|]. inversion E; assumption.
Qed.

(** ** Surrounding white space *)

Definition no_space (s : string) : bool :=
  Str.all_chars (fun c => negb (Str.is_space c)) s.

Lemma trim_end_id (s : string) : no_space s = true -> Str.trim_end s = s.
Proof.
  induction s as [|c r IH]; [reflexivity|].
  cbn. intros E. apply andb_true_iff in E as [E1 E2].
  rewrite (IH E2). apply negb_true_iff in E1. rewrite E1. destruct r; reflexivity.
Qed.

Lemma trim_id (s : string) : no_space s = true -> Str.trim s = s.
Proof.
  intros E. unfold Str.trim.
  replace (Str.drop_while Str.is_space s) with s; [apply trim_end_id, E|].
  destruct s as [|c r]; [reflexivity|].
  cbn in E |- *. apply andb_true_iff in E as [E _].
  apply negb_true_iff in E. rewrite E. reflexivity.
Qed.

Lemma all_chars_append (p : ascii -> bool) (a b : string) :
  Str.all_chars p (a +++ b) = Str.all_chars p a && Str.all_chars p b.
Proof.
  induction a as [|c r IH]; [reflexivity|].
  cbn. rewrite IH. apply andb_assoc.
Qed.

Lemma all_chars_impl (p q : ascii -> bool) (s : string) :
  (forall c, p c = true -> q c = true) ->
  Str.all_chars p s = true -> Str.all_chars q s = true.
Proof.
  intros I. induction s as [|c r IH]; [reflexivity|].
  cbn. intros E. apply andb_true_iff in E as [E1 E2].
  rewrite (I c E1), (IH E2). reflexivity.
Qed.

Lemma ident_char_no_space (c : ascii) :
  Str.is_ident_char c = true -> negb (Str.is_space c) = true.
Proof. intros E. apply (proj1 (char_classes c)) in E as [-> _]. reflexivity. Qed.

Lemma seg_string_no_space (s : seg) : good_seg s -> no_space (Engine.seg_string s) = true.
Proof.
  destruct s as [k|n]; cbn [good_seg Engine.seg_string]; intros G.
  - apply (all_chars_impl Str.is_ident_char); [apply ident_char_no_space|].
    destruct k as [|c r]; [discriminate|].
    cbn in G |- *. apply andb_true_iff in G as [G1 G2].
    destruct (ident_start_char c G1) as [_ [_ ->]]. exact G2.
  - apply (all_chars_impl Str.is_digit); [|apply string_of_nat_digits].
    intros c E. apply ident_char_no_space, (proj2 (char_classes c)), E.
Qed.

Lemma dotted_no_space (segs : list seg) :
  Forall good_seg segs -> no_space (dotted segs) = true.
Proof.
  induction 1 as [|s rest G F IH]; [reflexivity|].
  pose proof (seg_string_no_space s G) as S.
  unfold no_space in *. cbn [dotted Str.all_chars].
  rewrite all_chars_append, IH, S. reflexivity.
Qed.

Lemma bracketed_no_space (segs : list seg) :
  Forall good_seg segs -> no_space (bracketed segs) = true.
Proof.
  induction 1 as [|s rest G F IH]; [reflexivity|].
  pose proof (seg_string_no_space s G) as S.
  unfold no_space in *. destruct s as [k|n]; cbn [bracketed Str.all_chars Engine.seg_string] in *.
  - rewrite all_chars_append, IH, S. reflexivity.
  - rewrite all_chars_append, S. cbn [Str.all_chars]. rewrite IH. reflexivity.
Qed.

(** A path that is [$] followed by a part without white space is parsed
    from that part, entered past its leading dot. *)
Lemma parsePath_rooted (d : string) (toks : list token) :
  no_space d = true ->
  parse_segments (String.length (enter d)) (enter d) [Root] = Ok (Root :: toks) ->
  parsePath (String "$" d) = Ok (Root :: toks).
Proof.
  intros N P. unfold parsePath.
  change (String.eqb (String "$" d) "") with false. cbv iota.
  rewrite trim_id by (unfold no_space in *; cbn; exact N).
  destruct d as [|c r].
  - cbn in P. injection P as <-. reflexivity.
  - change (String.eqb (String "$" (String c r)) "$") with false.
    change (String.eqb (String "$" (String c r)) "") with false.
    cbn [orb]. rewrite startsWith_head. cbn [Str.drop].
    unfold enter in P. cbn [Str.drop] in P. rewrite P. reflexivity.
Qed.

(** ** The optional root prefix *)

(** The first character is neither white space nor [$]. *)
Definition plain_start (s : string) : bool :=
  match s with
  | EmptyString => true
  | String c _ => negb (Str.is_space c) && negb (Ascii.eqb c "$")
  end.

Lemma trim_end_cons (c : ascii) (r : string) :
  Str.is_space c = false -> Str.trim_end (String c r) = String c (Str.trim_end r).
Proof. intros E. cbn. rewrite E. destruct (Str.trim_end r); reflexivity. Qed.

Lemma parsePath_with_root (s : string) :
  parsePath ("$." +++ s)
  = (toks <- parse_segments (String.length (Str.trim_end s)) (Str.trim_end s) [] ;;
     Ok (Root :: toks)).
Proof.
  unfold parsePath. change ("$." +++ s) with (String "$" (String "." s)).
  change (String.eqb (String "$" (String "." s)) "") with false. cbv iota.
  assert (T : Str.trim (String "$" (String "." s)) = String "$" (String "." (Str.trim_end s))).
  { unfold Str.trim. change (Str.drop_while Str.is_space (String "$" (String "." s)))
      with (String "$" (String "." s)).
    rewrite !trim_end_cons by reflexivity. reflexivity. }
  rewrite T.
  change (String.eqb (String "$" (String "." (Str.trim_end s))) "$") with false.
  change (String.eqb (String "$" (String "." (Str.trim_end s))) "") with false.
  cbn [orb]. rewrite startsWith_head. cbn [Str.drop]. rewrite startsWith_head.
  rewrite parse_segments_acc.
  destruct (parse_segments _ _ []); reflexivity.
Qed.

Lemma parsePath_without_root (s : string) :
  plain_start s = true ->
  parsePath s
  = (toks <- parse_segments (String.length (Str.trim_end s)) (Str.trim_end s) [] ;;
     Ok (match toks with [] => [Root] | _ => toks end)).
Proof.
  intros P. unfold parsePath. destruct s as [|c r]; [reflexivity|].
  cbn in P. apply andb_true_iff in P as [P1 P2].
  apply negb_true_iff in P1, P2.
  change (String.eqb (String c r) "") with false. cbv iota.
  assert (T : Str.trim (String c r) = String c (Str.trim_end r)).
  { unfold Str.trim. cbn [Str.drop_while]. rewrite P1. apply trim_end_cons, P1. }
  rewrite T, (trim_end_cons c r P1).
  change (String.eqb (String c (Str.trim_end r)) "") with false.
  rewrite orb_false_r, startsWith_cons.
  rewrite Ascii.eqb_sym, P2. cbn [andb].
  destruct (String.eqb (String c (Str.trim_end r)) "$") eqn:E; [|reflexivity].
  apply String.eqb_eq in E. injection E as -> _. discriminate P2.
Qed.

(** X9.  The prefix [$.] is optional: for a path that begins neither with
    white space nor with [$], evaluation with and without the prefix
    succeeds on the same documents and returns the same matches. *)
Theorem root_prefix_is_optional `{Host} (data : value) (s : string) (ms : list pmatch) :
  plain_start s = true ->
  evaluatePath data (PStr ("$." +++ s)) = Ok ms <-> evaluatePath data (PStr s) = Ok ms.
Proof.
  intros P. unfold evaluatePath. cbn [to_ast].
  rewrite parsePath_with_root, (parsePath_without_root s P).
  destruct (parse_segments _ _ []) as [toks| |]; cbn [bind]; [|reflexivity..].
  destruct toks as [|tok more]; [reflexivity|].
  cbn [eval_ast eval_results eval_token m_value m_path bind app]. reflexivity.
Qed.

(** ** The two notations of a node path *)

Lemma replace_ident (k tail : string) :
  Str.all_chars Str.is_ident_char k = true ->
  Sidebar.replace_dot_digits false (k +++ tail) = k +++ Sidebar.replace_dot_digits false tail.
Proof.
  induction k as [|c r IH]; [reflexivity|].
  cbn [Str.all_chars]. intros E. apply andb_true_iff in E as [E1 E2].
  cbn [String.append Sidebar.replace_dot_digits andb].
  apply (proj1 (char_classes c)) in E1 as [_ ->].
  cbn [andb String.append]. rewrite (IH E2). reflexivity.
Qed.

Lemma replace_closes (tail : string) :
  Sidebar.starts_with_digit tail = false ->
  Sidebar.replace_dot_digits true tail = String "]" (Sidebar.replace_dot_digits false tail).
Proof.
  destruct tail as [|c r]; [reflexivity|].
  cbn [Sidebar.starts_with_digit Sidebar.replace_dot_digits]. intros ->. reflexivity.
Qed.

Lemma replace_digits (ds tail : string) :
  Str.all_chars Str.is_digit ds = true ->
  Sidebar.starts_with_digit tail = false ->
  Sidebar.replace_dot_digits true (ds +++ tail)
  = ds +++ String "]" (Sidebar.replace_dot_digits false tail).
Proof.
  intros A T. induction ds as [|c r IH]; [apply replace_closes, T|].
  cbn in A. apply andb_true_iff in A as [A1 A2].
  cbn [String.append Sidebar.replace_dot_digits]. rewrite A1. cbn [andb].
  rewrite (IH A2). reflexivity.
Qed.

Lemma dotted_no_digit (segs : list seg) : Sidebar.starts_with_digit (dotted segs) = false.
Proof. destruct segs; reflexivity. Qed.

Lemma replace_dot_key (x : string) :
  Sidebar.starts_with_digit x = false ->
  Sidebar.replace_dot_digits false (String "." x)
  = String "." (Sidebar.replace_dot_digits false x).
Proof.
  intros E. cbn [Sidebar.replace_dot_digits andb]. rewrite E, andb_false_r. reflexivity.
Qed.

Lemma replace_dot_index (x : string) :
  Sidebar.starts_with_digit x = true ->
  Sidebar.replace_dot_digits false (String "." x)
  = String "[" (Sidebar.replace_dot_digits true x).
Proof.
  intros E. cbn [Sidebar.replace_dot_digits andb]. rewrite E, Ascii.eqb_refl. reflexivity.
Qed.

(** [toJsonPath] turns the dot notation of a list of segments into its
    JSONPath notation. *)
Lemma replace_dotted (segs : list seg) :
  Forall good_seg segs ->
  Sidebar.replace_dot_digits false (dotted segs) = bracketed segs.
Proof.
  induction 1 as [|s rest G F IH]; [reflexivity|].
  destruct s as [k|n]; cbn [dotted bracketed Engine.seg_string].
  - assert (A : Str.all_chars Str.is_ident_char k = true
                /\ Sidebar.starts_with_digit (k +++ dotted rest) = false).
    { destruct k as [|c r]; [discriminate G|].
      cbn in G. apply andb_true_iff in G as [G1 G2].
      destruct (ident_start_char c G1) as [_ [D C]].
      split; [cbn; rewrite C; exact G2|exact D]. }
    destruct A as [A S].
    rewrite (replace_dot_key _ S), (replace_ident _ _ A), IH. reflexivity.
  - pose proof (string_of_nat_digits n) as A.
    pose proof (string_of_nat_nonempty n) as N.
    assert (S : Sidebar.starts_with_digit (string_of_nat n +++ dotted rest) = true).
    { destruct (string_of_nat n) as [|c r]; [contradiction|].
      cbn in A |- *. apply andb_true_iff in A as [A _]. exact A. }
    rewrite (replace_dot_index _ S), replace_digits, IH;
      [reflexivity|exact A|apply dotted_no_digit].
Qed.

Lemma toJsonPath_node_path (segs : list seg) :
  Forall good_seg segs ->
  Sidebar.toJsonPath (node_path segs) = String "$" (bracketed segs).
Proof.
  intros F. rewrite node_path_dotted. unfold Sidebar.toJsonPath.
  cbn [Sidebar.replace_dot_digits andb]. change (Ascii.eqb "$" ".") with false.
  cbn [andb String.append]. rewrite (replace_dotted segs F). reflexivity.
Qed.

Lemma parsePath_node_path (segs : list seg) :
  Forall good_seg segs ->
  parsePath (node_path segs) = Ok (Root :: map token_of_seg segs).
Proof.
  intros F. rewrite node_path_dotted.
  apply parsePath_rooted; [apply dotted_no_space, F|].
  apply (parse_dotted segs F). lia.
Qed.

Lemma parsePath_bracketed (segs : list seg) :
  Forall good_seg segs ->
  parsePath (String "$" (bracketed segs)) = Ok (Root :: map token_of_seg segs).
Proof.
  intros F. apply parsePath_rooted; [apply bracketed_no_space, F|].
  apply (parse_bracketed segs F). lia.
Qed.

(** X6.  A node path is a selector for its node.  For every match of a path
    on a document whose keys along the match are identifiers, the string
    [$.seg.seg...] built from the concrete path of the match, as in node
    ids, parses to [ROOT] followed by one token per segment, and
    evaluating that string on the document returns this match and no
    other. *)
Theorem node_path_selects_its_match `{Host} (data : value) (p : pathOrAst)
    (ms : list pmatch) (m : pmatch) :
  evaluatePath data p = Ok ms -> In m ms -> Forall good_seg (m_path m) ->
  parsePath (node_path (m_path m)) = Ok (Root :: map token_of_seg (m_path m))
  /\ evaluatePath data (PStr (node_path (m_path m))) = Ok [m].
Proof.
  intros E Hin G. split; [apply parsePath_node_path, G|].
  unfold evaluatePath at 1. cbn [to_ast]. rewrite (parsePath_node_path _ G). cbn [bind].
  rewrite eval_ast_run. f_equal.
  change (run_from (map token_of_seg (m_path m)) [ {| m_value := data; m_path := [] |} ] = [m]).
  unfold evaluatePath in E. destruct (to_ast p) as [ast| |]; cbn [bind] in E; try discriminate.
  rewrite eval_ast_run in E. injection E as <-.
  apply (run_from_addressed ast data [ {| m_value := data; m_path := [] |} ]); [|exact Hin].
  intros m0 [<-|[]]. reflexivity.
Qed.

(** X7.  [toJsonPath] rewrites a node path into bracket notation and keeps
    its meaning: for segments that are indices or identifier keys, the path
    [$.items.0.name] becomes [$.items[0].name], that is [$] followed by
    [.key] for every key and [[i]] for every index, and the parser reads
    both strings as the same tokens, [ROOT] followed by one token per
    segment. *)
Theorem toJsonPath_keeps_node_paths (segs : list seg) :
  Forall good_seg segs ->
  Sidebar.toJsonPath (node_path segs) = String "$" (bracketed segs)
  /\ parsePath (Sidebar.toJsonPath (node_path segs)) = Ok (Root :: map token_of_seg segs)
  /\ parsePath (node_path segs) = Ok (Root :: map token_of_seg segs).
Proof.
  intros F. split; [apply toJsonPath_node_path, F|].
  split; [|apply parsePath_node_path, F].
  rewrite (toJsonPath_node_path segs F). apply parsePath_bracketed, F.
Qed.

End ParseLaws.
(* ================================================================== *)
(** * Properties of extraction without context *)
(* ================================================================== *)

Module SimpleFacts.
Import Path Config Extractor Simple MapFacts.

Ltac bind_inv H :=
  match type of H with
  | bind ?m _ = Ok _ =>
      let E := fresh "E" in
      destruct m eqn:E; cbn [bind] in H; [|discriminate H|discriminate H]
  end.

(** How many results name the entity [e]. *)
Definition count_of (e : string) (results : list simple) : nat :=
  List.length (filter (fun r => String.eqb (q_entity r) e) results).

Section WithHost.
Context `{Host}.

Lemma count_of_app (e : string) (a b : list simple) :
  count_of e (a ++ b) = count_of e a + count_of e b.
Proof. unfold count_of. rewrite filter_app, length_app. reflexivity. Qed.

(** The objects that [extractSimple] keeps are those that
    [previewExtraction] counts. *)
Lemma simple_objects_counted (entity pkField : string) (objects : list pmatch)
    (results results' : list simple) (n : nat) :
  simple_objects entity pkField results objects = Ok results' ->
  exists added,
    results' = results ++ added
    /\ Forall (fun r => q_entity r = entity) added
    /\ count_valid pkField n objects = Ok (n + List.length added).
Proof.
  revert results n; induction objects as [|obj rest IH]; intros results n E;
    cbn [simple_objects count_valid] in *.
  - injection E as <-. exists []. rewrite app_nil_r, Nat.add_0_r.
    repeat split. constructor.
  - bind_inv E. rename a into pk. cbn [bind].
    destruct (nullish pk).
    + apply IH, E.
    + destruct (IH _ (S n) E) as [added [-> [F C]]].
      eexists (_ :: added). rewrite <- app_assoc. split; [reflexivity|].
      split; [constructor; [reflexivity|exact F]|].
      rewrite C. f_equal. cbn. lia.
Qed.

(** What the object [counts] says about the results so far, for the names
    that an object does not inherit. *)
Definition counts_agree (counts : list (string * count)) (results : list simple) : Prop :=
  forall e, inherited_name e = false ->
    match own_property counts e with
    | Some c => c = CNum (count_of e results)
    | None => count_of e results = 0
    end.

Lemma count_of_others (e entity : string) (added : list simple) :
  Forall (fun r => q_entity r = entity) added -> e <> entity -> count_of e added = 0.
Proof.
  intros F N. unfold count_of. induction F as [|r rest Hr F IH]; [reflexivity|].
  cbn. rewrite Hr. apply String.eqb_neq in N. rewrite String.eqb_sym, N. exact IH.
Qed.

Lemma count_of_same (entity : string) (added : list simple) :
  Forall (fun r => q_entity r = entity) added -> count_of entity added = List.length added.
Proof.
  intros F. unfold count_of. induction F as [|r rest Hr F IH]; [reflexivity|].
  cbn. rewrite Hr, String.eqb_refl. cbn. rewrite IH. reflexivity.
Qed.

Lemma add_count_agree (counts : list (string * count)) (results added : list simple)
    (entity : string) :
  counts_agree counts results ->
  Forall (fun r => q_entity r = entity) added ->
  counts_agree (add_count counts entity (List.length added)) (results ++ added).
Proof.
  intros A F e I. specialize (A e I). rewrite count_of_app.
  unfold add_count.
  destruct (String.eqb entity "__proto__") eqn:P.
  - apply String.eqb_eq in P. subst entity.
    assert (N : e <> "__proto__") by (intros ->; discriminate I).
    rewrite (count_of_others e _ added F N), Nat.add_0_r. exact A.
  - fold (map_get (map_set counts entity
            match own_property counts entity with
            | Some (CNum n) => CNum (n + List.length added)
            | Some (CStr s) =>
                if String.eqb s "" then CNum (List.length added)
                else CStr (s +++ string_of_nat (List.length added))
            | None =>
                if is_member entity
                then CStr (host_function_text entity +++ string_of_nat (List.length added))
                else CNum (List.length added)
            end) e).
    rewrite get_set. destruct (String.eqb e entity) eqn:E.
    + apply String.eqb_eq in E. subst e.
      rewrite (count_of_same entity added F).
      unfold inherited_name in I. apply orb_false_iff in I as [_ I].
      destruct (own_property counts entity) as [c|].
      * subst c. reflexivity.
      * rewrite I, A. reflexivity.
    + apply String.eqb_neq in E.
      rewrite (count_of_others e _ added F E), Nat.add_0_r. exact A.
Qed.

Lemma preview_each_agree (data : value) (entityConfigs : list (string * entityConfig))
    (todo : list extraction) (results results' : list simple)
    (counts : list (string * count)) :
  counts_agree counts results ->
  simple_each data entityConfigs results todo = Ok results' ->
  exists counts',
    preview_each data entityConfigs counts todo = Ok counts'
    /\ counts_agree counts' results'.
Proof.
  revert results counts; induction todo as [|x rest IH]; intros results counts A E;
    cbn [simple_each preview_each] in *.
  - injection E as <-. exists counts. split; [reflexivity|exact A].
  - destruct (lookup_config entityConfigs (x_entity x)) as [entityConfig|]; [|apply (IH _ _ A E)].
    bind_inv E. rename a into objects. bind_inv E. rename a into mid.
    destruct (simple_objects_counted _ _ _ _ _ 0 E1) as [added [-> [F C]]].
    cbn [bind]. rewrite C. cbn [bind plus].
    apply (IH _ _ (add_count_agree _ _ _ _ A F) E).
Qed.

(** X10.  The preview counts what the extraction returns: whenever
    [extractSimple] returns, [previewExtraction] returns as well, and for
    every entity name that an object does not inherit from
    [Object.prototype] the count stored under the name is the number of
    results of [extractSimple] for that entity; a name without a count has
    no result. *)
Theorem preview_counts_the_extraction (data : value) (extractions : list extraction)
    (entityConfigs : list (string * entityConfig)) (results : list simple) :
  extractSimple data extractions entityConfigs = Ok results ->
  exists counts,
    previewExtraction data extractions entityConfigs = Ok counts
    /\ forall e, inherited_name e = false ->
         match own_property counts e with
         | Some c => c = CNum (count_of e results)
         | None => count_of e results = 0
         end.
Proof.
  intros E. apply (preview_each_agree data entityConfigs extractions [] results []); [|exact E].
  intros e _. reflexivity.
Qed.

(** What [extractSimple] keeps of a result of [extractWithContext]. *)
Definition forget (t : extracted) : simple :=
  {| q_entity := t_entity t; q_data := t_data t; q_pk := t_pk t |}.

Lemma extract_objects_forget (sortedExtractions : list extraction)
    (entity path pkField : string) (objects : list pmatch)
    (st st' : list (string * info) * list extracted) :
  extract_objects sortedExtractions entity path pkField st objects = Ok st' ->
  simple_objects entity pkField (map forget (snd st)) objects = Ok (map forget (snd st')).
Proof.
  revert st; induction objects as [|obj rest IH]; intros st E;
    cbn [extract_objects simple_objects] in *.
  - injection E as <-. reflexivity.
  - bind_inv E. rename a into mid. unfold extract_object in E0.
    bind_inv E0. rename a into pk. cbn [bind].
    destruct (nullish pk).
    + injection E0 as <-. apply IH, E.
    + bind_inv E0. injection E0 as <-.
      specialize (IH _ E). cbn [snd] in IH. rewrite map_app in IH. exact IH.
Qed.

Lemma extract_each_forget (sortedExtractions : list extraction) (data : value)
    (entityConfigs : list (string * entityConfig)) (todo : list extraction)
    (st st' : list (string * info) * list extracted) :
  extract_each sortedExtractions data entityConfigs st todo = Ok st' ->
  simple_each data entityConfigs (map forget (snd st)) todo = Ok (map forget (snd st')).
Proof.
  revert st; induction todo as [|x rest IH]; intros st E; cbn [extract_each simple_each] in *.
  - injection E as <-. reflexivity.
  - destruct (lookup_config entityConfigs (x_entity x)) as [entityConfig|]; [|apply IH, E].
    bind_inv E. rename a into objects. bind_inv E. rename a into mid. cbn [bind].
    rewrite (extract_objects_forget _ _ _ _ _ _ _ E1). cbn [bind]. apply IH, E.
Qed.

(** X11.  [extractSimple] is [extractWithContext] without the context:
    whenever [extractWithContext] returns, its results, reduced to entity,
    data and primary key, are what [extractSimple] returns for the same
    rules taken in the order of their depth. *)
Theorem context_extends_simple_extraction (data : value) (extractions : list extraction)
    (entityConfigs : list (string * entityConfig)) (results : list extracted) :
  extractWithContext data extractions entityConfigs = Ok results ->
  exists sortedExtractions,
    Engine.sort_by_depth extractions = Ok sortedExtractions
    /\ extractSimple data sortedExtractions entityConfigs = Ok (map forget results).
Proof.
  unfold extractWithContext. destruct extractions as [|x rest].
  - intros [= <-]. exists []. split; reflexivity.
  - intros E. bind_inv E. rename a into sortedExtractions. bind_inv E. injection E as <-.
    exists sortedExtractions. split; [reflexivity|].
    apply (extract_each_forget _ _ _ _ _ _ E1).
Qed.

End WithHost.
End SimpleFacts.
(* ================================================================== *)
(** * Properties of extraction with context *)
(* ================================================================== *)

Module ContextFacts.
Import Path Config Extractor MapFacts.

Ltac bind_inv H :=
  match type of H with
  | bind ?m _ = Ok _ =>
      let E := fresh "E" in
      destruct m eqn:E; cbn [bind] in H; [|discriminate H|discriminate H]
  end.

(** Where an element stands in a list that has grown by one at its end. *)
Lemma split_snoc {A} (pre post l : list A) (x y : A) :
  pre ++ x :: post = l ++ [y] ->
  (post = [] /\ pre = l /\ x = y)
  \/ (exists post', post = post' ++ [y] /\ l = pre ++ x :: post').
Proof.
  intros E. destruct post as [|p post] using rev_ind.
  - left. apply app_inj_tail in E as [-> ->]. repeat split.
  - right. clear IHpost. exists post.
    change (pre ++ x :: post ++ [p]) with (pre ++ (x :: post) ++ [p]) in E.
    rewrite app_assoc in E. apply app_inj_tail in E as [<- ->]. split; reflexivity.
Qed.

(** The parent that a result names is the entity and key of a result in
    [earlier]. *)
Definition parent_among (earlier : list extracted) (r : extracted) : Prop :=
  forall e, t_parentEntity r = Some e ->
    exists r', In r' earlier /\ t_entity r' = e /\ t_pk r' = t_parentPk r.

Definition parents_earlier (results : list extracted) : Prop :=
  forall pre r post, results = pre ++ r :: post -> parent_among pre r.

(** Every entry of [extractedByPath] was stored for a result. *)
Definition entries_known (st : list (string * info) * list extracted) : Prop :=
  forall key i, In (key, i) (fst st) ->
    exists r, In r (snd st) /\ t_entity r = i_entity i /\ t_pk r = i_pk i.

Section WithHost.
Context `{Host}.

Lemma scan_parent_source (whole rest : list (string * info)) (pathKey : string)
    (parent scanned : option string * value) :
  scan_parent whole rest pathKey parent = Ok scanned ->
  scanned = parent
  \/ exists key i, In (key, i) rest /\ scanned = (Some (i_entity i), i_pk i).
Proof.
  revert parent; induction rest as [|[key i] more IH]; intros parent E; cbn [scan_parent] in E.
  - injection E as <-. left; reflexivity.
  - bind_inv E. rename a into parent'.
    destruct (IH _ E) as [->|[key' [i' [Hin ->]]]].
    + destruct (_ && _) in E0.
      * bind_inv E0. rename a into closer. injection E0 as <-.
        destruct closer; [right; exists key, i; split; [left; reflexivity|reflexivity]|].
        left; reflexivity.
      * injection E0 as <-. left; reflexivity.
    + right. exists key', i'. split; [right; exact Hin|reflexivity].
Qed.

Lemma structural_parent_source (sortedExtractions : list extraction) (results : list extracted)
    (parentPath path : string) (extractPath : list seg) (parentResult : extracted) :
  structural_parent sortedExtractions results parentPath path extractPath = Some parentResult ->
  In parentResult results.
Proof.
  induction sortedExtractions as [|x more IH]; cbn [structural_parent]; [discriminate|].
  destruct (_ || _); [|exact IH].
  destruct (find _ results) as [r|] eqn:F; [|exact IH].
  intros [= <-]. apply find_some in F. apply F.
Qed.

Lemma extract_object_inv (sortedExtractions : list extraction) (entity path pkField : string)
    (st st' : list (string * info) * list extracted) (obj : pmatch) :
  entries_known st -> parents_earlier (snd st) ->
  extract_object sortedExtractions entity path pkField st obj = Ok st' ->
  entries_known st' /\ parents_earlier (snd st').
Proof.
  intros K P E. unfold extract_object in E.
  bind_inv E. rename a into pk.
  destruct (nullish pk); [injection E as <-; split; assumption|].
  bind_inv E. rename a into scanned. injection E as <-. cbn [fst snd].
  split.
  - intros key i Hin. cbn [fst snd] in *.
    apply in_map_set in Hin as [[-> ->]|Hin].
    + eexists. split; [apply in_or_app; right; left; reflexivity|].
      split; reflexivity.
    + destruct (K key i Hin) as [r [Hr Er]].
      exists r. split; [apply in_or_app; left; exact Hr|exact Er].
  - intros pre r post D. symmetry in D.
    apply split_snoc in D as [[-> [-> ->]]|[post' [-> D]]];
      [|apply (P pre r post' D)].
    intros e. cbn [t_parentEntity t_parentPk].
    assert (S : forall e, fst scanned = Some e ->
                exists r', In r' (snd st) /\ t_entity r' = e /\ t_pk r' = snd scanned).
    { intros e0 Es.
      destruct (scan_parent_source _ _ _ _ _ E1) as [->|[key [i [Hin ->]]]]; [discriminate Es|].
      injection Es as <-. apply (K key i Hin). }
    destruct (no_parent (fst scanned)); [|apply S].
    destruct (getParentPath path) as [parentPath|]; [|apply S].
    destruct (structural_parent _ _ _ _ _) as [parentResult|] eqn:SP; [|apply S].
    apply structural_parent_source in SP.
    intros [= <-]. exists parentResult. repeat split. exact SP.
Qed.

Lemma extract_objects_inv (sortedExtractions : list extraction) (entity path pkField : string)
    (objects : list pmatch) (st st' : list (string * info) * list extracted) :
  entries_known st -> parents_earlier (snd st) ->
  extract_objects sortedExtractions entity path pkField st objects = Ok st' ->
  entries_known st' /\ parents_earlier (snd st').
Proof.
  revert st; induction objects as [|obj rest IH]; intros st K P E; cbn [extract_objects] in E.
  - injection E as <-. split; assumption.
  - bind_inv E. rename a into mid.
    destruct (extract_object_inv _ _ _ _ _ _ _ K P E0) as [K' P'].
    apply (IH _ K' P' E).
Qed.

Lemma extract_each_inv (sortedExtractions : list extraction) (data : value)
    (entityConfigs : list (string * entityConfig)) (todo : list extraction)
    (st st' : list (string * info) * list extracted) :
  entries_known st -> parents_earlier (snd st) ->
  extract_each sortedExtractions data entityConfigs st todo = Ok st' ->
  entries_known st' /\ parents_earlier (snd st').
Proof.
  revert st; induction todo as [|x rest IH]; intros st K P E; cbn [extract_each] in E.
  - injection E as <-. split; assumption.
  - destruct (lookup_config entityConfigs (x_entity x)) as [entityConfig|]; [|apply (IH _ K P E)].
    bind_inv E. rename a into objects. bind_inv E. rename a into mid.
    destruct (extract_objects_inv _ _ _ _ _ _ _ K P E1) as [K' P'].
    apply (IH _ K' P' E).
Qed.

(** X12.  A parent is always an earlier result: in what
    [extractWithContext] returns, the parent entity and parent key of a
    result are the entity and the key of a result that stands before it in
    the list. *)
Theorem context_parent_is_an_earlier_result (data : value) (extractions : list extraction)
    (entityConfigs : list (string * entityConfig)) (results pre post : list extracted)
    (r : extracted) (e : string) :
  extractWithContext data extractions entityConfigs = Ok results ->
  results = pre ++ r :: post ->
  t_parentEntity r = Some e ->
  exists r', In r' pre /\ t_entity r' = e /\ t_pk r' = t_parentPk r.
Proof.
  unfold extractWithContext. destruct extractions as [|x rest].
  - intros [= <-] D. destruct pre; discriminate D.
  - intros E D. bind_inv E. rename a into sortedExtractions. bind_inv E. injection E as <-.
    assert (K0 : entries_known (@nil (string * info), @nil extracted)) by (intros key i []).
    assert (P0 : parents_earlier (snd (@nil (string * info), @nil extracted))).
    { intros pre0 r0 post0 D0. destruct pre0; discriminate D0. }
    destruct (extract_each_inv _ _ _ _ _ _ K0 P0 E1) as [_ P].
    apply (P pre r post D e).
Qed.

End WithHost.
End ContextFacts.
(* ================================================================== *)
(** * Invariants of the extraction engine *)
(* ================================================================== *)

Module EngineFacts.
Import Path Config Engine MapFacts.

Ltac bind_inv H :=
  match type of H with
  | bind ?m _ = Ok _ =>
      let E := fresh "E" in
      destruct m eqn:E; cbn [bind] in H; [|discriminate H|discriminate H]
  end.

(** The parent that the scan returns is the entity of an entry of the
    map. *)
Lemma find_parent_source (extractedByPath : list (string * located)) (pathKey id : string) :
  find_parent extractedByPath pathKey = Some id ->
  exists key loc, In (key, loc) extractedByPath /\ l_entityId loc = id.
Proof.
  rewrite ParentFacts.find_parent_unfold.
  generalize extractedByPath at 1 as whole. intros whole.
  assert (G : forall rest acc,
             fold_left (ParentFacts.parent_step whole pathKey) rest acc = Some id ->
             acc = Some id \/ exists key loc, In (key, loc) rest /\ l_entityId loc = id).
  { induction rest as [|[key loc] rest IH]; intros acc E; cbn [fold_left] in E.
    - left; exact E.
    - destruct (IH _ E) as [S|[key' [loc' [Hin El]]]].
      + unfold ParentFacts.parent_step in S.
        destruct (_ || _) in S; [|left; exact S].
        destruct (_ || _) in S; [|left; exact S].
        injection S as <-. right. exists key, loc. split; [left; reflexivity|reflexivity].
      + right. exists key', loc'. split; [right; exact Hin|exact El]. }
  intros E. destruct (G _ _ E) as [D|R]; [discriminate D|exact R].
Qed.

(** An entity extracted from a call: a plain object with a primary key,
    tagged with the call, whose id is its type and its key. *)
Definition well_formed `{Host} (callId : string) (e : entity) : Prop :=
  e_callId e = callId
  /\ nullish (e_pk e) = false
  /\ truthy (e_data e) = true /\ typeof_object (e_data e) = true /\ isArray (e_data e) = false
  /\ exists pkText, to_string (e_pk e) = Ok pkText /\ e_id e = e_type e +++ "-" +++ pkText.

(** An edge of the result: it ends in an entity of the list and starts in
    an entity that stands before that one. *)
Definition joins (ents : list entity) (g : edge) : Prop :=
  g_id g = "intra-" +++ g_source g +++ "-" +++ g_target g
  /\ g_edgeType g = "intra"
  /\ exists pre t post,
       ents = pre ++ t :: post /\ e_id t = g_target g /\ In (g_source g) (map e_id pre).

Lemma joins_grows (ents : list entity) (g : edge) (ent : entity) :
  joins ents g -> joins (ents ++ [ent]) g.
Proof.
  intros [I [T [pre [t [post [-> [Et Es]]]]]]]. split; [exact I|]. split; [exact T|].
  exists pre, t, (post ++ [ent]). rewrite <- app_assoc. repeat split; assumption.
Qed.

Section WithHost.
Context `{Host}.

Definition progress_inv (callId : string) (st : progress) : Prop :=
  (forall key loc, In (key, loc) (extractedByPath st) ->
     In (l_entityId loc) (map e_id (entities st)))
  /\ Forall (joins (entities st)) (intraEdges st)
  /\ List.length (intraEdges st) <= List.length (entities st)
  /\ Forall (well_formed callId) (entities st).

Lemma extract_result_inv (callId entityType : string) (entityConfig : entityConfig)
    (st st' : progress) (result : pmatch) :
  progress_inv callId st ->
  extract_result callId entityType entityConfig st result = Ok st' ->
  progress_inv callId st'.
Proof.
  intros [K [G [L W]]] E. unfold extract_result in E.
  destruct (negb (truthy (m_value result)) || negb (typeof_object (m_value result))
            || isArray (m_value result)) eqn:Guard; [injection E as <-; repeat split; assumption|].
  apply orb_false_iff in Guard as [Guard A]. apply orb_false_iff in Guard as [T O].
  apply negb_false_iff in T, O.
  bind_inv E. rename a into pkValue.
  destruct (nullish pkValue) eqn:N; [injection E as <-; repeat split; assumption|].
  bind_inv E. rename a into pkText. bind_inv E. rename a into displayValue.
  bind_inv E. rename a into label. injection E as <-.
  unfold progress_inv. cbn [extractedByPath entities intraEdges].
  rewrite map_app, length_app. cbn [map List.length e_id].
  split; [|split; [|split]].
  - intros key loc Hin. apply in_or_app.
    apply in_map_set in Hin as [[-> ->]|Hin]; [right; left; reflexivity|left; apply (K key loc Hin)].
  - destruct (no_parent (find_parent (extractedByPath st) (pathKey_of (m_path result)))) eqn:P.
    + eapply Forall_impl; [|exact G]. intros g. apply joins_grows.
    + apply Forall_app. split; [eapply Forall_impl; [|exact G]; intros g; apply joins_grows|].
      constructor; [|constructor].
      destruct (find_parent _ _) as [parent|] eqn:F; [|discriminate P].
      destruct (find_parent_source _ _ _ F) as [key [loc [Hin El]]].
      split; [reflexivity|]. split; [reflexivity|].
      eexists (entities st), _, []. split; [reflexivity|]. split; [reflexivity|].
      cbn [g_source]. rewrite <- El. apply (K key loc Hin).
  - destruct (no_parent _); [lia|]. rewrite length_app. cbn. lia.
  - apply Forall_app. split; [exact W|]. constructor; [|constructor].
    unfold well_formed. cbn [e_callId e_pk e_data e_id e_type].
    repeat split; try assumption. exists pkText. split; [exact E1|reflexivity].
Qed.

Lemma extract_results_inv (callId entityType : string) (entityConfig : entityConfig)
    (results : list pmatch) (st st' : progress) :
  progress_inv callId st ->
  extract_results callId entityType entityConfig st results = Ok st' ->
  progress_inv callId st'.
Proof.
  revert st; induction results as [|result rest IH]; intros st I E; cbn [extract_results] in E.
  - injection E as <-. exact I.
  - bind_inv E. apply (IH _ (extract_result_inv _ _ _ _ _ _ I E0) E).
Qed.

Lemma extract_rules_inv (callId : string) (json : value)
    (entityConfigMap : list (string * entityConfig)) (xs : list extraction)
    (st st' : progress) :
  progress_inv callId st ->
  extract_rules callId json entityConfigMap st xs = Ok st' ->
  progress_inv callId st'.
Proof.
  revert st; induction xs as [|x rest IH]; intros st I E; cbn [extract_rules] in E.
  - injection E as <-. exact I.
  - bind_inv E. rename a into mid. apply (IH mid); [|exact E].
    unfold extract_rule in E0.
    destruct (lookup_config entityConfigMap (x_entity x)) as [entityConfig|];
      [|injection E0 as <-; exact I].
    bind_inv E0. apply (extract_results_inv _ _ _ _ _ _ I E0).
Qed.

Lemma extractFromCall_inv (callId : string) (json : value) (extractions : list extraction)
    (entityConfigMap : list (string * entityConfig)) (ents : list entity) (edges : list edge) :
  extractFromCall callId json extractions entityConfigMap = Ok (ents, edges) ->
  Forall (joins ents) edges
  /\ List.length edges <= List.length ents
  /\ Forall (well_formed callId) ents.
Proof.
  unfold extractFromCall. intros E. bind_inv E. bind_inv E. rename a0 into st.
  injection E as <- <-.
  assert (I0 : progress_inv callId {| extractedByPath := []; entities := []; intraEdges := [] |}).
  { repeat split; try constructor. intros key loc []. }
  destruct (extract_rules_inv _ _ _ _ _ _ I0 E1) as [_ I]. exact I.
Qed.

(** X13.  Intra edges never dangle.  Every edge that [extractFromCall]
    returns has the id [intra-<source>-<target>], ends in an entity of the
    returned list and starts in an entity that stands before that one in the
    list; there are at most as many edges as entities. *)
Theorem intra_edges_join_extracted_entities (callId : string) (json : value)
    (extractions : list extraction) (entityConfigMap : list (string * entityConfig))
    (ents : list entity) (edges : list edge) :
  extractFromCall callId json extractions entityConfigMap = Ok (ents, edges) ->
  List.length edges <= List.length ents
  /\ forall g, In g edges ->
       g_id g = "intra-" +++ g_source g +++ "-" +++ g_target g
       /\ g_edgeType g = "intra"
       /\ exists pre t post,
            ents = pre ++ t :: post /\ e_id t = g_target g /\ In (g_source g) (map e_id pre).
Proof.
  intros E. destruct (extractFromCall_inv _ _ _ _ _ _ E) as [G [L _]].
  split; [exact L|]. intros g Hin. rewrite Forall_forall in G. apply (G g Hin).
Qed.

(** X14.  Every entity that [extractFromCall] returns is a plain object
    (not an array, not [null]) with a primary key that is neither [null] nor
    [undefined]; it carries the id of the call, and its id is its type, a
    dash and the text of its key. *)
Theorem extracted_entities_are_keyed_objects (callId : string) (json : value)
    (extractions : list extraction) (entityConfigMap : list (string * entityConfig))
    (ents : list entity) (edges : list edge) :
  extractFromCall callId json extractions entityConfigMap = Ok (ents, edges) ->
  forall e, In e ents ->
    e_callId e = callId
    /\ nullish (e_pk e) = false
    /\ truthy (e_data e) = true /\ typeof_object (e_data e) = true /\ isArray (e_data e) = false
    /\ exists pkText, to_string (e_pk e) = Ok pkText /\ e_id e = e_type e +++ "-" +++ pkText.
Proof.
  intros E. destruct (extractFromCall_inv _ _ _ _ _ _ E) as [_ [_ W]].
  intros e Hin. rewrite Forall_forall in W. apply (W e Hin).
Qed.

End WithHost.
End EngineFacts.
(* ================================================================== *)
(** * The two ways to resolve a primary key *)
(* ================================================================== *)

Module KeyLaws.
Import Path Config Keys StrFacts PathLaws ParseLaws.

Lemma ident_chars (k : string) :
  ident k = true -> k <> "" /\ Str.all_chars Str.is_ident_char k = true.
Proof.
  destruct k as [|c r]; [discriminate|]. cbn. intros E.
  apply andb_true_iff in E as [E1 E2].
  destruct (ident_start_char c E1) as [_ [_ ->]]. split; [discriminate|exact E2].
Qed.

Lemma ident_char_plain (c : ascii) :
  Str.is_ident_char c = true ->
  Ascii.eqb c "." = false /\ Ascii.eqb c "+" = false /\ Ascii.eqb c "$" = false.
Proof.
  destruct c as [[] [] [] [] [] [] [] []]; vm_compute; repeat split; congruence.
Qed.

Lemma split_without (c : ascii) (s : string) :
  Str.all_chars (fun d => negb (Ascii.eqb d c)) s = true -> Str.split c s = [s].
Proof.
  induction s as [|d r IH]; [reflexivity|].
  cbn. intros E. apply andb_true_iff in E as [E1 E2].
  apply negb_true_iff in E1. rewrite E1, (IH E2). reflexivity.
Qed.

Lemma includes_without (c : ascii) (s : string) :
  Str.all_chars (fun d => negb (Ascii.eqb d c)) s = true -> Str.includes s c = false.
Proof.
  unfold Str.includes. induction s as [|d r IH]; [reflexivity|].
  cbn. intros E. apply andb_true_iff in E as [E1 E2].
  apply negb_true_iff in E1. rewrite E1.
  specialize (IH E2). destruct (Str.indexOf c r); [discriminate IH|reflexivity].
Qed.

Lemma ident_no_space (k : string) : ident k = true -> no_space k = true.
Proof. intros I. apply (seg_string_no_space (SKey k)), I. Qed.

(** An identifier, alone or in front of a character that cannot continue
    it, is read as one [FIELD] token and the rest is parsed behind it. *)
Lemma parsePath_ident_first (k tail : string) :
  ident k = true -> stops Str.is_ident_char tail -> no_space tail = true ->
  parsePath (k +++ tail)
  = (toks <- parse_segments (String.length (k +++ tail) - 1) (consume_dot tail) [Field k] ;;
     Ok (match toks with [] => [Root] | _ => toks end)).
Proof.
  intros I T N. unfold parsePath.
  assert (S : no_space (k +++ tail) = true).
  { unfold no_space in *. rewrite all_chars_append, N.
    fold (no_space k). rewrite (ident_no_space k I). reflexivity. }
  rewrite (trim_id _ S).
  destruct k as [|c r]; [discriminate I|].
  assert (I' := I). cbn in I'. apply andb_true_iff in I' as [I1 I2].
  destruct (ident_start_char c I1) as [_ [_ C]].
  destruct (ident_char_plain c C) as [_ [_ D]].
  cbn [String.append].
  change (String.eqb (String c (r +++ tail)) "") with false. cbv iota.
  rewrite orb_false_r.
  assert (E : String.eqb (String c (r +++ tail)) "$" = false).
  { cbn. rewrite D. reflexivity. }
  rewrite E, startsWith_cons, Ascii.eqb_sym, D. cbn [andb String.length].
  change (String c (r +++ tail)) with (String c r +++ tail).
  rewrite (round_field _ (String c r) tail [] I T).
  replace (Datatypes.S (String.length (r +++ tail)) - 1) with (String.length (r +++ tail)) by lia.
  reflexivity.
Qed.

Lemma parsePath_ident (k : string) : ident k = true -> parsePath k = Ok [Field k].
Proof.
  intros I. rewrite <- (append_nil_r k) at 1.
  rewrite parsePath_ident_first; [|exact I|left; reflexivity|reflexivity].
  change (consume_dot "") with "".
  destruct (String.length (k +++ "") - 1); reflexivity.
Qed.

Section WithHost.
Context `{Host}.

(** X15.  The extraction engine and the node mapping read a simple key
    alike: for a key that is an identifier and an object of any content,
    [evaluatePathSingle], which the engine uses, and [resolvePkValue], which
    the mapping uses, return the same value. *)
Theorem simple_key_is_resolved_alike (props : list (string * value)) (k : string) :
  ident k = true ->
  evaluatePathSingle (VObj props) (PStr k) = resolvePkValue (VObj props) k.
Proof.
  intros I. destruct (ident_chars k I) as [N A].
  assert (Dot : Str.all_chars (fun d => negb (Ascii.eqb d ".")) k = true).
  { apply (all_chars_impl Str.is_ident_char); [|exact A].
    intros c E. destruct (ident_char_plain c E) as [-> _]. reflexivity. }
  assert (Plus : Str.all_chars (fun d => negb (Ascii.eqb d "+")) k = true).
  { apply (all_chars_impl Str.is_ident_char); [|exact A].
    intros c E. destruct (ident_char_plain c E) as [_ [-> _]]. reflexivity. }
  unfold resolvePkValue, getNestedValue.
  apply String.eqb_neq in N. rewrite N, (includes_without _ _ Plus), (split_without _ _ Dot).
  cbn [truthy negb orb walk nullish bind js_get].
  unfold evaluatePathSingle, evaluatePathValues, evaluatePath. cbn [to_ast].
  rewrite (parsePath_ident k I).
  cbn [bind to_ast eval_ast eval_results eval_token m_value m_path truthy typeof_object
         isArray negb andb js_in js_get].
  destruct (own_property props k) as [v|]; [reflexivity|].
  unfold inherited, inherited_name.
  destruct (String.eqb k "__proto__"); [reflexivity|].
  destruct (is_member k); reflexivity.
Qed.

(** X16.  A composite key is no path.  For identifiers [a] and [b] the key
    [a+b], which [resolvePkValue] splits at the [+], is a syntax error for
    the path engine: [evaluatePathSingle] raises on every value, and so does
    the step of [extractFromCall] for every match that is a plain object
    when the configured key is [a+b]. *)
Theorem composite_key_is_a_path_syntax_error (a b : string) :
  ident a = true -> ident b = true ->
  (forall data,
     evaluatePathSingle data (PStr (a +++ "+" +++ b))
     = Throw (PathError (InvalidSyntax ("+" +++ b))))
  /\ (forall callId entityType entityConfig st result,
        c_pk entityConfig = a +++ "+" +++ b ->
        truthy (m_value result) = true -> typeof_object (m_value result) = true ->
        isArray (m_value result) = false ->
        Engine.extract_result callId entityType entityConfig st result
        = Throw (PathError (InvalidSyntax ("+" +++ b)))).
Proof.
  intros Ia Ib.
  assert (P : parsePath (a +++ "+" +++ b) = Throw (PathError (InvalidSyntax ("+" +++ b)))).
  { rewrite parsePath_ident_first; [|exact Ia|right; eexists _, _; split; reflexivity|].
    - assert (C : consume_dot ("+" +++ b) = String "+" b).
      { rewrite consume_dot_enter. unfold enter.
        change ("+" +++ b) with (String "+" b). rewrite startsWith_cons. reflexivity. }
      rewrite C.
      destruct (String.length (a +++ "+" +++ b) - 1) as [|fuel] eqn:L; [|reflexivity].
      rewrite length_append in L. destruct (ident_chars a Ia) as [Na _].
      destruct a; [contradiction|]. cbn in L. lia.
    - unfold no_space. change ("+" +++ b) with (String "+" b). cbn [Str.all_chars].
      fold (no_space b). rewrite (ident_no_space b Ib). reflexivity. }
  assert (S : forall data,
             evaluatePathSingle data (PStr (a +++ "+" +++ b))
             = Throw (PathError (InvalidSyntax ("+" +++ b)))).
  { intros data. unfold evaluatePathSingle, evaluatePathValues. cbn [to_ast].
    rewrite P. reflexivity. }
  split; [exact S|].
  intros callId entityType entityConfig st result Epk T O A.
  unfold Engine.extract_result. rewrite T, O, A. cbn [negb orb].
  assert (K : or_else (c_pk entityConfig) "id" = a +++ "+" +++ b).
  { unfold or_else. rewrite Epk. destruct (ident_chars a Ia) as [Na _].
    destruct a; [contradiction|reflexivity]. }
  rewrite K, S. reflexivity.
Qed.

End WithHost.
End KeyLaws.
(* ================================================================== *)
(** * Properties of the text helpers *)
(* ================================================================== *)

Module HtmlFacts.
Import Html StrFacts.

(** The entity that stands for one character. *)
Definition entity (c : ascii) : string :=
  if Ascii.eqb c "&" then "&amp;"
  else if Ascii.eqb c "<" then "&lt;"
  else if Ascii.eqb c ">" then "&gt;"
  else if Ascii.eqb c quote then "&quot;"
  else String c "".

(** Escaping character by character. *)
Fixpoint escape_each (s : string) : string :=
  match s with
  | EmptyString => EmptyString
  | String c r => entity c +++ escape_each r
  end.

(** One of the characters [<], [>] and the double quote. *)
Definition markup (c : ascii) : bool :=
  Ascii.eqb c "<" || Ascii.eqb c ">" || Ascii.eqb c quote.

Lemma replace_all_append (c : ascii) (by_ a b : string) :
  replace_all c by_ (a +++ b) = replace_all c by_ a +++ replace_all c by_ b.
Proof.
  induction a as [|d r IH]; [reflexivity|].
  cbn [String.append replace_all]. rewrite IH.
  destruct (Ascii.eqb d c); [rewrite append_assoc|]; reflexivity.
Qed.

Definition four_passes (s : string) : string :=
  replace_all quote "&quot;"
    (replace_all ">" "&gt;" (replace_all "<" "&lt;" (replace_all "&" "&amp;" s))).

Lemma four_passes_cons (c : ascii) (r : string) :
  four_passes (String c r) = entity c +++ four_passes r.
Proof.
  unfold four_passes, entity. cbn [replace_all].
  destruct (Ascii.eqb c "&") eqn:E1.
  { rewrite !replace_all_append. reflexivity. }
  cbn [replace_all]. destruct (Ascii.eqb c "<") eqn:E2.
  { rewrite !replace_all_append. reflexivity. }
  cbn [replace_all]. destruct (Ascii.eqb c ">") eqn:E3.
  { rewrite !replace_all_append. reflexivity. }
  cbn [replace_all]. destruct (Ascii.eqb c quote) eqn:E4; reflexivity.
Qed.

Lemma four_passes_each (s : string) : four_passes s = escape_each s.
Proof.
  induction s as [|c r IH]; [reflexivity|].
  rewrite four_passes_cons, IH. reflexivity.
Qed.

Lemma all_chars_app (p : ascii -> bool) (a b : string) :
  Str.all_chars p (a +++ b) = Str.all_chars p a && Str.all_chars p b.
Proof.
  induction a as [|c r IH]; [reflexivity|]. cbn. rewrite IH. apply andb_assoc.
Qed.

Lemma entity_no_markup (c : ascii) :
  Str.all_chars (fun d => negb (markup d)) (entity c) = true.
Proof.
  unfold entity.
  destruct (Ascii.eqb c "&"); [reflexivity|].
  destruct (Ascii.eqb c "<") eqn:E2; [reflexivity|].
  destruct (Ascii.eqb c ">") eqn:E3; [reflexivity|].
  destruct (Ascii.eqb c quote) eqn:E4; [reflexivity|].
  cbn. unfold markup. rewrite E2, E3, E4. reflexivity.
Qed.

Lemma entity_plain (c : ascii) :
  markup c = false -> Ascii.eqb c "&" = false -> entity c = String c "".
Proof.
  unfold markup, entity. intros M A.
  apply orb_false_iff in M as [M Q]. apply orb_false_iff in M as [L G].
  rewrite A, L, G, Q. reflexivity.
Qed.

(** X17.  [escapeHtml] escapes every character on its own: the four
    replacements in a row give the same text as replacing each [&], [<],
    [>] and double quote by its entity in one pass, so the [&] of an entity
    is never escaped again; the result holds no [<], no [>] and no double
    quote, and a text without these characters and without [&] is returned
    as it is. *)
Theorem escapeHtml_escapes_each_character (str : string) :
  escapeHtml str = escape_each str
  /\ Str.all_chars (fun c => negb (markup c)) (escapeHtml str) = true
  /\ (Str.all_chars (fun c => negb (markup c) && negb (Ascii.eqb c "&")) str = true ->
      escapeHtml str = str).
Proof.
  assert (E : escapeHtml str = escape_each str).
  { unfold escapeHtml. destruct (String.eqb str "") eqn:N.
    - apply String.eqb_eq in N. subst str. reflexivity.
    - apply four_passes_each. }
  split; [exact E|]. rewrite E. clear E. split.
  - induction str as [|c r IH]; [reflexivity|].
    cbn [escape_each]. rewrite all_chars_app, entity_no_markup. exact IH.
  - induction str as [|c r IH]; [reflexivity|].
    cbn [Str.all_chars escape_each]. intros P.
    apply andb_true_iff in P as [P1 P2]. apply andb_true_iff in P1 as [M A].
    apply negb_true_iff in M, A.
    rewrite (entity_plain c M A), (IH P2). reflexivity.
Qed.

End HtmlFacts.

(* ================================================================== *)
(** * Node ids are decoded at their first dash *)
(* ================================================================== *)

Module NodeIdFacts.
Import NodeId StrFacts.

Definition no_dash (s : string) : bool :=
  Str.all_chars (fun c => negb (Ascii.eqb c "-")) s.

Lemma indexOf_first (c : ascii) (a b : string) :
  Str.all_chars (fun d => negb (Ascii.eqb d c)) a = true ->
  Str.indexOf c (a +++ String c b) = Some (String.length a).
Proof.
  induction a as [|d r IH]; cbn.
  - intros _. rewrite Ascii.eqb_refl. reflexivity.
  - intros E. apply andb_true_iff in E as [E1 E2]. apply negb_true_iff in E1.
    rewrite E1, (IH E2). reflexivity.
Qed.

Lemma indexOf_split (c : ascii) (s : string) (i : nat) :
  Str.indexOf c s = Some i ->
  s = Str.take i s +++ String c (Str.drop (i + 1) s).
Proof.
  revert i; induction s as [|d r IH]; intros i; cbn [Str.indexOf]; [discriminate|].
  destruct (Ascii.eqb d c) eqn:E.
  - intros [= <-]. apply Ascii.eqb_eq in E. subst d. reflexivity.
  - destruct (Str.indexOf c r) as [j|]; [|discriminate].
    intros [= <-]. cbn. rewrite <- (IH j eq_refl). reflexivity.
Qed.

(** X18.  A node id is decoded at its first dash.  [parseNodeId] gives back
    the type and the key from which [createNodeId] made an id exactly when
    the type holds no dash; and every id that holds a dash is made again by
    [createNodeId] from what [parseNodeId] reads in it. *)
Theorem node_id_round_trip :
  (forall type pkValue, no_dash type = true ->
     parseNodeId (createNodeId type pkValue)
     = {| n_type := type; n_pkValue := pkValue |})
  /\ (forall nodeId, Str.includes nodeId "-" = true ->
        createNodeId (n_type (parseNodeId nodeId)) (n_pkValue (parseNodeId nodeId)) = nodeId)
  /\ (forall type pkValue, no_dash type = false ->
        n_type (parseNodeId (createNodeId type pkValue)) <> type).
Proof.
  split; [|split].
  - intros type pkValue N. unfold parseNodeId, createNodeId.
    change ("-" +++ pkValue) with (String "-" pkValue).
    rewrite (indexOf_first "-" type pkValue N).
    unfold Str.slice. rewrite Nat.sub_0_r. cbn [Str.drop].
    rewrite take_append.
    assert (D : forall a, Str.drop (String.length a + 1) (a +++ String "-" pkValue) = pkValue).
    { induction a as [|d r IH]; [reflexivity|exact IH]. }
    rewrite D. reflexivity.
  - intros nodeId I. unfold parseNodeId, Str.includes in *.
    destruct (Str.indexOf "-" nodeId) as [i|] eqn:E; [|discriminate I].
    cbn [n_type n_pkValue]. unfold createNodeId, Str.slice.
    rewrite Nat.sub_0_r. cbn [Str.drop]. symmetry. apply (indexOf_split _ _ _ E).
  - intros type pkValue N. unfold parseNodeId, createNodeId.
    change ("-" +++ pkValue) with (String "-" pkValue).
    destruct (Str.indexOf "-" (type +++ String "-" pkValue)) as [i|] eqn:E.
    + cbn [n_type]. unfold Str.slice. rewrite Nat.sub_0_r. cbn [Str.drop].
      intros T.
      assert (D : no_dash (Str.take i (type +++ String "-" pkValue)) = true).
      { clear T N. revert i E. generalize (type +++ String "-" pkValue) as s.
        induction s as [|d r IH]; intros i; cbn [Str.indexOf]; [discriminate|].
        destruct (Ascii.eqb d "-") eqn:B.
        - intros [= <-]. reflexivity.
        - destruct (Str.indexOf "-" r) as [j|]; [|discriminate].
          intros [= <-]. unfold no_dash in *. cbn. rewrite B. apply (IH j eq_refl). }
      rewrite T in D. rewrite D in N. discriminate N.
    + exfalso. clear N. induction type as [|d r IH]; cbn in E.
      * discriminate E.
      * destruct (Ascii.eqb d "-"); [discriminate E|].
        destruct (Str.indexOf "-" (r +++ String "-" pkValue)); [discriminate E|].
        apply IH. reflexivity.
Qed.

End NodeIdFacts.
(* ================================================================== *)
(** * Properties of the raw graph *)
(* ================================================================== *)

Module RawGraphFacts.
Import Path Config RawGraph PathLaws ParseLaws StrFacts.

Ltac bind_inv H :=
  match type of H with
  | bind ?m _ = Ok _ =>
      let E := fresh "E" in
      destruct m eqn:E; cbn [bind] in H; [|discriminate H|discriminate H]
  end.




Section WithHost.
Context `{Host}.







(** ** The invariant of the traversal *)

Section Invariant.
Variables maxDepth maxNodes : nat.
Variable callId : string.

(** What is known of a value that [traverse] is called with at a path; it
    is handed down to the items of an array and to the entries of an
    object. *)
Variable known : list seg -> value -> Prop.
Hypothesis known_item : forall path id0 items i item,
  known path (VArr id0 items) -> nth_error items i = Some item ->
  known (path ++ [SIdx i]) item.
Hypothesis known_entry : forall path done k child rest,
  known path (VObj (done ++ (k, child) :: rest)) ->
  known (path ++ [SKey k]) child.

Definition node_ok (n : node) : Prop :=
  exists segs,
    v_path n = node_path segs
    /\ v_id n = callId +++ ":" +++ node_path segs
    /\ v_callId n = callId
    /\ known segs (v_data n).

(** An edge ends in a node of the list and starts in a node that stands
    before that one. *)
Definition edge_ok (ns : list node) (e : Engine.edge) : Prop :=
  Engine.g_id e = Engine.g_source e +++ "->" +++ Engine.g_target e
  /\ Engine.g_edgeType e = "raw"
  /\ exists pre n post,
       ns = pre ++ n :: post
       /\ v_id n = Engine.g_target e /\ In (Engine.g_source e) (map v_id pre).

Definition inv (g : graph) : Prop :=
  nodeCount g = List.length (nodes g)
  /\ nodeCount g <= maxNodes
  /\ Forall node_ok (nodes g)
  /\ Forall (edge_ok (nodes g)) (edges g)
  /\ match nodes g with
     | [] => edges g = []
     | _ :: _ => S (List.length (edges g)) = List.length (nodes g)
     end
  /\ map Engine.g_target (edges g) = map v_id (tl (nodes g)).

(** The root is traversed first and without a parent; every other value
    has a parent that is in the graph already. *)
Definition rooted (path : list seg) (parentId : option string) (g : graph) : Prop :=
  (path = [] /\ parentId = None /\ nodes g = [])
  \/ (path <> [] /\ exists p, parentId = Some p /\ p <> "" /\ In p (map v_id (nodes g))).

Definition extends (g g' : graph) : Prop := exists added, nodes g' = nodes g ++ added.




Lemma inv_truncate (g : graph) : inv g -> inv (truncate g).
Proof. intros I. exact I. Qed.



(** What the traversal of one value keeps. *)
Definition sound (value : value) : Prop :=
  forall path key parentId depth g g',
    known path value -> inv g -> rooted path parentId g ->
    traverse maxDepth maxNodes callId value path key parentId depth g = Ok g' ->
    inv g' /\ extends g g'.







End Invariant.






(** ** Nodes and paths *)






End WithHost.
End RawGraphFacts.

(* ================================================================== *)
(** * The ids of the raw graph *)
(* ================================================================== *)

Module RawIdFacts.
Import Path Config RawGraph PathLaws ParseLaws StrFacts RawGraphFacts.













Section WithHost.
Context `{Host}.

Section Placed.
Variables maxDepth maxNodes : nat.
Variable callId : string.
Variable json : value.























End Placed.








End WithHost.
End RawIdFacts.
(* ================================================================== *)
(** * Invariants of the calls store *)
(* ================================================================== *)

Module CallsStoreFacts.
Import Config CallsStore MapFacts.

Lemma map_set_keys {A} (m : list (string * A)) (k : string) (v : A) :
  map fst (map_set m k v)
  = if existsb (String.eqb k) (map fst m) then map fst m else map fst m ++ [k].
Proof.
  induction m as [|[k0 v0] rest IH]; [reflexivity|].
  cbn [map_set map fst existsb]. rewrite (String.eqb_sym k k0).
  destruct (String.eqb k0 k) eqn:E; [reflexivity|].
  cbn [map fst orb]. rewrite IH. destruct (existsb _ _); reflexivity.
Qed.

Lemma existsb_eqb_in (k : string) (l : list string) :
  existsb (String.eqb k) l = true <-> In k l.
Proof.
  rewrite existsb_exists. split.
  - intros [x [Hin E]]. apply String.eqb_eq in E. subst x. exact Hin.
  - intros Hin. exists k. split; [exact Hin|apply String.eqb_refl].
Qed.

Lemma map_set_nodup {A} (m : list (string * A)) (k : string) (v : A) :
  NoDup (map fst m) -> NoDup (map fst (map_set m k v)).
Proof.
  intros N. rewrite map_set_keys.
  destruct (existsb (String.eqb k) (map fst m)) eqn:E; [exact N|].
  apply NoDup_app; [exact N|constructor; [intros []|constructor]|].
  intros x Hx [<-|[]].
  apply existsb_eqb_in in Hx. rewrite Hx in E. discriminate E.
Qed.

Lemma map_get_none {A} (m : list (string * A)) (k : string) :
  map_get m k = None <-> ~ In k (map fst m).
Proof.
  unfold map_get. induction m as [|[k0 v0] rest IH]; cbn.
  - split; [intros _ []|reflexivity].
  - destruct (String.eqb k0 k) eqn:E.
    + apply String.eqb_eq in E. subst k0. split; [discriminate|].
      intros N. contradiction N. left; reflexivity.
    + apply String.eqb_neq in E. rewrite IH. split.
      * intros N [Hk|Hin]; [contradiction|contradiction].
      * intros N Hin. apply N. right; exact Hin.
Qed.

Lemma map_set_fresh {A} (m : list (string * A)) (k : string) (v : A) :
  ~ In k (map fst m) -> map_set m k v = m ++ [(k, v)].
Proof.
  induction m as [|[k0 v0] rest IH]; intros N; [reflexivity|].
  cbn [map_set]. destruct (String.eqb k0 k) eqn:E.
  - apply String.eqb_eq in E. subst k0. contradiction N. left; reflexivity.
  - cbn [app]. rewrite IH; [reflexivity|]. intros Hin. apply N. right; exact Hin.
Qed.

Lemma map_get_in {A} (m : list (string * A)) (k : string) (v : A) :
  NoDup (map fst m) -> In (k, v) m -> map_get m k = Some v.
Proof.
  unfold map_get. induction m as [|[k0 v0] rest IH]; intros N Hin; [destruct Hin|].
  cbn in N. inversion N as [|? ? Nk Nr]. subst.
  cbn. destruct Hin as [[= -> ->]|Hin].
  - rewrite String.eqb_refl. reflexivity.
  - destruct (String.eqb k0 k) eqn:E; [|apply (IH Nr Hin)].
    apply String.eqb_eq in E. subst k0. contradiction Nk.
    apply (in_map fst) in Hin. exact Hin.
Qed.

Lemma map_delete_keys {A} (m : list (string * A)) (key : string) :
  map fst (map_delete m key) = filter (fun k => negb (String.eqb k key)) (map fst m).
Proof.
  unfold map_delete. induction m as [|[k0 v0] rest IH]; [reflexivity|].
  cbn. destruct (String.eqb k0 key); cbn; rewrite IH; reflexivity.
Qed.

Lemma map_get_delete {A} (m : list (string * A)) (key k : string) :
  k <> key -> map_get (map_delete m key) k = map_get m k.
Proof.
  intros N. unfold map_get, map_delete. induction m as [|[k0 v0] rest IH]; [reflexivity|].
  cbn. destruct (String.eqb k0 key) eqn:E; cbn.
  - apply String.eqb_eq in E. subst k0.
    apply not_eq_sym, String.eqb_neq in N. rewrite N. exact IH.
  - destruct (String.eqb k0 k); [reflexivity|exact IH].
Qed.


Section WithParser.
Variable JSON_parse : string -> value + string.

(** A stored call holds the result of parsing its own text. *)
Definition parsed_from_text (c : stored) : Prop :=
  k_parsedJson c = fst (tryParseJson JSON_parse (k_json c))
  /\ k_parseError c = snd (tryParseJson JSON_parse (k_json c)).

(** [activeCallId] is falsy or the id of a call of the store. *)
Definition active_present (calls : list (string * stored)) (a : active) : Prop :=
  falsy a = true \/ exists id c, a = AId id /\ map_get calls id = Some c.

Definition consistent (st : state) : Prop :=
  NoDup (map fst (calls st))
  /\ active_present (calls st) (activeCallId st)
  /\ forall id c, In (id, c) (calls st) -> parsed_from_text c.











(** The operations of the store that change its state, and [Stored]: the
    item of the local storage is replaced from outside (another tab, the
    user). *)
Inductive op : Type :=
| CreateCall (callId name json : string)
| UpdateJson (callId json : string)
| UpdateName (callId name : string)
| UpdateExtractions (callId : string) (extractions : option (list extraction))
| DeleteCall (callId : string)
| SetActiveCall (callId : string)
| ClearAll
| ImportData (d : data)
| Init (callId : string)
| StartBatch
| EndBatch
| Stored (found : item).

Definition run (o : op) (st : state) : state :=
  match o with
  | CreateCall callId name json => createCall JSON_parse callId name json st
  | UpdateJson callId json => updateJson JSON_parse callId json st
  | UpdateName callId name => updateName callId name st
  | UpdateExtractions callId extractions => updateExtractions callId extractions st
  | DeleteCall callId => deleteCall callId st
  | SetActiveCall callId => setActiveCall callId st
  | ClearAll => clearAll st
  | ImportData d => importData JSON_parse d st
  | Init callId => init JSON_parse callId st
  | StartBatch => startBatch st
  | EndBatch => endBatch st
  | Stored found =>
      {| calls := calls st; activeCallId := activeCallId st; callCounter := callCounter st;
         batchMode := batchMode st; batchDirty := batchDirty st;
         batchEventType := batchEventType st; events := events st; storage := found |}
  end.

Definition broken (found : item) : bool :=
  match found with
  | Broken _ => true
  | _ => false
  end.

(** The store is consistent, and it has no active call while the storage
    holds an item that [load] cannot read to its end. *)
Definition sound (st : state) : Prop :=
  consistent st /\ (broken (storage st) = true -> falsy (activeCallId st) = true).












(** The new store in a browser whose storage holds the item [found]. *)
Definition opened (found : item) : state :=
  {| calls := []; activeCallId := ANull; callCounter := 0;
     batchMode := false; batchDirty := false; batchEventType := "change";
     events := []; storage := found |}.



(** What the theorem leaves out: when data on which [load] raises is put
    into the storage while the store has an active call, [init] refills
    [calls] with what it could read, keeps the active call id and creates a
    call, and the active call id is the id of no call. *)
Lemma broken_item_strands_the_active_call :
  let st :=
    fold_left (fun st o => run o st)
      [ CreateCall "x" "X" "";
        Stored (Broken [ {| d_id := "a"; d_name := "A"; d_json := "";
                            d_extractions := None |} ]);
        Init "c2" ]
      (opened NoItem) in
  activeCallId st = AId "x" /\ map fst (calls st) = ["a"; "c2"].
Proof. split; reflexivity. Qed.

(* ------------------------------------------------------------------ *)
(** ** Export and import *)
(* ------------------------------------------------------------------ *)

Definition to_entry (idc : string * stored) : entry :=
  let '(id, c) := idc in
  {| d_id := id; d_name := k_name c; d_json := k_json c;
     d_extractions := k_extractions c |}.

Lemma set_entries_restores (acc l : list (string * stored)) :
  NoDup (map fst (acc ++ l)) ->
  (forall id c, In (id, c) l -> parsed_from_text c /\ k_extractions c <> None) ->
  set_entries JSON_parse (Some []) acc (map to_entry l) = acc ++ l.
Proof.
  revert acc; induction l as [|[id c] rest IH]; intros acc N P.
  - cbn. symmetry; apply app_nil_r.
  - cbn [map set_entries to_entry d_id d_name d_json d_extractions].
    destruct (P id c (or_introl eq_refl)) as [[Pj Pe] X].
    assert (M : make JSON_parse (k_name c) (k_json c)
                  match k_extractions c with Some l => Some l | None => Some [] end = c).
    { unfold make. rewrite <- Pj, <- Pe.
      destruct c as [n j [x|] pj pe]; [reflexivity|contradiction X; reflexivity]. }
    rewrite M. rewrite map_set_fresh.
    + rewrite IH; [rewrite <- app_assoc; reflexivity| |].
      * rewrite <- app_assoc. exact N.
      * intros id' c' Hin. apply (P id' c'). right; exact Hin.
    + rewrite map_app in N. cbn in N. apply NoDup_remove_2 in N.
      intros Hin. apply N, in_or_app. left; exact Hin.
Qed.

Lemma validate_id (m : list (string * stored)) (a : active) :
  active_present m a -> validate m a = a.
Proof.
  intros [F|[id [c [-> G]]]].
  - destruct a as [| |id]; try reflexivity. cbn in F |- *. rewrite F. reflexivity.
  - cbn. rewrite G. destruct (String.eqb id ""); reflexivity.
Qed.

(** X22.  Export followed by import restores the store: if every call of a
    consistent store has its list of extractions, importing what
    [exportData] returns, into any store, gives the same calls in the same
    order, with the same parse results, and the same active call; the call
    counter becomes the number of calls. *)
Theorem import_restores_the_export (st other : state)
    (C : consistent st)
    (X : forall id c, In (id, c) (calls st) -> k_extractions c <> None) :
  let st' := importData JSON_parse (exportData st) other in
  calls st' = calls st
  /\ activeCallId st' = activeCallId st
  /\ callCounter st' = List.length (calls st).
Proof.
  destruct C as [N [A P]].
  assert (E : set_entries JSON_parse (Some []) [] (map to_entry (calls st)) = calls st).
  { apply (set_entries_restores [] (calls st)); [exact N|].
    intros id c Hin. split; [apply (P id c Hin)|apply (X id c Hin)]. }
  assert (D : d_calls (exportData st) = Some (map to_entry (calls st))).
  { reflexivity. }
  cbn zeta. unfold importData. rewrite D, E.
  assert (G : forall t s, calls (notifyListeners t s) = calls s
                          /\ activeCallId (notifyListeners t s) = activeCallId s
                          /\ callCounter (notifyListeners t s) = callCounter s).
  { intros t s. unfold notifyListeners. destruct (batchMode s); repeat split. }
  destruct (G "imported" (persist (with_calls other (calls st)
              (validate (calls st) (d_activeCallId (exportData st)))
              (List.length (map to_entry (calls st)))))) as [-> [-> ->]].
  cbn. rewrite validate_id by exact A. rewrite length_map. repeat split.
Qed.

(* ------------------------------------------------------------------ *)
(** ** Batches *)
(* ------------------------------------------------------------------ *)

Definition in_batch (o : op) : bool :=
  match o with
  | StartBatch | EndBatch => false
  | _ => true
  end.

(** The last of the events, if there is one. *)
Definition last_event (evs : list string) : list string :=
  match rev evs with
  | [] => []
  | t :: _ => [t]
  end.

(** The state [sb] of a store in batch mode beside the state [su] of a
    store that ran the same operations outside batch mode: they hold the
    same data; [su] has delivered the events [evs] behind [before], [sb]
    has delivered none of them and remembers the last. *)
Definition beside (before evs : list string) (sb su : state) : Prop :=
  calls sb = calls su /\ activeCallId sb = activeCallId su
  /\ callCounter sb = callCounter su /\ storage sb = storage su
  /\ batchMode sb = true /\ batchMode su = false
  /\ events sb = before /\ events su = before ++ evs
  /\ match rev evs with
     | [] => batchDirty sb = false
     | t :: _ => batchDirty sb = true /\ batchEventType sb = t
     end.

Lemma beside_notify (before evs : list string) (sb su : state) (t : string) :
  beside before evs sb su ->
  beside before (evs ++ [t]) (notifyListeners t sb) (notifyListeners t su).
Proof.
  intros [Hc [Ha [Hn [Hs [Bb [Bu [Eb [Eu _]]]]]]]].
  unfold notifyListeners. rewrite Bb, Bu. unfold beside.
  cbn [calls activeCallId callCounter storage batchMode events batchDirty batchEventType].
  rewrite rev_app_distr. cbn [rev app]. rewrite Eu, <- app_assoc.
  repeat split; assumption.
Qed.

Lemma beside_commit (before evs : list string) (sb su : state) (t : string)
    (calls' : list (string * stored)) (a : active) (n : nat) :
  beside before evs sb su ->
  beside before (evs ++ [t])
    (notifyListeners t (persist (with_calls sb calls' a n)))
    (notifyListeners t (persist (with_calls su calls' a n))).
Proof.
  intros [Hc [Ha [Hn [Hs [Bb [Bu [Eb [Eu D]]]]]]]]. apply beside_notify.
  unfold beside, persist, with_calls.
  cbn [calls activeCallId callCounter storage batchMode events batchDirty batchEventType].
  repeat split; assumption.
Qed.

Lemma run_beside (o : op) (before evs : list string) (sb su : state) :
  in_batch o = true -> beside before evs sb su ->
  exists more, beside before (evs ++ more) (run o sb) (run o su).
Proof.
  intros Q B. pose proof B as [Hc [Ha [Hn [Hs [Bb [Bu [Eb [Eu D]]]]]]]].
  assert (Same : exists more, beside before (evs ++ more) sb su)
    by (exists []; rewrite app_nil_r; exact B).
  destruct o; try discriminate Q; cbn [run].
  - unfold createCall. rewrite Hc, Ha, Hn. eexists [_]. apply beside_commit, B.
  - unfold updateJson. rewrite Hc, Ha, Hn.
    destruct (map_get _ _); [eexists [_]; apply beside_commit, B|exact Same].
  - unfold updateName. rewrite Hc, Ha, Hn.
    destruct (map_get _ _); [eexists [_]; apply beside_commit, B|exact Same].
  - unfold updateExtractions. rewrite Hc, Ha, Hn.
    destruct (map_get _ _); [eexists [_]; apply beside_commit, B|exact Same].
  - unfold deleteCall. rewrite Hc, Ha, Hn.
    destruct (map_get _ _); [eexists [_]; apply beside_commit, B|exact Same].
  - unfold setActiveCall. rewrite Hc, Hn.
    destruct (map_get _ _); [eexists [_]; apply beside_commit, B|exact Same].
  - unfold clearAll. eexists [_]. apply beside_commit, B.
  - unfold importData. eexists [_]. apply beside_commit, B.
  - unfold init, load. rewrite Hs, Ha, Hn.
    assert (Loaded : forall calls' a n,
      beside before evs (with_calls sb calls' a n) (with_calls su calls' a n)).
    { intros calls' a n. unfold beside, with_calls.
      cbn [calls activeCallId callCounter storage batchMode events batchDirty
             batchEventType].
      repeat split; assumption. }
    assert (Created : forall s1 s2, beside before evs s1 s2 ->
      exists more,
        beside before (evs ++ more)
          (notifyListeners "init" (createCall JSON_parse callId "" "" s1))
          (notifyListeners "init" (createCall JSON_parse callId "" "" s2))).
    { intros s1 s2 B12. pose proof B12 as [Kc [Ka [Kn _]]].
      unfold createCall. rewrite Kc, Ka, Kn. eexists [_; _].
      change (evs ++ [?x; ?y]) with (evs ++ [x] ++ [y]). rewrite app_assoc.
      apply beside_notify, beside_commit, B12. }
    assert (Kept : forall s1 s2, beside before evs s1 s2 ->
      exists more,
        beside before (evs ++ more) (notifyListeners "init" s1)
          (notifyListeners "init" s2)).
    { intros s1 s2 B12. eexists [_]. apply beside_notify, B12. }
    destruct (storage su) as [| |p|read]; cbn [negb orb].
    + apply Created, B.
    + apply Created, B.
    + cbn [calls with_calls].
      destruct (_ =? 0); [apply Created, Loaded|apply Kept, Loaded].
    + apply Created, Loaded.
  - exists []. rewrite app_nil_r. unfold beside.
    cbn [calls activeCallId callCounter storage batchMode events batchDirty batchEventType].
    repeat split; assumption.
Qed.

Lemma runs_beside (ops : list op) (before evs : list string) (sb su : state) :
  forallb in_batch ops = true -> beside before evs sb su ->
  exists more,
    beside before (evs ++ more) (fold_left (fun s o => run o s) ops sb)
      (fold_left (fun s o => run o s) ops su).
Proof.
  revert evs sb su; induction ops as [|o rest IH]; intros evs sb su Q B.
  - exists []. rewrite app_nil_r. exact B.
  - cbn in Q. apply andb_true_iff in Q as [Qo Qr].
    destruct (run_beside o before evs sb su Qo B) as [m1 B1].
    destruct (IH _ _ _ Qr B1) as [m2 B2].
    exists (m1 ++ m2). rewrite app_assoc. exact B2.
Qed.

(** X23.  A batch gathers the events.  Take a store outside batch mode and
    any operations other than [startBatch] and [endBatch], and let [evs] be
    the events that the listeners get when the operations run one by one.
    Run between [startBatch] and [endBatch], the same operations leave the
    same calls, active call, counter and storage; no listener is called
    before [endBatch]; and [endBatch] calls the listeners once, with the
    last event of [evs], if there is one, and not at all if [evs] is
    empty. *)
Theorem batch_defers_events (st : state) (ops : list op)
    (M : batchMode st = false)
    (Q : forallb in_batch ops = true) :
  let plain := fold_left (fun s o => run o s) ops st in
  let inside := fold_left (fun s o => run o s) ops (startBatch st) in
  exists evs,
    events plain = events st ++ evs
    /\ events inside = events st
    /\ events (endBatch inside) = events st ++ last_event evs
    /\ batchMode (endBatch inside) = false
    /\ calls (endBatch inside) = calls plain
    /\ activeCallId (endBatch inside) = activeCallId plain
    /\ callCounter (endBatch inside) = callCounter plain
    /\ storage (endBatch inside) = storage plain.
Proof.
  cbn zeta.
  assert (B0 : beside (events st) [] (startBatch st) st).
  { unfold beside, startBatch.
    cbn [calls activeCallId callCounter storage batchMode events batchDirty batchEventType
           rev].
    rewrite app_nil_r. repeat split. exact M. }
  destruct (runs_beside ops (events st) [] _ _ Q B0) as [evs B]. cbn [app] in B.
  destruct B as [Hc [Ha [Hn [Hs [Bb [Bu [Eb [Eu D]]]]]]]].
  exists evs. split; [exact Eu|]. split; [exact Eb|].
  unfold endBatch, last_event. destruct (rev evs) as [|t more].
  - rewrite D. cbn [calls activeCallId callCounter storage batchMode events].
    rewrite app_nil_r. repeat split; assumption.
  - destruct D as [D1 D2]. rewrite D1, D2. unfold notifyListeners.
    cbn [calls activeCallId callCounter storage batchMode events].
    rewrite Eb. repeat split; assumption.
Qed.

End WithParser.
End CallsStoreFacts.

(* ================================================================== *)
(** * The mapping store and the references to its entities *)
(* ================================================================== *)

Module MappingStoreFacts.
Import Config MappingStore MapFacts CallsStoreFacts.

Definition with_extractions (c : CallsStore.stored) (x : option (list extraction))
  : CallsStore.stored :=
  {| CallsStore.k_name := CallsStore.k_name c; CallsStore.k_json := CallsStore.k_json c;
     CallsStore.k_extractions := x;
     CallsStore.k_parsedJson := CallsStore.k_parsedJson c;
     CallsStore.k_parseError := CallsStore.k_parseError c |}.

(** A call with its extractions mapped by [f]; a call without extractions
    stays as it is. *)
Definition map_extractions (f : list extraction -> list extraction)
    (kc : string * CallsStore.stored) : string * CallsStore.stored :=
  (fst kc, with_extractions (snd kc) (option_map f (CallsStore.k_extractions (snd kc)))).

Definition changed (change : list extraction -> option (list extraction))
    (c : CallsStore.stored) : CallsStore.stored :=
  match CallsStore.k_extractions c with
  | Some extractions =>
      match change extractions with
      | Some updated => with_extractions c (Some updated)
      | None => c
      end
  | None => c
  end.

Definition touch (change : list extraction -> option (list extraction))
    (all : list (string * CallsStore.stored)) (kc : string * CallsStore.stored)
  : string * CallsStore.stored :=
  if existsb (String.eqb (fst kc)) (map fst all) then (fst kc, changed change (snd kc))
  else kc.

Lemma map_set_as_map {A} (m : list (string * A)) (k : string) (v : A) :
  NoDup (map fst m) -> In k (map fst m) ->
  map_set m k v = map (fun kc => if String.eqb (fst kc) k then (k, v) else kc) m.
Proof.
  induction m as [|[k0 v0] rest IH]; intros N Hin; [destruct Hin|].
  cbn in N. inversion N as [|? ? Nk Nr]; subst.
  cbn [map_set map fst]. destruct (String.eqb k0 k) eqn:E.
  - apply String.eqb_eq in E. subst k0. f_equal.
    rewrite <- (map_id rest) at 1. apply map_ext_in. intros [k1 v1] H1. cbn.
    destruct (String.eqb k1 k) eqn:E1; [|reflexivity].
    apply String.eqb_eq in E1. subst k1. contradiction Nk.
    apply (in_map fst) in H1. exact H1.
  - f_equal. apply IH; [exact Nr|]. cbn in Hin. destruct Hin as [Hk|Hin]; [|exact Hin].
    subst k0. rewrite String.eqb_refl in E. discriminate E.
Qed.

Lemma map_get_key {A} (m : list (string * A)) (k : string) (v : A) :
  map_get m k = Some v -> In k (map fst m).
Proof.
  intros G. apply own_property_In in G. apply (in_map fst) in G. exact G.
Qed.

Lemma update_calls (id : string) (x : option (list extraction)) (cs : CallsStore.state)
    (c : CallsStore.stored) :
  map_get (CallsStore.calls cs) id = Some c ->
  CallsStore.calls (CallsStore.updateExtractions id x cs)
  = map_set (CallsStore.calls cs) id (with_extractions c x)
  /\ CallsStore.activeCallId (CallsStore.updateExtractions id x cs)
     = CallsStore.activeCallId cs.
Proof.
  intros G. unfold CallsStore.updateExtractions. rewrite G.
  unfold CallsStore.notifyListeners. destruct (CallsStore.batchMode _); split; reflexivity.
Qed.

Lemma each_call_calls (change : list extraction -> option (list extraction))
    (all : list (string * CallsStore.stored)) (cs : CallsStore.state) :
  NoDup (map fst all) -> NoDup (map fst (CallsStore.calls cs)) ->
  (forall id c, In (id, c) all -> map_get (CallsStore.calls cs) id = Some c) ->
  CallsStore.calls (each_call change all cs) = map (touch change all) (CallsStore.calls cs).
Proof.
  revert cs; induction all as [|[id c] rest IH]; intros cs Na Nc G.
  - cbn [each_call]. rewrite <- (map_id (CallsStore.calls cs)) at 1.
    apply map_ext. intros kc. reflexivity.
  - cbn in Na. inversion Na as [|? ? Nid Nr]; subst.
    assert (Gc : map_get (CallsStore.calls cs) id = Some c) by (apply G; left; reflexivity).
    assert (Gr : forall id' c', In (id', c') rest ->
                                map_get (CallsStore.calls cs) id' = Some c')
      by (intros id' c' H; apply G; right; exact H).
    assert (Same : forall kc, In kc (CallsStore.calls cs) ->
                              String.eqb (fst kc) id = true -> snd kc = c).
    { intros [k v] Hin E. cbn in E. apply String.eqb_eq in E. subst k.
      apply (map_get_in _ _ _ Nc) in Hin. cbn. congruence. }
    assert (Xr : existsb (String.eqb id) (map fst rest) = false).
    { destruct (existsb _ _) eqn:Xr; [|reflexivity].
      apply existsb_eqb_in in Xr. contradiction. }
    assert (Keep : changed change c = c ->
                   map (touch change rest) (CallsStore.calls cs)
                   = map (touch change ((id, c) :: rest)) (CallsStore.calls cs)).
    { intros K. apply map_ext_in. intros [k v] Hin. unfold touch.
      cbn [map fst snd existsb].
      destruct (String.eqb k id) eqn:E; [|reflexivity]. cbn [orb].
      pose proof (Same (k, v) Hin E) as Sv. cbn in Sv. subst v. rewrite K.
      apply String.eqb_eq in E. subst k. rewrite Xr. reflexivity. }
    cbn [each_call]. destruct (CallsStore.k_extractions c) as [extractions|] eqn:X.
    + destruct (change extractions) as [updated|] eqn:U.
      * destruct (update_calls id (Some updated) cs c Gc) as [Ec _].
        rewrite IH.
        -- rewrite Ec, map_set_as_map by (try exact Nc; apply (map_get_key _ _ _ Gc)).
           rewrite map_map. apply map_ext_in. intros [k v] Hin. unfold touch.
           cbn [map fst snd existsb].
           destruct (String.eqb k id) eqn:E.
           ++ cbn [fst snd orb]. pose proof (Same (k, v) Hin E) as Sv. cbn in Sv. subst v.
              apply String.eqb_eq in E. subst k. rewrite Xr. f_equal.
              unfold changed. rewrite X, U. reflexivity.
           ++ cbn [orb]. reflexivity.
        -- exact Nr.
        -- rewrite Ec. apply map_set_nodup, Nc.
        -- intros id' c' H. rewrite Ec, get_set.
           destruct (String.eqb id' id) eqn:E; [|apply Gr, H].
           apply String.eqb_eq in E. subst id'. contradiction Nid.
           apply (in_map fst) in H. exact H.
      * rewrite (IH cs Nr Nc Gr). apply Keep. unfold changed. rewrite X, U. reflexivity.
    + rewrite (IH cs Nr Nc Gr). apply Keep. unfold changed. rewrite X. reflexivity.
Qed.

Lemma each_call_all (change : list extraction -> option (list extraction))
    (cs : CallsStore.state) :
  NoDup (map fst (CallsStore.calls cs)) ->
  CallsStore.calls (each_call change (CallsStore.getAllCalls cs) cs)
  = map (fun kc => (fst kc, changed change (snd kc))) (CallsStore.calls cs).
Proof.
  intros N. unfold CallsStore.getAllCalls. rewrite each_call_calls.
  - apply map_ext_in. intros kc Hin. unfold touch.
    assert (X : existsb (String.eqb (fst kc)) (map fst (CallsStore.calls cs)) = true)
      by (apply existsb_eqb_in, in_map, Hin).
    rewrite X. reflexivity.
  - exact N.
  - exact N.
  - intros id c Hin. apply (map_get_in _ _ _ N Hin).
Qed.

Lemma each_call_active (change : list extraction -> option (list extraction))
    (all : list (string * CallsStore.stored)) (cs : CallsStore.state) :
  CallsStore.activeCallId (each_call change all cs) = CallsStore.activeCallId cs.
Proof.
  revert cs; induction all as [|[id c] rest IH]; intros cs; [reflexivity|].
  cbn [each_call]. destruct (CallsStore.k_extractions c) as [extractions|]; [|apply IH].
  destruct (change extractions) as [updated|]; [|apply IH].
  rewrite IH. unfold CallsStore.updateExtractions.
  destruct (map_get _ _); [|reflexivity].
  unfold CallsStore.notifyListeners. destruct (CallsStore.batchMode _); reflexivity.
Qed.

Lemma with_extractions_same (c : CallsStore.stored) :
  with_extractions c (CallsStore.k_extractions c) = c.
Proof. destruct c; reflexivity. Qed.

Lemma filter_same_length {A} (f : A -> bool) (l : list A) :
  List.length (filter f l) = List.length l -> filter f l = l.
Proof.
  induction l as [|x rest IH]; [reflexivity|]. cbn.
  destruct (f x); cbn; intros E.
  - f_equal. apply IH. lia.
  - pose proof (filter_length_le f rest). lia.
Qed.

Definition other_than (id : string) (ext : extraction) : bool :=
  negb (String.eqb (x_entity ext) id).

Lemma changed_cleaned (id : string) (kc : string * CallsStore.stored) :
  (fst kc, changed (cleaned id) (snd kc)) = map_extractions (filter (other_than id)) kc.
Proof.
  unfold map_extractions, changed. f_equal.
  destruct (CallsStore.k_extractions (snd kc)) as [extractions|] eqn:X; cbn [option_map].
  - unfold cleaned. fold (other_than id).
    destruct (_ =? _) eqn:E; [|reflexivity].
    apply Nat.eqb_eq, filter_same_length in E. rewrite E, <- X.
    symmetry; apply with_extractions_same.
  - rewrite <- X. symmetry; apply with_extractions_same.
Qed.

Lemma map_rename_same (oldId newId : string) (l : list extraction) :
  existsb (fun ext => String.eqb (x_entity ext) oldId) l = false ->
  map (rename_extraction oldId newId) l = l.
Proof.
  induction l as [|x rest IH]; [reflexivity|]. cbn. intros E.
  apply orb_false_iff in E as [Ex Er]. unfold rename_extraction at 1. rewrite Ex.
  f_equal. apply IH, Er.
Qed.

Lemma changed_renamed (oldId newId : string) (kc : string * CallsStore.stored) :
  (fst kc, changed (renamed oldId newId) (snd kc))
  = map_extractions (map (rename_extraction oldId newId)) kc.
Proof.
  unfold map_extractions, changed. f_equal.
  destruct (CallsStore.k_extractions (snd kc)) as [extractions|] eqn:X; cbn [option_map].
  - unfold renamed. destruct (existsb _ _) eqn:E; [reflexivity|].
    rewrite (map_rename_same _ _ _ E), <- X. symmetry; apply with_extractions_same.
  - rewrite <- X. symmetry; apply with_extractions_same.
Qed.

Lemma commit_data (st : state) (entities' : list (string * entity))
    (relations' : list relation) (n : nat) :
  entities (commit st entities' relations' n) = entities'
  /\ relations (commit st entities' relations' n) = relations'.
Proof.
  unfold commit, notifyListeners. destruct (batchMode _); split; reflexivity.
Qed.

Lemma map_get_deleted {A} (m : list (string * A)) (k : string) :
  map_get (CallsStore.map_delete m k) k = None.
Proof.
  apply map_get_none. rewrite map_delete_keys. intros Hin.
  apply filter_In in Hin as [_ E]. rewrite String.eqb_refl in E. discriminate E.
Qed.

(** A relation or a call that names the entity [id]. *)
Definition relation_names (id : string) (rel : relation) : Prop :=
  r_from rel = id \/ r_to rel = id.

Definition call_names (id : string) (c : CallsStore.stored) : Prop :=
  exists extractions ext,
    CallsStore.k_extractions c = Some extractions /\ In ext extractions /\ x_entity ext = id.

Lemma map_extractions_in (f : list extraction -> list extraction)
    (calls : list (string * CallsStore.stored)) (k : string) (c : CallsStore.stored) :
  In (k, c) (map (map_extractions f) calls) ->
  exists c0, In (k, c0) calls
             /\ CallsStore.k_extractions c = option_map f (CallsStore.k_extractions c0).
Proof.
  intros Hin. apply in_map_iff in Hin as [[k0 c0] [E Hin]].
  unfold map_extractions in E. cbn in E. injection E as <- <-.
  exists c0. split; [exact Hin|reflexivity].
Qed.

Lemma deleteEntity_data (id : string) (st : state) (cs : CallsStore.state) (e : entity) :
  map_get (entities st) id = Some e -> NoDup (map fst (CallsStore.calls cs)) ->
  entities (fst (deleteEntity id st cs)) = CallsStore.map_delete (entities st) id
  /\ relations (fst (deleteEntity id st cs))
     = filter (fun rel => negb (String.eqb (r_from rel) id) && negb (String.eqb (r_to rel) id))
         (relations st)
  /\ CallsStore.calls (snd (deleteEntity id st cs))
     = map (map_extractions (filter (other_than id))) (CallsStore.calls cs).
Proof.
  intros H N. unfold deleteEntity. rewrite H. cbn [fst snd].
  match goal with |- context [commit ?s ?a ?b ?c] =>
    destruct (commit_data s a b c) as [Ee Er] end.
  split; [exact Ee|split; [exact Er|]].
  rewrite (each_call_all _ _ N). apply map_ext. intros kc. apply changed_cleaned.
Qed.

Lemma renameEntity_data (oldId newId : string) (st : state) (cs : CallsStore.state)
    (e : entity) :
  oldId <> newId -> map_get (entities st) newId = None ->
  map_get (entities st) oldId = Some e -> NoDup (map fst (CallsStore.calls cs)) ->
  entities (fst (renameEntity oldId newId st cs))
  = map_set (CallsStore.map_delete (entities st) oldId) newId e
  /\ relations (fst (renameEntity oldId newId st cs))
     = map (rename_relation oldId newId) (relations st)
  /\ CallsStore.calls (snd (renameEntity oldId newId st cs))
     = map (map_extractions (map (rename_extraction oldId newId))) (CallsStore.calls cs).
Proof.
  intros D G H N. unfold renameEntity.
  apply String.eqb_neq in D. rewrite D, G, H. cbn [fst snd].
  match goal with |- context [commit ?s ?a ?b ?c] =>
    destruct (commit_data s a b c) as [Ee Er] end.
  split; [exact Ee|split; [exact Er|]].
  rewrite (each_call_all _ _ N). apply map_ext. intros kc. apply changed_renamed.
Qed.

Lemma renamed_relation_free (oldId newId : string) (rel : relation) :
  oldId <> newId -> ~ relation_names oldId (rename_relation oldId newId rel).
Proof.
  intros D. unfold relation_names, rename_relation. cbn. intros [E|E].
  - destruct (String.eqb (r_from rel) oldId) eqn:B; [congruence|].
    apply String.eqb_neq in B. contradiction.
  - destruct (String.eqb (r_to rel) oldId) eqn:B; [congruence|].
    apply String.eqb_neq in B. contradiction.
Qed.

(** X24.  Deleting an entity of the mapping store removes every reference
    to it: the entity is gone and the other entities are untouched, the
    relations are the former ones that do not name it, in their order, and
    every call of the calls store keeps its place, name, text and parse
    result and has the former extractions that do not name it.  Nothing of
    either store names the entity afterwards. *)
Theorem deleteEntity_removes_every_reference (id : string) (st : state)
    (cs : CallsStore.state) (e : entity)
    (H : map_get (entities st) id = Some e)
    (N : NoDup (map fst (CallsStore.calls cs))) :
  let st' := fst (deleteEntity id st cs) in
  let cs' := snd (deleteEntity id st cs) in
  (getEntity id st' = None
   /\ forall other, other <> id -> getEntity other st' = getEntity other st)
  /\ (forall rel, In rel (relations st') <-> In rel (relations st) /\ ~ relation_names id rel)
  /\ CallsStore.calls cs' = map (map_extractions (filter (other_than id))) (CallsStore.calls cs)
  /\ CallsStore.activeCallId cs' = CallsStore.activeCallId cs
  /\ forall k c, In (k, c) (CallsStore.calls cs') -> ~ call_names id c.
Proof.
  cbn zeta. destruct (deleteEntity_data id st cs e H N) as [Ee [Er Ec]].
  split; [split|split; [|split; [|split]]].
  - unfold getEntity. rewrite Ee, map_get_deleted. reflexivity.
  - intros other D. unfold getEntity. rewrite Ee, (map_get_delete _ _ _ D). reflexivity.
  - intros rel. rewrite Er, filter_In. unfold relation_names.
    rewrite andb_true_iff, !negb_true_iff, !String.eqb_neq. tauto.
  - exact Ec.
  - unfold deleteEntity. rewrite H. apply each_call_active.
  - intros k c Hin [extractions [ext [X [Hx Hid]]]]. rewrite Ec in Hin.
    apply map_extractions_in in Hin as [c0 [_ X0]]. rewrite X in X0.
    destruct (CallsStore.k_extractions c0) as [l|]; [|discriminate X0].
    injection X0 as ->. apply filter_In in Hx as [_ Hx].
    unfold other_than in Hx. rewrite Hid, String.eqb_refl in Hx. discriminate Hx.
Qed.

(** X25.  Renaming an entity to an id that no entity has moves every
    reference to it: the entity is found under the new id with its fields,
    the old id is gone and the other entities are untouched, every relation
    and every extraction of every call that named the old id names the new
    one and is otherwise as before; the calls keep their place, name, text
    and parse result. *)
Theorem renameEntity_moves_every_reference (oldId newId : string) (st : state)
    (cs : CallsStore.state) (e : entity)
    (D : oldId <> newId)
    (F : getEntity newId st = None)
    (H : map_get (entities st) oldId = Some e)
    (N : NoDup (map fst (CallsStore.calls cs))) :
  let st' := fst (renameEntity oldId newId st cs) in
  let cs' := snd (renameEntity oldId newId st cs) in
  (getEntity oldId st' = None
   /\ getEntity newId st' = Some (newId, e)
   /\ forall other, other <> oldId -> other <> newId ->
                    getEntity other st' = getEntity other st)
  /\ relations st' = map (rename_relation oldId newId) (relations st)
  /\ CallsStore.calls cs'
     = map (map_extractions (map (rename_extraction oldId newId))) (CallsStore.calls cs)
  /\ CallsStore.activeCallId cs' = CallsStore.activeCallId cs
  /\ (forall rel, In rel (relations st') -> ~ relation_names oldId rel)
  /\ forall k c, In (k, c) (CallsStore.calls cs') -> ~ call_names oldId c.
Proof.
  cbn zeta.
  unfold getEntity in F. destruct (map_get (entities st) newId) eqn:G; [discriminate F|].
  destruct (renameEntity_data oldId newId st cs e D G H N) as [Ee [Er Ec]].
  split; [split; [|split]|split; [|split; [|split; [|split]]]].
  - unfold getEntity. rewrite Ee, get_set.
    apply String.eqb_neq in D. rewrite D. rewrite map_get_deleted. reflexivity.
  - unfold getEntity. rewrite Ee, get_set_same. reflexivity.
  - intros other D1 D2. unfold getEntity. rewrite Ee, get_set.
    apply String.eqb_neq in D2. rewrite D2. rewrite (map_get_delete _ _ _ D1). reflexivity.
  - exact Er.
  - exact Ec.
  - unfold renameEntity. apply String.eqb_neq in D. rewrite D, G, H. apply each_call_active.
  - intros rel Hin. rewrite Er in Hin. apply in_map_iff in Hin as [r0 [<- _]].
    apply renamed_relation_free, D.
  - intros k c Hin [extractions [ext [X [Hx Hid]]]]. rewrite Ec in Hin.
    apply map_extractions_in in Hin as [c0 [_ X0]]. rewrite X in X0.
    destruct (CallsStore.k_extractions c0) as [l|]; [|discriminate X0].
    injection X0 as ->. apply in_map_iff in Hx as [x0 [<- _]].
    unfold rename_extraction in Hid.
    destruct (String.eqb (x_entity x0) oldId) eqn:B; cbn in Hid; [congruence|].
    apply String.eqb_neq in B. contradiction.
Qed.

(* ------------------------------------------------------------------ *)
(** ** References stay resolved *)
(* ------------------------------------------------------------------ *)

Definition known (st : state) (id : string) : Prop := getEntity id st <> None.

(** Every relation joins two entities of the store and every extraction of
    every call names an entity of the store. *)
Definition resolved (st : state) (cs : CallsStore.state) : Prop :=
  (forall rel, In rel (relations st) -> known st (r_from rel) /\ known st (r_to rel))
  /\ forall k c extractions ext,
       In (k, c) (CallsStore.calls cs) -> CallsStore.k_extractions c = Some extractions ->
       In ext extractions -> known st (x_entity ext).

(** The edits of the mapping that add no reference. *)
Inductive edit : Type :=
| SetEntity (id : string) (config : config)
| AddSource (entityId path : string)
| RemoveSource (entityId path : string)
| CreateEntity
| RenameEntity (oldId newId : string)
| DeleteEntity (id : string)
| RemoveRelation (from to : string)
| DeleteRelation (index : Z).

Definition apply_edit (o : edit) (s : state * CallsStore.state) : state * CallsStore.state :=
  match o with
  | SetEntity id config => (setEntity id config (fst s), snd s)
  | AddSource entityId path => (addSource entityId path (fst s), snd s)
  | RemoveSource entityId path => (removeSource entityId path (fst s), snd s)
  | CreateEntity => (createEntity (fst s), snd s)
  | RenameEntity oldId newId => renameEntity oldId newId (fst s) (snd s)
  | DeleteEntity id => deleteEntity id (fst s) (snd s)
  | RemoveRelation from to => (removeRelation from to (fst s), snd s)
  | DeleteRelation index => (deleteRelation index (fst s), snd s)
  end.

Lemma known_get (st : state) (id : string) :
  known st id <-> map_get (entities st) id <> None.
Proof.
  unfold known, getEntity. destruct (map_get (entities st) id); split; congruence.
Qed.

Lemma resolved_mono (st st' : state) (cs : CallsStore.state) :
  (forall id, known st id -> known st' id) ->
  (forall rel, In rel (relations st') -> In rel (relations st)) ->
  resolved st cs -> resolved st' cs.
Proof.
  intros K R [Hr Hx]. split.
  - intros rel Hin. destruct (Hr rel (R rel Hin)) as [A B]. split; apply K; assumption.
  - intros k c extractions ext H1 H2 H3. apply K, (Hx k c extractions ext H1 H2 H3).
Qed.

Lemma resolved_set (st : state) (cs : CallsStore.state) (id : string) (e : entity)
    (n : nat) :
  resolved st cs -> resolved (commit st (map_set (entities st) id e) (relations st) n) cs.
Proof.
  destruct (commit_data st (map_set (entities st) id e) (relations st) n) as [Ee Er].
  apply resolved_mono.
  - intros k. rewrite !known_get, Ee, get_set. destruct (String.eqb k id); congruence.
  - intros rel. rewrite Er. trivial.
Qed.

Lemma remove_at_in (n : nat) (l : list relation) (rel : relation) :
  In rel (remove_at n l) -> In rel l.
Proof.
  revert n; induction l as [|r rest IH]; intros n; [destruct n; intros []|].
  destruct n as [|n]; cbn.
  - intros H; right; exact H.
  - intros [->|H]; [left; reflexivity|right; apply (IH n H)].
Qed.

Lemma resolved_remove (st : state) (cs : CallsStore.state) (n : nat) :
  resolved st cs ->
  resolved (commit st (entities st) (remove_at n (relations st)) (colorIndex st)) cs.
Proof.
  destruct (commit_data st (entities st) (remove_at n (relations st)) (colorIndex st))
    as [Ee Er].
  apply resolved_mono.
  - intros k. rewrite !known_get, Ee. trivial.
  - intros rel. rewrite Er. apply remove_at_in.
Qed.

Lemma map_extractions_keys (f : list extraction -> list extraction)
    (calls : list (string * CallsStore.stored)) :
  map fst (map (map_extractions f) calls) = map fst calls.
Proof. rewrite map_map. apply map_ext. intros kc. reflexivity. Qed.

Lemma deleteEntity_resolved (id : string) (st : state) (cs : CallsStore.state) :
  NoDup (map fst (CallsStore.calls cs)) -> resolved st cs ->
  NoDup (map fst (CallsStore.calls (snd (deleteEntity id st cs))))
  /\ resolved (fst (deleteEntity id st cs)) (snd (deleteEntity id st cs)).
Proof.
  intros N [Hr Hx]. destruct (map_get (entities st) id) as [e|] eqn:H.
  - destruct (deleteEntity_data id st cs e H N) as [Ee [Er Ec]].
    assert (K : forall k, k <> id -> known st k -> known (fst (deleteEntity id st cs)) k).
    { intros k D. rewrite !known_get, Ee, (map_get_delete _ _ _ D). trivial. }
    split; [rewrite Ec, map_extractions_keys; exact N|]. split.
    + intros rel Hin. rewrite Er in Hin. apply filter_In in Hin as [Hin B].
      apply andb_true_iff in B as [B1 B2].
      apply negb_true_iff, String.eqb_neq in B1, B2.
      destruct (Hr rel Hin) as [K1 K2]. split; apply K; assumption.
    + intros k c extractions ext H1 H2 H3. rewrite Ec in H1.
      apply map_extractions_in in H1 as [c0 [H1 X0]]. rewrite H2 in X0.
      destruct (CallsStore.k_extractions c0) as [l|] eqn:X; [|discriminate X0].
      injection X0 as ->. apply filter_In in H3 as [H3 B].
      apply negb_true_iff, String.eqb_neq in B.
      apply K; [exact B|apply (Hx k c0 l ext H1 X H3)].
  - unfold deleteEntity. rewrite H. cbn [fst snd]. split; [exact N|split; assumption].
Qed.

Lemma renameEntity_resolved (oldId newId : string) (st : state) (cs : CallsStore.state) :
  NoDup (map fst (CallsStore.calls cs)) -> resolved st cs ->
  NoDup (map fst (CallsStore.calls (snd (renameEntity oldId newId st cs))))
  /\ resolved (fst (renameEntity oldId newId st cs)) (snd (renameEntity oldId newId st cs)).
Proof.
  intros N [Hr Hx].
  assert (Same : renameEntity oldId newId st cs = (st, cs) ->
                 NoDup (map fst (CallsStore.calls (snd (renameEntity oldId newId st cs))))
                 /\ resolved (fst (renameEntity oldId newId st cs))
                      (snd (renameEntity oldId newId st cs))).
  { intros ->. cbn [fst snd]. split; [exact N|split; assumption]. }
  destruct (String.eqb oldId newId) eqn:D;
    [apply Same; unfold renameEntity; rewrite D; reflexivity|].
  destruct (map_get (entities st) newId) as [x|] eqn:G;
    [apply Same; unfold renameEntity; rewrite D, G; reflexivity|].
  destruct (map_get (entities st) oldId) as [e|] eqn:H;
    [|apply Same; unfold renameEntity; rewrite D, G, H; reflexivity].
  clear Same. apply String.eqb_neq in D.
  destruct (renameEntity_data oldId newId st cs e D G H N) as [Ee [Er Ec]].
  assert (K : forall k, known st k ->
                        known (fst (renameEntity oldId newId st cs))
                          (if String.eqb k oldId then newId else k)).
  { intros k. rewrite !known_get, Ee, get_set.
    destruct (String.eqb k oldId) eqn:B.
    - rewrite String.eqb_refl. congruence.
    - apply String.eqb_neq in B. rewrite (map_get_delete _ _ _ B).
      destruct (String.eqb k newId); congruence. }
  split; [rewrite Ec, map_extractions_keys; exact N|]. split.
  - intros rel Hin. rewrite Er in Hin. apply in_map_iff in Hin as [r0 [<- Hin]].
    destruct (Hr r0 Hin) as [K1 K2]. cbn. split; apply K; assumption.
  - intros k c extractions ext H1 H2 H3. rewrite Ec in H1.
    apply map_extractions_in in H1 as [c0 [H1 X0]]. rewrite H2 in X0.
    destruct (CallsStore.k_extractions c0) as [l|] eqn:X; [|discriminate X0].
    injection X0 as ->. apply in_map_iff in H3 as [x0 [<- H3]].
    pose proof (K _ (Hx k c0 l x0 H1 X H3)) as Kx.
    unfold rename_extraction. destruct (String.eqb (x_entity x0) oldId); exact Kx.
Qed.

Lemma edit_resolved (o : edit) (s : state * CallsStore.state) :
  NoDup (map fst (CallsStore.calls (snd s))) -> resolved (fst s) (snd s) ->
  NoDup (map fst (CallsStore.calls (snd (apply_edit o s))))
  /\ resolved (fst (apply_edit o s)) (snd (apply_edit o s)).
Proof.
  destruct s as [st cs]. cbn [fst snd]. intros N R.
  destruct o; cbn [apply_edit fst snd].
  - split; [exact N|]. apply resolved_set, R.
  - split; [exact N|]. unfold addSource.
    destruct (map_get (entities st) entityId); [|exact R].
    destruct (existsb _ _); [exact R|apply resolved_set, R].
  - split; [exact N|]. unfold removeSource.
    destruct (map_get (entities st) entityId); [|exact R].
    destruct (existsb _ _); [apply resolved_set, R|exact R].
  - split; [exact N|]. apply resolved_set, R.
  - apply renameEntity_resolved; assumption.
  - apply deleteEntity_resolved; assumption.
  - split; [exact N|]. unfold removeRelation.
    destruct (findIndex from to (relations st)); [apply resolved_remove, R|exact R].
  - split; [exact N|]. unfold deleteRelation.
    destruct (_ || _); [exact R|apply resolved_remove, R].
Qed.

(** X26.  Editing the mapping leaves no dangling reference.  If every
    relation joins two entities of the mapping store and every extraction
    of every call names one, this still holds after any sequence of
    [setEntity], [addSource], [removeSource], [createEntity],
    [renameEntity], [deleteEntity], [removeRelation] and
    [deleteRelation]. *)
Theorem edits_keep_references_resolved (ops : list edit) (st : state)
    (cs : CallsStore.state)
    (N : NoDup (map fst (CallsStore.calls cs)))
    (R : resolved st cs) :
  let s := fold_left (fun s o => apply_edit o s) ops (st, cs) in
  resolved (fst s) (snd s).
Proof.
  cbn zeta.
  assert (G : forall s, NoDup (map fst (CallsStore.calls (snd s))) ->
                        resolved (fst s) (snd s) ->
                        resolved (fst (fold_left (fun s o => apply_edit o s) ops s))
                          (snd (fold_left (fun s o => apply_edit o s) ops s))).
  { induction ops as [|o rest IH]; intros s Ns Rs; [exact Rs|].
    cbn [fold_left]. destruct (edit_resolved o s Ns Rs) as [N1 R1]. apply IH; assumption. }
  apply (G (st, cs)); assumption.
Qed.

End MappingStoreFacts.
(* ================================================================== *)
(** * The statements at concrete inputs *)
(* ================================================================== *)

Module Witness.
Import Path Config PathFacts Keys KeyFacts Engine EdgeFacts Merge GroupFacts MergeFacts.

Lemma match_path_length_is_depth_witness :
  exists ms d,
    evaluatePath (H := bare_host) (VObj [("a", VArr 0 [VNum 1; VNum 2; VNum 3])]) (PStr "a[*]")
    = Ok ms
    /\ getPathDepth (PStr "a[*]") = Ok d
    /\ d = List.length (filter (fun tok => match tok with Root => false | _ => true end)
                          [Field "a"; AllItems])
    /\ Forall (fun m => List.length (m_path m) = d) ms.
Proof.
  apply (match_path_length_is_depth (H := bare_host)
           (VObj [("a", VArr 0 [VNum 1; VNum 2; VNum 3])]) (PStr "a[*]") [Field "a"; AllItems]).
  reflexivity.
Defined.

Lemma composite_key_is_joined_or_void_witness :
  exists values,
    Forall2 (fun part v =>
               getNestedValue (H := bare_host)
                 (VObj [("type", VStr "order"); ("date", VStr "2024-01-15")]) (Str.trim part)
               = Ok v)
      (Str.split "+" "type+date") values
    /\ (existsb nullish values = true ->
        resolvePkValue (H := bare_host)
          (VObj [("type", VStr "order"); ("date", VStr "2024-01-15")]) "type+date"
        = Ok VUndefined
        /\ nullish VUndefined = true)
    /\ (existsb nullish values = false ->
        resolvePkValue (H := bare_host)
          (VObj [("type", VStr "order"); ("date", VStr "2024-01-15")]) "type+date"
        = (s <- js_join (H := bare_host) "|" values ;; Ok (VStr s))
        /\ forall texts,
             Forall2 (fun v t => to_string (H := bare_host) v = Ok t) values texts ->
             resolvePkValue (H := bare_host)
               (VObj [("type", VStr "order"); ("date", VStr "2024-01-15")]) "type+date"
             = Ok (VStr (Str.join "|" texts))).
Proof.
  apply (composite_key_is_joined_or_void (H := bare_host)
           (VObj [("type", VStr "order"); ("date", VStr "2024-01-15")]) "type+date");
    reflexivity.
Defined.





(** [{"id": 1, "name": "A"}] and [{"id": 1, "name": "B"}] *)
Definition name_items : list groupItem :=
  [ item_of "c1:$" (VObj [("id", VNum 1); ("name", VStr "A")]);
    item_of "c2:$" (VObj [("id", VNum 1); ("name", VStr "B")]) ].

Lemma merge_fold_on_agreeing_sources_witness :
  forallb plain_doc (map gi_data name_items) = true
  /\ forallb scalar (map gi_data name_items) = true
  /\ forallb (fun a => forallb (agree_shape a) (map gi_data name_items))
       (map gi_data name_items) = true
  /\ exists st',
       merge_items [] (item_of "c1:$" VNull) (fresh_merge []) 0 name_items = Ok st'
       /\ tgt_at (mergedData st') ["name"] = Some (KLeaf (VStr "B"))
       /\ conflicts_at (tracked st') "name"
          = [ record_of (info_of [] 1 (item_of "c2:$" VNull)) (VStr "A") (VStr "B") ]
       /\ conflicts_at (tracked st') "id" = []
       /\ own_property (conflicts (tracked st')) "id" = None.
Proof.
  split; [reflexivity|]. split; [reflexivity|]. split; [reflexivity|].
  destruct (merge_fold_on_agreeing_sources [] (item_of "c1:$" VNull) name_items []
              eq_refl eq_refl eq_refl) as [st' [E [L [C N]]]].
  exists st'. split; [exact E|]. split; [apply L; reflexivity|].
  split; [rewrite C; reflexivity|]. split; [rewrite C; reflexivity|].
  apply N. intros ks a b x y Hk Ha Hb Va Vb.
  assert (Hks : ks = ["id"]).
  { destruct ks as [|k [|k' r]].
    - discriminate Hk.
    - cbn in Hk. unfold full_path in Hk. cbn in Hk. rewrite Hk. reflexivity.
    - exfalso. cbn in Ha. destruct Ha as [<-|[<-|[]]]; cbn [val_at] in Va;
        rewrite !MergeFacts.own_property_cons in Va;
        (destruct (String.eqb "id" k); [discriminate Va|]);
        (destruct (String.eqb "name" k); discriminate Va). }
  subst ks. cbn in Ha, Hb.
  destruct Ha as [<-|[<-|[]]]; destruct Hb as [<-|[<-|[]]];
    cbn in Va, Vb; injection Va as <-; injection Vb as <-; reflexivity.
Defined.

End Witness.

(* ================================================================== *)
(** * Further statements at concrete inputs *)
(* ================================================================== *)

Module Instances.
Import Path Config PathFacts PathLaws ParentPathLaws ParseLaws.
Import Extractor Simple SimpleFacts ContextFacts Engine EngineFacts Keys KeyLaws.

(** [{"a": [1, 2]}] *)
Definition pair_doc : value := VObj [("a", VArr 0 [VNum 1; VNum 2])].

Lemma match_path_addresses_its_value_witness :
  evaluatePath (H := bare_host) pair_doc (PAst (map token_of_seg [SKey "a"; SIdx 1]))
  = Ok [ {| m_value := VNum 2; m_path := [SKey "a"; SIdx 1] |} ].
Proof.
  apply (match_path_addresses_its_value (H := bare_host) pair_doc (PStr "a[*]")
           [ {| m_value := VNum 1; m_path := [SKey "a"; SIdx 0] |};
             {| m_value := VNum 2; m_path := [SKey "a"; SIdx 1] |} ]
           {| m_value := VNum 2; m_path := [SKey "a"; SIdx 1] |}).
  - reflexivity.
  - right; left; reflexivity.
Defined.

Lemma path_without_wildcard_matches_once_witness :
  exists ms, evaluatePath (H := bare_host) pair_doc (PAst [Root; Field "a"; Index 0]) = Ok ms
             /\ List.length ms <= 1.
Proof.
  apply (path_without_wildcard_matches_once (H := bare_host) pair_doc [Root; Field "a"; Index 0]).
  intros [E|[E|[E|[]]]]; discriminate E.
Defined.

Lemma isParentPath_is_a_preorder_witness :
  isParentPath "$.a" "$.a.b[0]" = true.
Proof.
  apply (proj2 isParentPath_is_a_preorder "$.a" "$.a.b" "$.a.b[0]"); reflexivity.
Defined.

Lemma getParentPath_is_a_parent_witness :
  isParentPath "items[0]" "$.items[0].name" = true.
Proof.
  apply (getParentPath_is_a_parent "$.items[0].name" "items[0]"); reflexivity.
Defined.

Lemma node_path_selects_its_match_witness :
  parsePath (node_path [SKey "a"; SIdx 1]) = Ok (Root :: map token_of_seg [SKey "a"; SIdx 1])
  /\ evaluatePath (H := bare_host) pair_doc (PStr (node_path [SKey "a"; SIdx 1]))
     = Ok [ {| m_value := VNum 2; m_path := [SKey "a"; SIdx 1] |} ].
Proof.
  apply (node_path_selects_its_match (H := bare_host) pair_doc (PStr "a[*]")
           [ {| m_value := VNum 1; m_path := [SKey "a"; SIdx 0] |};
             {| m_value := VNum 2; m_path := [SKey "a"; SIdx 1] |} ]
           {| m_value := VNum 2; m_path := [SKey "a"; SIdx 1] |}).
  - reflexivity.
  - right; left; reflexivity.
  - repeat constructor.
Defined.

Lemma toJsonPath_keeps_node_paths_witness :
  Sidebar.toJsonPath "$.contacts.0.email" = "$.contacts[0].email"
  /\ parsePath (Sidebar.toJsonPath "$.contacts.0.email")
     = Ok [Root; Field "contacts"; Index 0; Field "email"]
  /\ parsePath "$.contacts.0.email" = Ok [Root; Field "contacts"; Index 0; Field "email"].
Proof.
  apply (toJsonPath_keeps_node_paths [SKey "contacts"; SIdx 0; SKey "email"]).
  repeat constructor.
Defined.

Lemma parsed_path_has_root_at_head_only_witness :
  [Root; Field "data"; AllItems; Field "name"] <> []
  /\ Forall not_root (tl [Root; Field "data"; AllItems; Field "name"]).
Proof.
  apply (parsed_path_has_root_at_head_only "$.data[*].name"). reflexivity.
Defined.

Lemma root_prefix_is_optional_witness :
  evaluatePath (H := bare_host) pair_doc (PStr ("$." +++ "a[1]"))
  = Ok [ {| m_value := VNum 2; m_path := [SKey "a"; SIdx 1] |} ]
  <-> evaluatePath (H := bare_host) pair_doc (PStr "a[1]")
      = Ok [ {| m_value := VNum 2; m_path := [SKey "a"; SIdx 1] |} ].
Proof.
  apply (root_prefix_is_optional (H := bare_host) pair_doc "a[1]"). reflexivity.
Defined.

(** [{"users": [{"id": 1, "team": {"id": 7}}, {"name": "x"}]}] *)
Definition users_doc : value :=
  VObj [("users", VArr 0 [VObj [("id", VNum 1); ("team", VObj [("id", VNum 7)])];
                          VObj [("name", VStr "x")]])].

Definition users_rules : list extraction :=
  [ {| x_entity := "team"; x_path := "users[*].team" |};
    {| x_entity := "user"; x_path := "users[*]" |} ].

Definition users_configs : list (string * entityConfig) :=
  [("user", ParentFacts.config "user"); ("team", ParentFacts.config "team")].

Lemma preview_counts_the_extraction_witness :
  exists counts,
    previewExtraction (H := bare_host) users_doc users_rules users_configs = Ok counts
    /\ forall e, inherited_name e = false ->
         match own_property counts e with
         | Some c =>
             c = CNum (count_of e
                         [ {| q_entity := "team"; q_data := VObj [("id", VNum 7)];
                              q_pk := VNum 7 |};
                           {| q_entity := "user";
                              q_data := VObj [("id", VNum 1); ("team", VObj [("id", VNum 7)])];
                              q_pk := VNum 1 |} ])
         | None =>
             count_of e
               [ {| q_entity := "team"; q_data := VObj [("id", VNum 7)]; q_pk := VNum 7 |};
                 {| q_entity := "user";
                    q_data := VObj [("id", VNum 1); ("team", VObj [("id", VNum 7)])];
                    q_pk := VNum 1 |} ] = 0
         end.
Proof.
  apply (preview_counts_the_extraction (H := bare_host) users_doc users_rules users_configs).
  reflexivity.
Defined.

Definition user_result : extracted :=
  {| t_entity := "user";
     t_data := VObj [("id", VNum 1); ("team", VObj [("id", VNum 7)])];
     t_pk := VNum 1; t_path := "users[*]"; t_extractPath := [SKey "users"; SIdx 0];
     t_parentEntity := None; t_parentPk := VNull |}.

Definition team_result : extracted :=
  {| t_entity := "team"; t_data := VObj [("id", VNum 7)];
     t_pk := VNum 7; t_path := "users[*].team";
     t_extractPath := [SKey "users"; SIdx 0; SKey "team"];
     t_parentEntity := Some "user"; t_parentPk := VNum 1 |}.

Lemma context_extends_simple_extraction_witness :
  exists sortedExtractions,
    sort_by_depth users_rules = Ok sortedExtractions
    /\ extractSimple (H := bare_host) users_doc sortedExtractions users_configs
       = Ok (map forget [user_result; team_result]).
Proof.
  apply (context_extends_simple_extraction (H := bare_host) users_doc users_rules users_configs
           [user_result; team_result]).
  reflexivity.
Defined.

Lemma context_parent_is_an_earlier_result_witness :
  exists r', In r' [user_result] /\ t_entity r' = "user" /\ t_pk r' = t_parentPk team_result.
Proof.
  apply (context_parent_is_an_earlier_result (H := bare_host) users_doc users_rules
           users_configs [user_result; team_result] [user_result] [] team_result "user");
    reflexivity.
Defined.

Definition user_entity : entity :=
  {| e_id := "user-1"; e_type := "user"; e_pk := VNum 1;
     e_data := VObj [("id", VNum 1); ("team", VObj [("id", VNum 7)])];
     e_label := "1"; e_color := "#4F46E5"; e_callId := "c1"; e_extractPath := "users.0" |}.

Definition team_entity : entity :=
  {| e_id := "team-7"; e_type := "team"; e_pk := VNum 7;
     e_data := VObj [("id", VNum 7)];
     e_label := "7"; e_color := "#4F46E5"; e_callId := "c1";
     e_extractPath := "users.0.team" |}.

Definition user_team_edge : edge :=
  {| g_id := "intra-user-1-team-7"; g_source := "user-1"; g_target := "team-7";
     g_edgeType := "intra" |}.

Lemma intra_edges_join_extracted_entities_witness :
  List.length [user_team_edge] <= List.length [user_entity; team_entity]
  /\ forall g, In g [user_team_edge] ->
       g_id g = "intra-" +++ g_source g +++ "-" +++ g_target g
       /\ g_edgeType g = "intra"
       /\ exists pre t post,
            [user_entity; team_entity] = pre ++ t :: post
            /\ e_id t = g_target g /\ In (g_source g) (map e_id pre).
Proof.
  apply (intra_edges_join_extracted_entities (H := bare_host) "c1" users_doc users_rules
           users_configs [user_entity; team_entity] [user_team_edge]).
  reflexivity.
Defined.

Lemma extracted_entities_are_keyed_objects_witness :
  e_callId team_entity = "c1"
  /\ nullish (e_pk team_entity) = false
  /\ truthy (e_data team_entity) = true /\ typeof_object (e_data team_entity) = true
  /\ isArray (e_data team_entity) = false
  /\ exists pkText, to_string (H := bare_host) (e_pk team_entity) = Ok pkText
                    /\ e_id team_entity = e_type team_entity +++ "-" +++ pkText.
Proof.
  apply (extracted_entities_are_keyed_objects (H := bare_host) "c1" users_doc users_rules
           users_configs [user_entity; team_entity] [user_team_edge]).
  - reflexivity.
  - right; left; reflexivity.
Defined.

Lemma simple_key_is_resolved_alike_witness :
  evaluatePathSingle (H := bare_host) (VObj [("user_id", VNum 4)]) (PStr "user_id")
  = resolvePkValue (H := bare_host) (VObj [("user_id", VNum 4)]) "user_id".
Proof.
  apply (simple_key_is_resolved_alike (H := bare_host) [("user_id", VNum 4)] "user_id").
  reflexivity.
Defined.

Lemma composite_key_is_a_path_syntax_error_witness :
  evaluatePathSingle (H := bare_host)
    (VObj [("type", VStr "order"); ("date", VStr "2024-01-15")]) (PStr ("type" +++ "+" +++ "date"))
  = Throw (PathError (InvalidSyntax ("+" +++ "date"))).
Proof.
  apply (proj1 (composite_key_is_a_path_syntax_error (H := bare_host) "type" "date"
                  eq_refl eq_refl)).
Defined.

End Instances.

(* ================================================================== *)
(** * The graph statements at concrete inputs *)
(* ================================================================== *)

Module GraphInstances.
Import Path Config PathFacts PathLaws ParseLaws.
Import Html HtmlFacts NodeId NodeIdFacts RawGraph RawGraphFacts.

Lemma escapeHtml_escapes_each_character_witness :
  escapeHtml "Call 1: users" = "Call 1: users".
Proof.
  apply (proj2 (proj2 (escapeHtml_escapes_each_character "Call 1: users"))).
  reflexivity.
Defined.

Lemma node_id_round_trip_witness :
  parseNodeId (createNodeId "user" "a-1") = {| n_type := "user"; n_pkValue := "a-1" |}.
Proof.
  apply (proj1 node_id_round_trip "user" "a-1"). reflexivity.
Defined.

(** [{"users": [{"id": 1}]}] *)
Definition nested_doc : value := VObj [("users", VArr 0 [VObj [("id", VNum 1)]])].







End GraphInstances.

(* ================================================================== *)
(** * The store statements at concrete inputs *)
(* ================================================================== *)

Module StoreInstances.
Import Config CallsStore CallsStoreFacts.

(** A [JSON.parse] that reads the text [1] only. *)
Definition parse_one (text : string) : value + string :=
  if String.eqb text "1" then inl (VNum 1) else inr "Unexpected token".

Definition one_call : state := createCall parse_one "c1" "Users" "1" initial.

Lemma import_restores_the_export_witness :
  calls (importData parse_one (exportData one_call) initial) = calls one_call
  /\ activeCallId (importData parse_one (exportData one_call) initial)
     = activeCallId one_call
  /\ callCounter (importData parse_one (exportData one_call) initial)
     = List.length (calls one_call).
Proof.
  apply (import_restores_the_export parse_one one_call initial).
  - split; [|split].
    + vm_compute. constructor; [intros []|constructor].
    + right. exists "c1". eexists. split; reflexivity.
    + intros id c [[= <- <-]|[]]. split; reflexivity.
  - intros id c [[= <- <-]|[]]. discriminate.
Defined.

Lemma batch_defers_events_witness :
  let ops := [CreateCall "c1" "Users" "1"; UpdateName "c1" "People"] in
  let plain := fold_left (fun s o => run parse_one o s) ops initial in
  let inside := fold_left (fun s o => run parse_one o s) ops (startBatch initial) in
  exists evs,
    events plain = events initial ++ evs
    /\ events inside = events initial
    /\ events (endBatch inside) = events initial ++ last_event evs
    /\ batchMode (endBatch inside) = false
    /\ calls (endBatch inside) = calls plain
    /\ activeCallId (endBatch inside) = activeCallId plain
    /\ callCounter (endBatch inside) = callCounter plain
    /\ storage (endBatch inside) = storage plain.
Proof.
  apply (batch_defers_events parse_one initial
           [CreateCall "c1" "Users" "1"; UpdateName "c1" "People"]); reflexivity.
Defined.



End StoreInstances.

Module MappingInstances.
Import Config MappingStore MappingStoreFacts.

Definition plain (label : string) : entity :=
  {| e_label := label; e_color := "#4F46E5"; e_pk := "id"; e_displayField := "id";
     e_sources := [] |}.

(** Two entities and the relation between them. *)
Definition two_entities : state :=
  {| entities := [("user", plain "User"); ("team", plain "Team")];
     relations := [{| r_from := "team"; r_to := "user"; r_toFk := "team_id";
                      r_fromPk := "" |}];
     colorIndex := 2; batchMode := false; batchDirty := false; notified := 0;
     storage := None |}.

(** A call that extracts both. *)
Definition extracting_call : CallsStore.state :=
  CallsStore.updateExtractions "c1"
    (Some [{| x_entity := "user"; x_path := "users[*]" |};
           {| x_entity := "team"; x_path := "users[*].team" |}])
    StoreInstances.one_call.

Lemma extracting_call_keys : NoDup (map fst (CallsStore.calls extracting_call)).
Proof. vm_compute. constructor; [intros []|constructor]. Qed.

Lemma deleteEntity_removes_every_reference_witness :
  getEntity "team" (fst (deleteEntity "team" two_entities extracting_call)) = None.
Proof.
  apply (proj1 (proj1 (deleteEntity_removes_every_reference "team" two_entities extracting_call
                         (plain "Team") eq_refl extracting_call_keys))).
Defined.

Lemma renameEntity_moves_every_reference_witness :
  getEntity "group" (fst (renameEntity "team" "group" two_entities extracting_call))
  = Some ("group", plain "Team").
Proof.
  refine (proj1 (proj2 (proj1 (renameEntity_moves_every_reference "team" "group"
                                 two_entities extracting_call (plain "Team") _ eq_refl eq_refl
                                 extracting_call_keys)))).
  discriminate.
Defined.

Lemma edits_keep_references_resolved_witness :
  let s := fold_left (fun s o => apply_edit o s)
             [RenameEntity "team" "group"; DeleteEntity "user"] (two_entities, extracting_call) in
  resolved (fst s) (snd s).
Proof.
  apply (edits_keep_references_resolved [RenameEntity "team" "group"; DeleteEntity "user"]
           two_entities extracting_call extracting_call_keys).
  split.
  - intros rel [<-|[]]. split; discriminate.
  - intros k c extractions ext [[= <- <-]|[]] [= <-] [<-|[<-|[]]]; discriminate.
Defined.

End MappingInstances.
